(** * Qualcomm shared memory manager (drivers/soc/qcom/smem.c)

    A shallow embedding of the allocate-only shared heap: the byte-level
    layout of the partition table, the partition headers and the private
    item entries, the forward and backward walks over a partition, the
    legacy global heap, and the public entry points that route a request
    and take the remote spinlock.

    Conventions.
    - Shared memory is a byte store indexed by 64-bit addresses; every
      multi-byte field is decoded little-endian from its bytes.
    - [size_t] and pointers are 64 bits wide and wrap around; [u32] and
      [u16] fields wrap at their width.
    - An [int] result is a [Z]: [0] on success, [- E] for errno [E].
    - A pointer result of [ERR_PTR(-E)] is [Err E], a valid one is [Ok]. *)

From Stdlib Require Import ZArith List Bool Lia.
Import ListNotations.
Local Open Scope Z_scope.

(** ** Constants of the driver *)

Definition SMEM_MASTER_SBL_VERSION_INDEX : Z := 7.
Definition SMEM_GLOBAL_HEAP_VERSION : Z := 11.
Definition SMEM_GLOBAL_PART_VERSION : Z := 12.
Definition SMEM_ITEM_LAST_FIXED : Z := 8.
Definition SMEM_ITEM_COUNT : Z := 512.
Definition SMEM_HOST_APPS : Z := 0.
Definition SMEM_GLOBAL_HOST : Z := 65534. (* 0xfffe *)
Definition SMEM_HOST_COUNT : Z := 13.
Definition AUX_BASE_MASK : Z := 4294967292. (* 0xfffffffc *)
Definition SMEM_PRIVATE_CANARY : Z := 42405. (* 0xa5a5 *)
Definition SZ_4K : Z := 4096.
Definition HWSPINLOCK_TIMEOUT : Z := 1000.

Definition SMEM_PTABLE_MAGIC : list Z := [36; 84; 79; 67]. (* "$TOC" *)
Definition SMEM_PART_MAGIC : list Z := [36; 80; 82; 84].   (* "$PRT" *)
Definition SMEM_INFO_MAGIC : list Z := [83; 73; 73; 73].   (* "SIII" *)

(** errno values *)
Definition ENOENT : Z := 2.
Definition ENXIO : Z := 6.
Definition ENOMEM : Z := 12.
Definition EEXIST : Z := 17.
Definition EINVAL : Z := 22.
Definition ENOSPC : Z := 28.
Definition ETIMEDOUT : Z := 110.
Definition EPROBE_DEFER : Z := 517.

(** The last [MAX_ERRNO] addresses encode errors ([ERR_PTR]); no mapping
    reaches into them. *)
Definition MAX_ERRNO : Z := 4095.

(** ** Machine arithmetic *)

Abbreviation two16 := 65536 (only parsing).
Abbreviation two32 := 4294967296 (only parsing).
Abbreviation two64 := 18446744073709551616 (only parsing).

Definition u16 (x : Z) : Z := x mod two16.
Definition u32 (x : Z) : Z := x mod two32.
Definition size_t (x : Z) : Z := x mod two64.

(** Pointer arithmetic on [void *]: byte offsets, wrapping at 64 bits. *)
Definition ptr_add (p n : Z) : Z := (p + n) mod two64.
Definition ptr_sub (p n : Z) : Z := (p - n) mod two64.

(** [ALIGN(x, a)] of the kernel, computed in the type of [x] ([size_t]):
    [(x + (a - 1)) & ~(a - 1)]. *)
Definition ALIGN (x a : Z) : Z :=
  let mask := size_t (a - 1) in
  Z.land (size_t (x + mask)) (two64 - 1 - mask).

(** The mathematical rounding up to a multiple of 8. *)
Definition round_up8 (x : Z) : Z := 8 * ((x + 7) / 8).

(** [IN_PARTITION_RANGE(ptr, size, start, end)]. *)
Definition IN_PARTITION_RANGE (p size start end_ : Z) : bool :=
  (start <=? p) && (p <=? ptr_add p size) && (ptr_add p size <=? end_).

(** ** Shared memory *)

(** One byte per address; a read keeps the low eight bits. *)
Definition mem := Z -> Z.

Definition read8 (m : mem) (a : Z) : Z := m (a mod two64) mod 256.

Definition write8 (m : mem) (a v : Z) : mem :=
  fun x => if x =? a mod two64 then v mod 256 else m x.

Definition le16_to_cpu (m : mem) (a : Z) : Z :=
  read8 m a + 256 * read8 m (a + 1).

Definition le32_to_cpu (m : mem) (a : Z) : Z :=
  read8 m a + 256 * read8 m (a + 1) + 65536 * read8 m (a + 2)
  + 16777216 * read8 m (a + 3).

Definition cpu_to_le16 (m : mem) (a v : Z) : mem :=
  write8 (write8 m a v) (a + 1) (v / 256).

Definition cpu_to_le32 (m : mem) (a v : Z) : mem :=
  write8 (write8 (write8 (write8 m a v) (a + 1) (v / 256))
                 (a + 2) (v / 65536)) (a + 3) (v / 16777216).

(** [le32_add_cpu(var, val)]: [val] is a [u32] parameter. *)
Definition le32_add_cpu (m : mem) (a val : Z) : mem :=
  cpu_to_le32 m a (u32 (le32_to_cpu m a + u32 val)).

(** [memcmp(p, magic, 4) == 0]. *)
Definition magic_ok (m : mem) (a : Z) (magic : list Z) : bool :=
  match magic with
  | [b0; b1; b2; b3] =>
      (read8 m a =? b0) && (read8 m (a + 1) =? b1)
      && (read8 m (a + 2) =? b2) && (read8 m (a + 3) =? b3)
  | _ => false
  end.

(** A memory holding the given bytes from address [a] on, for examples. *)
Fixpoint poke (m : mem) (a : Z) (bs : list Z) : mem :=
  match bs with
  | [] => m
  | b :: bs' => poke (write8 m a b) (a + 1) bs'
  end.

Definition le16_bytes (v : Z) : list Z := [v mod 256; (v / 256) mod 256].
Definition le32_bytes (v : Z) : list Z :=
  [v mod 256; (v / 256) mod 256; (v / 65536) mod 256; (v / 16777216) mod 256].

Definition zero_mem : mem := fun _ => 0.

(** ** Layout of the shared structures

    Each accessor takes the address of the structure and decodes one
    field.  Sizes: [smem_ptable] header 32 bytes, [smem_ptable_entry] 48,
    [smem_partition_header] 32, [smem_private_entry] 16,
    [smem_global_entry] 16; the [toc] of [smem_header] starts at 208. *)

Definition SIZEOF_PTABLE_ENTRY : Z := 48.
Definition SIZEOF_PARTITION_HEADER : Z := 32.
Definition SIZEOF_PRIVATE_ENTRY : Z := 16.

(* struct smem_ptable_entry *)
Definition pte_offset (m : mem) (e : Z) : Z := le32_to_cpu m e.
Definition pte_size (m : mem) (e : Z) : Z := le32_to_cpu m (e + 4).
Definition pte_host0 (m : mem) (e : Z) : Z := le16_to_cpu m (e + 12).
Definition pte_host1 (m : mem) (e : Z) : Z := le16_to_cpu m (e + 14).
Definition pte_cacheline (m : mem) (e : Z) : Z := le32_to_cpu m (e + 16).

(* struct smem_ptable *)
Definition ptable_version (m : mem) (t : Z) : Z := le32_to_cpu m (t + 4).
Definition ptable_num_entries (m : mem) (t : Z) : Z := le32_to_cpu m (t + 8).
Definition ptable_entry (t i : Z) : Z :=
  ptr_add t (32 + SIZEOF_PTABLE_ENTRY * i).

(* struct smem_partition_header *)
Definition phdr_host0 (m : mem) (p : Z) : Z := le16_to_cpu m (p + 4).
Definition phdr_host1 (m : mem) (p : Z) : Z := le16_to_cpu m (p + 6).
Definition phdr_size (m : mem) (p : Z) : Z := le32_to_cpu m (p + 8).
Definition phdr_offset_free_uncached (m : mem) (p : Z) : Z :=
  le32_to_cpu m (p + 12).
Definition phdr_offset_free_cached (m : mem) (p : Z) : Z :=
  le32_to_cpu m (p + 16).

(* struct smem_private_entry; the canary has two equal bytes *)
Definition pe_canary (m : mem) (e : Z) : Z := le16_to_cpu m e.
Definition pe_item (m : mem) (e : Z) : Z := le16_to_cpu m (e + 2).
Definition pe_size (m : mem) (e : Z) : Z := le32_to_cpu m (e + 4).
Definition pe_padding_data (m : mem) (e : Z) : Z := le16_to_cpu m (e + 8).
Definition pe_padding_hdr (m : mem) (e : Z) : Z := le16_to_cpu m (e + 10).

(* struct smem_info *)
Definition info_num_items (m : mem) (i : Z) : Z := le16_to_cpu m (i + 16).

(* struct smem_header and struct smem_global_entry *)
Definition header_version (m : mem) (h i : Z) : Z :=
  le32_to_cpu m (h + 64 + 4 * i).
Definition header_initialized (m : mem) (h : Z) : Z := le32_to_cpu m (h + 192).
Definition header_free_offset (m : mem) (h : Z) : Z := le32_to_cpu m (h + 196).
Definition header_available (m : mem) (h : Z) : Z := le32_to_cpu m (h + 200).
Definition header_reserved (m : mem) (h : Z) : Z := le32_to_cpu m (h + 204).
Definition header_toc (h item : Z) : Z := ptr_add h (208 + 16 * item).
Definition ge_allocated (m : mem) (e : Z) : Z := le32_to_cpu m e.
Definition ge_offset (m : mem) (e : Z) : Z := le32_to_cpu m (e + 4).
Definition ge_size (m : mem) (e : Z) : Z := le32_to_cpu m (e + 8).
Definition ge_aux_base (m : mem) (e : Z) : Z := le32_to_cpu m (e + 12).

(** ** The handle *)

Record smem_region := {
  aux_base : Z;   (* u32 *)
  virt_base : Z;  (* mapped address *)
  size : Z        (* size_t *)
}.

(** [struct qcom_smem]: pointers to table entries are addresses in shared
    memory, [None] for a null pointer. *)
Record qcom_smem := {
  global_partition_entry : option Z;
  ptable_entries : list (option Z);   (* SMEM_HOST_COUNT slots *)
  item_count : Z;
  regions : list smem_region          (* num_regions = length regions *)
}.

Definition region_at (smem : qcom_smem) (i : nat) : smem_region :=
  nth i (regions smem) {| aux_base := 0; virt_base := 0; size := 0 |}.

Definition ptable_entries_at (smem : qcom_smem) (host : Z) : option Z :=
  nth (Z.to_nat host) (ptable_entries smem) None.

Inductive result (A : Type) : Type :=
| Ok (a : A)
| Err (errno : Z).
Arguments Ok {A} a.
Arguments Err {A} errno.

(** ** Pointer helpers *)

Definition ptable_entry_to_phdr (smem : qcom_smem) (m : mem) (entry : Z) : Z :=
  ptr_add (virt_base (region_at smem 0)) (pte_offset m entry).

Definition phdr_to_last_uncached_entry (m : mem) (phdr : Z) : Z :=
  ptr_add phdr (phdr_offset_free_uncached m phdr).

Definition phdr_to_first_cached_entry (m : mem) (phdr cacheline : Z) : Z :=
  ptr_sub (ptr_add phdr (phdr_size m phdr))
          (ALIGN SIZEOF_PRIVATE_ENTRY cacheline).

Definition phdr_to_last_cached_entry (m : mem) (phdr : Z) : Z :=
  ptr_add phdr (phdr_offset_free_cached m phdr).

Definition phdr_to_first_uncached_entry (phdr : Z) : Z :=
  ptr_add phdr SIZEOF_PARTITION_HEADER.

Definition uncached_entry_next (m : mem) (e : Z) : Z :=
  ptr_add (ptr_add (ptr_add e SIZEOF_PRIVATE_ENTRY) (pe_padding_hdr m e))
          (pe_size m e).

Definition cached_entry_next (m : mem) (e cacheline : Z) : Z :=
  ptr_sub (ptr_sub e (pe_size m e)) (ALIGN SIZEOF_PRIVATE_ENTRY cacheline).

Definition uncached_entry_to_item (m : mem) (e : Z) : Z :=
  ptr_add (ptr_add e SIZEOF_PRIVATE_ENTRY) (pe_padding_hdr m e).

Definition cached_entry_to_item (m : mem) (e : Z) : Z :=
  ptr_sub e (pe_size m e).

(** ** The two walks

    Both loops of the driver examine one entry per iteration: a bad canary
    aborts, a matching item stops the walk at the entry, and the cursor
    must move strictly forward (backward) or the walk aborts.  The fuel of
    the recursion is the distance to the boundary, which every iteration
    shrinks, so it never runs out (see [walk_uncached_fuel]). *)

Inductive walk_result : Type :=
| WCorrupt            (* canary mismatch *)
| WFound (e : Z)      (* entry [e] holds the item *)
| WRegress            (* next entry not past the current one *)
| WDone (e : Z).      (* loop left with the cursor at [e] *)

Fixpoint walk_uncached (fuel : nat) (m : mem) (item hdr end_ : Z)
  : walk_result :=
  match fuel with
  | O => WDone hdr
  | S fuel' =>
      if (hdr <? end_) && (ptr_add hdr SIZEOF_PRIVATE_ENTRY <? end_) then
        if negb (pe_canary m hdr =? SMEM_PRIVATE_CANARY) then WCorrupt
        else if pe_item m hdr =? item then WFound hdr
        else
          let next_hdr := uncached_entry_next m hdr in
          if next_hdr <=? hdr then WRegress
          else walk_uncached fuel' m item next_hdr end_
      else WDone hdr
  end.

Definition uncached_walk (m : mem) (item hdr end_ : Z) : walk_result :=
  walk_uncached (Z.to_nat (end_ - hdr)) m item hdr end_.

Fixpoint walk_cached (fuel : nat) (m : mem) (item cacheline e cached_end : Z)
  : walk_result :=
  match fuel with
  | O => WDone e
  | S fuel' =>
      if cached_end <? e then
        if negb (pe_canary m e =? SMEM_PRIVATE_CANARY) then WCorrupt
        else if pe_item m e =? item then WFound e
        else
          let next_e := cached_entry_next m e cacheline in
          if e <=? next_e then WRegress
          else walk_cached fuel' m item cacheline next_e cached_end
      else WDone e
  end.

Definition cached_walk (m : mem) (item cacheline e cached_end : Z)
  : walk_result :=
  walk_cached (Z.to_nat (e - cached_end)) m item cacheline e cached_end.

(** ** Private partitions *)

(** The sanity check both private operations start with: the forward free
    pointer lies between the header and the backward free pointer, and the
    backward free pointer does not pass the partition's end. *)
Definition free_pointers_sane (phdr end_ cached p_end : Z) : bool :=
  IN_PARTITION_RANGE end_ 0 phdr cached && negb (p_end <? cached).

Definition qcom_smem_alloc_private (smem : qcom_smem) (entry item size : Z)
           (m : mem) : Z * mem :=
  let phdr := ptable_entry_to_phdr smem m entry in
  let p_end := ptr_add phdr (pte_size m entry) in
  let hdr := phdr_to_first_uncached_entry phdr in
  let end_ := phdr_to_last_uncached_entry m phdr in
  let cached := phdr_to_last_cached_entry m phdr in
  if negb (free_pointers_sane phdr end_ cached p_end) then (- EINVAL, m)
  else
    match uncached_walk m item hdr end_ with
    | WCorrupt => (- EINVAL, m)
    | WFound _ => (- EEXIST, m)
    | WRegress => (- EINVAL, m)
    | WDone hdr =>
        if end_ <? hdr then (- EINVAL, m)
        else
          (* Check that we don't grow into the cached region *)
          let alloc_size := size_t (SIZEOF_PRIVATE_ENTRY + ALIGN size 8) in
          if cached <? ptr_add hdr alloc_size then (- ENOSPC, m)
          else
            let m1 := cpu_to_le16 m hdr SMEM_PRIVATE_CANARY in
            let m2 := cpu_to_le16 m1 (hdr + 2) item in
            let m3 := cpu_to_le32 m2 (hdr + 4) (ALIGN size 8) in
            let m4 := cpu_to_le16 m3 (hdr + 8) (pe_size m3 hdr - size) in
            let m5 := cpu_to_le16 m4 (hdr + 10) 0 in
            (* wmb() *)
            let m6 := le32_add_cpu m5 (phdr + 12) alloc_size in
            (0, m6)
    end.

(** What both walks of the lookup do with the entry that holds the item:
    the stored size must be below the partition size and the padding
    below the stored size. *)
Definition entry_payload (m : mem) (e partition_size : Z) : option Z :=
  let e_size := pe_size m e in
  let padding_data := pe_padding_data m e in
  if (e_size <? partition_size) && (padding_data <? e_size)
  then Some (e_size - padding_data)
  else None.

Definition qcom_smem_get_private (smem : qcom_smem) (entry item : Z) (m : mem)
  : result (Z * Z) :=
  let phdr := ptable_entry_to_phdr smem m entry in
  let partition_size := pte_size m entry in
  let p_end := ptr_add phdr partition_size in
  let cacheline := pte_cacheline m entry in
  let e := phdr_to_first_uncached_entry phdr in
  let uncached_end := phdr_to_last_uncached_entry m phdr in
  let cached_end := phdr_to_last_cached_entry m phdr in
  if negb (free_pointers_sane phdr uncached_end cached_end p_end)
  then Err EINVAL
  else
    match uncached_walk m item e uncached_end with
    | WCorrupt => Err EINVAL
    | WRegress => Err EINVAL
    | WFound e =>
        match entry_payload m e partition_size with
        | None => Err EINVAL
        | Some entry_size =>
            let item_ptr := uncached_entry_to_item m e in
            if negb (IN_PARTITION_RANGE item_ptr entry_size e uncached_end)
            then Err EINVAL
            else Ok (item_ptr, entry_size)
        end
    | WDone e =>
        if uncached_end <? e then Err EINVAL
        else
          (* Item was not found in the uncached list, search the cached list *)
          if cached_end =? p_end then Err ENOENT
          else
            let e := phdr_to_first_cached_entry m phdr cacheline in
            if negb (IN_PARTITION_RANGE cached_end 0 uncached_end p_end)
               || negb (IN_PARTITION_RANGE e SIZEOF_PRIVATE_ENTRY
                                           cached_end p_end)
            then Err EINVAL
            else
              match cached_walk m item cacheline e cached_end with
              | WCorrupt => Err EINVAL
              | WRegress => Err EINVAL
              | WFound e =>
                  match entry_payload m e partition_size with
                  | None => Err EINVAL
                  | Some entry_size =>
                      let item_ptr := cached_entry_to_item m e in
                      if negb (IN_PARTITION_RANGE item_ptr entry_size
                                                  cached_end e)
                      then Err EINVAL
                      else Ok (item_ptr, entry_size)
                  end
              | WDone e =>
                  if e <? phdr then Err EINVAL else Err ENOENT
              end
    end.

(** ** The global heap *)

Definition qcom_smem_alloc_global (smem : qcom_smem) (item size : Z) (m : mem)
  : Z * mem :=
  let header := virt_base (region_at smem 0) in
  let entry := header_toc header item in
  if negb (ge_allocated m entry =? 0) then (- EEXIST, m)
  else
    let size := ALIGN size 8 in
    if header_available m header <? size then (- ENOMEM, m)
    else
      let m1 := cpu_to_le32 m (entry + 4) (header_free_offset m header) in
      let m2 := cpu_to_le32 m1 (entry + 8) size in
      (* wmb() *)
      let m3 := cpu_to_le32 m2 entry 1 in
      let m4 := le32_add_cpu m3 (header + 196) size in
      let m5 := le32_add_cpu m4 (header + 200) (- size) in
      (0, m5).

Fixpoint get_global_regions (rs : list smem_region) (m : mem)
         (entry aux : Z) : result (Z * Z) :=
  match rs with
  | [] => Err ENOENT
  | area :: rs' =>
      if (aux_base area =? aux) || (aux =? 0) then
        let e_size := ge_size m entry in
        let entry_offset := ge_offset m entry in
        if size area <? e_size + entry_offset then Err EINVAL
        else Ok (ptr_add (virt_base area) entry_offset, e_size)
      else get_global_regions rs' m entry aux
  end.

Definition qcom_smem_get_global (smem : qcom_smem) (item : Z) (m : mem)
  : result (Z * Z) :=
  let header := virt_base (region_at smem 0) in
  let entry := header_toc header item in
  if ge_allocated m entry =? 0 then Err ENXIO
  else
    let aux := Z.land (ge_aux_base m entry) AUX_BASE_MASK in
    get_global_regions (regions smem) m entry aux.

(** ** Partition table and header validation *)

Definition qcom_smem_get_ptable (smem : qcom_smem) (m : mem) : result Z :=
  let r := region_at smem 0 in
  let ptable := ptr_sub (ptr_add (virt_base r) (size r)) SZ_4K in
  if negb (magic_ok m ptable SMEM_PTABLE_MAGIC) then Err ENOENT
  else
    let version := ptable_version m ptable in
    if negb (version =? 1) then Err EINVAL
    else Ok ptable.

Definition qcom_smem_get_item_count (smem : qcom_smem) (m : mem) : Z :=
  match qcom_smem_get_ptable smem m with
  | Err _ => SMEM_ITEM_COUNT
  | Ok ptable =>
      let info := ptable_entry ptable (ptable_num_entries m ptable) in
      if negb (magic_ok m info SMEM_INFO_MAGIC) then SMEM_ITEM_COUNT
      else info_num_items m info
  end.

(** Returns the header's address, or [None] for the null pointer. *)
Definition qcom_smem_partition_header (smem : qcom_smem) (m : mem)
           (entry host0 host1 : Z) : option Z :=
  let header := ptr_add (virt_base (region_at smem 0)) (pte_offset m entry) in
  if negb (magic_ok m header SMEM_PART_MAGIC) then None
  else if negb (host0 =? phdr_host0 m header) then None
  else if negb (host1 =? phdr_host1 m header) then None
  else
    let size := phdr_size m header in
    if negb (size =? pte_size m entry) then None
    else if size <? phdr_offset_free_uncached m header then None
    else Some header.

Definition set_ptable_entry (smem : qcom_smem) (host entry : Z) : qcom_smem :=
  {| global_partition_entry := global_partition_entry smem;
     ptable_entries :=
       firstn (Z.to_nat host) (ptable_entries smem) ++ Some entry
       :: skipn (S (Z.to_nat host)) (ptable_entries smem);
     item_count := item_count smem;
     regions := regions smem |}.

(** The loop of [qcom_smem_enumerate_partitions] from index [i], with [n]
    entries left. *)
Fixpoint enumerate_from (n : nat) (m : mem) (ptable i local_host : Z)
         (smem : qcom_smem) : Z * qcom_smem :=
  match n with
  | O => (0, smem)
  | S n' =>
      let entry := ptable_entry ptable i in
      let continue := enumerate_from n' m ptable (i + 1) local_host in
      if pte_offset m entry =? 0 then continue smem
      else if pte_size m entry =? 0 then continue smem
      else
        let host0 := pte_host0 m entry in
        let host1 := pte_host1 m entry in
        if negb (host0 =? local_host) && negb (host1 =? local_host)
        then continue smem
        else
          let remote_host := if host0 =? local_host then host1 else host0 in
          if SMEM_HOST_COUNT <=? remote_host then (- EINVAL, smem)
          else
            match ptable_entries_at smem remote_host with
            | Some _ => (- EINVAL, smem)
            | None =>
                match qcom_smem_partition_header smem m entry host0 host1 with
                | None => (- EINVAL, smem)
                | Some _ => continue (set_ptable_entry smem remote_host entry)
                end
            end
  end.

Definition qcom_smem_enumerate_partitions (smem : qcom_smem) (m : mem)
           (local_host : Z) : Z * qcom_smem :=
  match qcom_smem_get_ptable smem m with
  | Err e => (- e, smem)
  | Ok ptable =>
      enumerate_from (Z.to_nat (ptable_num_entries m ptable)) m ptable 0
                     local_host smem
  end.

(** The search loop of [qcom_smem_set_global_partition]: the first entry
    from index [i] on with nonzero offset and size and both hosts equal to
    [SMEM_GLOBAL_HOST]. *)
Fixpoint find_global_entry (n : nat) (m : mem) (ptable i : Z) : option Z :=
  match n with
  | O => None
  | S n' =>
      let entry := ptable_entry ptable i in
      if pte_offset m entry =? 0 then find_global_entry n' m ptable (i + 1)
      else if pte_size m entry =? 0 then find_global_entry n' m ptable (i + 1)
      else if negb (pte_host0 m entry =? SMEM_GLOBAL_HOST)
      then find_global_entry n' m ptable (i + 1)
      else if pte_host1 m entry =? SMEM_GLOBAL_HOST then Some entry
      else find_global_entry n' m ptable (i + 1)
  end.

Definition qcom_smem_set_global_partition (smem : qcom_smem) (m : mem)
  : Z * qcom_smem :=
  match global_partition_entry smem with
  | Some _ => (- EINVAL, smem)
  | None =>
      match qcom_smem_get_ptable smem m with
      | Err e => (- e, smem)
      | Ok ptable =>
          match find_global_entry (Z.to_nat (ptable_num_entries m ptable))
                                  m ptable 0 with
          | None => (- EINVAL, smem)
          | Some entry =>
              match qcom_smem_partition_header smem m entry SMEM_GLOBAL_HOST
                                               SMEM_GLOBAL_HOST with
              | None => (- EINVAL, smem)
              | Some _ =>
                  (0, {| global_partition_entry := Some entry;
                         ptable_entries := ptable_entries smem;
                         item_count := item_count smem;
                         regions := regions smem |})
              end
          end
      end
  end.

(** ** The public entry points

    The driver keeps one handle, [__smem], and serialises its accesses to
    the shared memory with a hardware spinlock that remote processors take
    as well.  A [world] holds the handle, the shared memory, the state of
    that lock and the chronological record of what an operation did with
    the lock and the shared memory. *)

Inductive lock_state : Type :=
| LockFree      (* nobody holds the lock *)
| LockLocal     (* this processor holds it *)
| LockRemote.   (* a remote processor holds it for longer than the timeout *)

Inductive event : Type :=
| EvAcquire     (* hwspin_lock_timeout_irqsave succeeded *)
| EvRelease     (* hwspin_unlock_irqrestore *)
| EvAccess.     (* the shared memory was read or written *)

Record world := {
  __smem : option qcom_smem;
  shared : mem;
  hwlock : lock_state;
  trace : list event
}.

Definition M (A : Type) : Type := world -> A * world.

Definition ret {A : Type} (a : A) : M A := fun w => (a, w).

Definition bind {A B : Type} (c : M A) (k : A -> M B) : M B :=
  fun w => let (a, w') := c w in k a w'.

Notation "x <- c ;; k" := (bind c (fun x => k))
  (at level 61, c at next level, right associativity).
Notation "c ;;; k" := (bind c (fun _ => k))
  (at level 61, right associativity).

Definition log (ev : event) (w : world) : world :=
  {| __smem := __smem w; shared := shared w; hwlock := hwlock w;
     trace := trace w ++ [ev] |}.

Definition hwspin_lock_timeout_irqsave : M Z :=
  fun w =>
    match hwlock w with
    | LockFree =>
        (0, log EvAcquire {| __smem := __smem w; shared := shared w;
                             hwlock := LockLocal; trace := trace w |})
    | _ => (- ETIMEDOUT, w)
    end.

Definition hwspin_unlock_irqrestore : M unit :=
  fun w =>
    (tt, log EvRelease {| __smem := __smem w; shared := shared w;
                          hwlock := LockFree; trace := trace w |}).

(** An operation that reads and writes the shared memory. *)
Definition smem_rw {A : Type} (f : mem -> A * mem) : M A :=
  fun w =>
    let (a, m') := f (shared w) in
    (a, log EvAccess {| __smem := __smem w; shared := m';
                        hwlock := hwlock w; trace := trace w |}).

(** An operation that only reads it. *)
Definition smem_ro {A : Type} (f : mem -> A) : M A :=
  smem_rw (fun m => (f m, m)).

(** The partition a host is routed to: its own, else the global one. *)
Definition routed_entry (smem : qcom_smem) (host : Z) : option Z :=
  if host <? SMEM_HOST_COUNT then
    match ptable_entries_at smem host with
    | Some entry => Some entry
    | None => global_partition_entry smem
    end
  else global_partition_entry smem.

Definition qcom_smem_alloc (host item size : Z) : M Z :=
  fun w =>
    match __smem w with
    | None => (- EPROBE_DEFER, w)
    | Some smem =>
        if item <? SMEM_ITEM_LAST_FIXED then (- EINVAL, w)
        else if item_count smem <=? item then (- EINVAL, w)
        else
          (r <- hwspin_lock_timeout_irqsave ;;
           if negb (r =? 0) then ret r
           else
             r <- match routed_entry smem host with
                  | Some entry =>
                      smem_rw (qcom_smem_alloc_private smem entry item size)
                  | None => smem_rw (qcom_smem_alloc_global smem item size)
                  end ;;
             hwspin_unlock_irqrestore ;;;
             ret r) w
    end.

Definition qcom_smem_get (host item : Z) : M (result (Z * Z)) :=
  fun w =>
    match __smem w with
    | None => (Err EPROBE_DEFER, w)
    | Some smem =>
        if item_count smem <=? item then (Err EINVAL, w)
        else
          (r <- hwspin_lock_timeout_irqsave ;;
           if negb (r =? 0) then ret (Err (- r))
           else
             p <- match routed_entry smem host with
                  | Some entry =>
                      smem_ro (qcom_smem_get_private smem entry item)
                  | None => smem_ro (qcom_smem_get_global smem item)
                  end ;;
             hwspin_unlock_irqrestore ;;;
             ret p) w
    end.

(** An [unsigned] returned as [int]. *)
Definition int_of_unsigned (x : Z) : Z :=
  if x <? 2147483648 then x else x - two32.

Definition free_space_private (entry : Z) (smem : qcom_smem) (m : mem) : Z :=
  let phdr := ptable_entry_to_phdr smem m entry in
  let r := u32 (phdr_offset_free_cached m phdr
                - phdr_offset_free_uncached m phdr) in
  if pte_size m entry <? r then - EINVAL else int_of_unsigned r.

Definition free_space_global (smem : qcom_smem) (m : mem) : Z :=
  let header := virt_base (region_at smem 0) in
  let r := header_available m header in
  if size (region_at smem 0) <? r then - EINVAL else int_of_unsigned r.

Definition qcom_smem_get_free_space (host : Z) : M Z :=
  fun w =>
    match __smem w with
    | None => (- EPROBE_DEFER, w)
    | Some smem =>
        match routed_entry smem host with
        | Some entry => smem_ro (free_space_private entry smem) w
        | None => smem_ro (free_space_global smem) w
        end
    end.

Fixpoint virt_to_phys_regions (rs : list smem_region) (p : Z) : Z :=
  match rs with
  | [] => 0
  | region :: rs' =>
      if p <? virt_base region then virt_to_phys_regions rs' p
      else if p <? ptr_add (virt_base region) (size region)
      then
        let offset := p - virt_base region in   (* u64, p >= virt_base *)
        size_t (aux_base region + offset)       (* phys_addr_t *)
      else virt_to_phys_regions rs' p
  end.

Definition qcom_smem_virt_to_phys (smem : qcom_smem) (p : Z) : Z :=
  virt_to_phys_regions (regions smem) p.

(** ** Probe and remove

    The device tree, the allocator and the hwspinlock core are outside the
    driver: a [platform] records what their calls return.  The socinfo
    child device that the probe registers last has no part in the heap
    and is left out. *)

(** What the device tree and the mapping give for one memory node. *)
Record of_region := {
  of_parse_phandle : bool;        (* the node is there *)
  of_address_to_resource : Z;     (* its return value *)
  r_start : Z;                    (* the resource, when it returned 0 *)
  r_end : Z;
  devm_ioremap_wc : Z             (* the mapped address, 0 for NULL *)
}.

Record platform := {
  of_rpm_msg_ram : bool;          (* the node has "qcom,rpm-msg-ram" *)
  kzalloc : bool;                 (* the handle could be allocated *)
  memory_region : of_region;
  rpm_msg_ram : of_region;
  of_hwspin_lock_get_id : Z;
  hwspin_lock_request_specific : bool   (* the lock handle is not NULL *)
}.

Definition zero_region : smem_region :=
  {| aux_base := 0; virt_base := 0; size := 0 |}.

Definition set_region (smem : qcom_smem) (i : nat) (r : smem_region)
  : qcom_smem :=
  {| global_partition_entry := global_partition_entry smem;
     ptable_entries := ptable_entries smem;
     item_count := item_count smem;
     regions := firstn i (regions smem) ++ r :: skipn (S i) (regions smem) |}.

Definition set_item_count (smem : qcom_smem) (n : Z) : qcom_smem :=
  {| global_partition_entry := global_partition_entry smem;
     ptable_entries := ptable_entries smem;
     item_count := n;
     regions := regions smem |}.

Definition qcom_smem_map_memory (smem : qcom_smem) (np : of_region) (i : nat)
  : Z * qcom_smem :=
  if negb (of_parse_phandle np) then (- EINVAL, smem)
  else
    let rc := of_address_to_resource np in
    if negb (rc =? 0) then (rc, smem)
    else
      let sz := size_t (r_end np - r_start np + 1) in  (* resource_size *)
      let old := nth i (regions smem) zero_region in
      let smem1 :=
        set_region smem i {| aux_base := aux_base old;
                             virt_base := devm_ioremap_wc np;
                             size := size old |} in
      if devm_ioremap_wc np =? 0 then (- ENOMEM, smem1)
      else
        (0, set_region smem i {| aux_base := u32 (r_start np);
                                 virt_base := devm_ioremap_wc np;
                                 size := sz |}).

(** Returns an [int]. *)
Definition qcom_smem_get_sbl_version (smem : qcom_smem) (m : mem) : Z :=
  let header := virt_base (region_at smem 0) in
  int_of_unsigned (header_version m header SMEM_MASTER_SBL_VERSION_INDEX).

(** The part of the probe that allocates the handle and maps the
    regions. *)
Definition probe_map (pf : platform) : Z * qcom_smem :=
  let num_regions := if of_rpm_msg_ram pf then 2%nat else 1%nat in
  let smem := {| global_partition_entry := None;
                 ptable_entries := repeat None (Z.to_nat SMEM_HOST_COUNT);
                 item_count := 0;
                 regions := repeat zero_region num_regions |} in
  if negb (kzalloc pf) then (- ENOMEM, smem)
  else
    let (rc, smem) := qcom_smem_map_memory smem (memory_region pf) 0 in
    if negb (rc =? 0) then (rc, smem)
    else if of_rpm_msg_ram pf
    then qcom_smem_map_memory smem (rpm_msg_ram pf) 1
    else (0, smem).

(** The part that reads the shared memory: the header check, the version
    switch and the enumeration; a result below zero is a failure. *)
Definition probe_heap (smem : qcom_smem) (m : mem) : Z * qcom_smem :=
  let header := virt_base (region_at smem 0) in
  if negb (header_initialized m header =? 1)
     || negb (header_reserved m header =? 0)
  then (- EINVAL, smem)
  else
    let version := u32 (qcom_smem_get_sbl_version smem m) in
    let after_switch :=
      if Z.shiftr version 16 =? SMEM_GLOBAL_PART_VERSION then
        let (rc, smem) := qcom_smem_set_global_partition smem m in
        if rc <? 0 then (rc, smem)
        else (0, set_item_count smem (qcom_smem_get_item_count smem m))
      else if Z.shiftr version 16 =? SMEM_GLOBAL_HEAP_VERSION then
        (0, set_item_count smem SMEM_ITEM_COUNT)
      else (- EINVAL, smem) in
    let (rc, smem) := after_switch in
    if rc <? 0 then (rc, smem)
    else
      let (rc, smem') :=
        qcom_smem_enumerate_partitions smem m SMEM_HOST_APPS in
      if (rc <? 0) && negb (rc =? - ENOENT) then (rc, smem')
      else (0, smem').

(** The part that obtains the hardware lock. *)
Definition probe_lock (pf : platform) : Z :=
  let hwlock_id := of_hwspin_lock_get_id pf in
  if hwlock_id <? 0 then hwlock_id
  else if negb (hwspin_lock_request_specific pf) then - ENXIO
  else 0.

Definition install (smem : option qcom_smem) : M unit :=
  fun w => (tt, {| __smem := smem; shared := shared w; hwlock := hwlock w;
                   trace := trace w |}).

Definition qcom_smem_probe (pf : platform) : M Z :=
  let (rc, smem) := probe_map pf in
  if negb (rc =? 0) then ret rc
  else
    r <- smem_ro (probe_heap smem) ;;
    let (rc, smem) := r : Z * qcom_smem in
    if negb (rc =? 0) then ret rc
    else
      let rc := probe_lock pf in
      if negb (rc =? 0) then ret rc
      else install (Some smem) ;;; ret 0.

(** [None] stands for the dereference of a null [__smem]. *)
Definition qcom_smem_remove : M (option Z) :=
  fun w =>
    match __smem w with
    | None => (None, w)
    | Some _ => (_ <- install None ;; ret (Some 0)) w
    end.

(** ** Vocabulary of the properties *)

(** [m'] has the bytes of [m] on the addresses [lo .. hi - 1]. *)
Definition same_on (lo hi : Z) (m m' : mem) : Prop :=
  forall x, lo <= x < hi -> m' x = m x.

(** A well-placed partition: what every mapping of the driver satisfies
    and the operations rely on without checking.  The primary region is
    mapped below the addresses that encode errors, the partition lies
    inside the region and holds at least its header, and its table entry
    lies outside the partition. *)
Definition partition_okb (smem : qcom_smem) (m : mem) (entry : Z) : bool :=
  let r := region_at smem 0 in
  let phdr := virt_base r + pte_offset m entry in
  (0 <=? virt_base r)
  && (virt_base r + size r + MAX_ERRNO <=? two64)
  && (pte_offset m entry + pte_size m entry <=? size r)
  && (0 <=? entry) && (entry + SIZEOF_PTABLE_ENTRY <=? two64)
  && ((entry + SIZEOF_PTABLE_ENTRY <=? phdr)
      || (phdr + pte_size m entry <=? entry))
  && (SIZEOF_PARTITION_HEADER <=? pte_size m entry).

(** The state a successful allocation of [size] bytes for [item] leaves:
    a fresh entry at [hdr], the forward free offset advanced by the header
    plus the rounded size, and every other byte as before. *)
Definition allocated_entry (m m' : mem) (phdr hdr item size : Z) : Prop :=
  pe_canary m' hdr = SMEM_PRIVATE_CANARY
  /\ pe_item m' hdr = u16 item
  /\ pe_size m' hdr = round_up8 size
  /\ pe_padding_data m' hdr = round_up8 size - size
  /\ pe_padding_hdr m' hdr = 0
  /\ phdr_offset_free_uncached m' phdr
     = phdr_offset_free_uncached m phdr + (SIZEOF_PRIVATE_ENTRY + round_up8 size)
  /\ (forall x, ~ (hdr <= x < hdr + 12) -> ~ (phdr + 12 <= x < phdr + 16) ->
                m' x = m x).

(** The world after a critical section that left the memory [m] and
    recorded the events [evs]. *)
Definition with_shared (w : world) (m : mem) (evs : list event) : world :=
  {| __smem := __smem w; shared := m; hwlock := LockFree;
     trace := trace w ++ evs |}.

(** The four bytes at [a]. *)
Definition magic_at (m : mem) (a : Z) : list Z :=
  [read8 m a; read8 m (a + 1); read8 m (a + 2); read8 m (a + 3)].

(** A record of events keeps the lock discipline when every access to the
    shared memory falls between an acquisition and the release after
    it.  [held] tells whether the lock is held where the record starts. *)
Fixpoint disciplined (held : bool) (evs : list event) : bool :=
  match evs with
  | [] => true
  | EvAcquire :: evs' => disciplined true evs'
  | EvRelease :: evs' => disciplined false evs'
  | EvAccess :: evs' => held && disciplined held evs'
  end.

(** [uncached_visit m item end_ hdr e]: the forward loop started at
    [hdr] examines the entry at [e]: every entry before it was inside
    the boundary, had a sound canary and another item, and led strictly
    forward. *)
Inductive uncached_visit (m : mem) (item end_ : Z) : Z -> Z -> Prop :=
| uv_here (e : Z) :
    e < end_ -> ptr_add e SIZEOF_PRIVATE_ENTRY < end_ ->
    uncached_visit m item end_ e e
| uv_next (hdr e : Z) :
    hdr < end_ -> ptr_add hdr SIZEOF_PRIVATE_ENTRY < end_ ->
    pe_canary m hdr = SMEM_PRIVATE_CANARY ->
    pe_item m hdr <> item ->
    hdr < uncached_entry_next m hdr ->
    uncached_visit m item end_ (uncached_entry_next m hdr) e ->
    uncached_visit m item end_ hdr e.

(** The same for the backward loop. *)
Inductive cached_visit (m : mem) (item cacheline cached_end : Z)
  : Z -> Z -> Prop :=
| cv_here (e : Z) :
    cached_end < e -> cached_visit m item cacheline cached_end e e
| cv_next (e0 e : Z) :
    cached_end < e0 ->
    pe_canary m e0 = SMEM_PRIVATE_CANARY ->
    pe_item m e0 <> item ->
    cached_entry_next m e0 cacheline < e0 ->
    cached_visit m item cacheline cached_end
                 (cached_entry_next m e0 cacheline) e ->
    cached_visit m item cacheline cached_end e0 e.

(** The header of the partition of [entry] agrees with the table entry
    in magic, host pair and size, and its forward free offset is within
    the size: what [qcom_smem_partition_header] accepts. *)
Definition header_agrees (smem : qcom_smem) (m : mem) (entry : Z) : Prop :=
  let header := ptable_entry_to_phdr smem m entry in
  magic_at m header = SMEM_PART_MAGIC
  /\ phdr_host0 m header = pte_host0 m entry
  /\ phdr_host1 m header = pte_host1 m entry
  /\ phdr_size m header = pte_size m entry
  /\ phdr_offset_free_uncached m header <= phdr_size m header.

(** The host at the other end of a table entry, seen from [local_host]. *)
Definition remote_host_of (m : mem) (local_host entry : Z) : Z :=
  if pte_host0 m entry =? local_host then pte_host1 m entry
  else pte_host0 m entry.

(** A table entry in use that names [local_host]. *)
Definition entry_involves (m : mem) (local_host entry : Z) : Prop :=
  pte_offset m entry <> 0 /\ pte_size m entry <> 0
  /\ (pte_host0 m entry = local_host \/ pte_host1 m entry = local_host).

(** A table entry in use for the global partition. *)
Definition entry_is_global (m : mem) (entry : Z) : Prop :=
  pte_offset m entry <> 0 /\ pte_size m entry <> 0
  /\ pte_host0 m entry = SMEM_GLOBAL_HOST
  /\ pte_host1 m entry = SMEM_GLOBAL_HOST.

(** What a run of the enumeration over the table entries [lo .. hi - 1]
    that ends without an error does to the handle: only the slots of the
    remote hosts change; a slot that was filled keeps its entry; a slot
    that was empty and is filled holds one of these table entries, in use,
    naming the local host and the slot's host, with a header that agrees
    with it; and every such table entry is in the slot of its remote
    host. *)
Definition enumerated (m : mem) (ptable local_host lo hi : Z)
           (smem smem' : qcom_smem) : Prop :=
  regions smem' = regions smem
  /\ item_count smem' = item_count smem
  /\ global_partition_entry smem' = global_partition_entry smem
  /\ length (ptable_entries smem') = length (ptable_entries smem)
  /\ (forall h e, 0 <= h -> ptable_entries_at smem h = Some e ->
                  ptable_entries_at smem' h = Some e)
  /\ (forall h e, 0 <= h -> ptable_entries_at smem h = None ->
                  ptable_entries_at smem' h = Some e ->
                  exists k, lo <= k < hi
                            /\ e = ptable_entry ptable k
                            /\ entry_involves m local_host e
                            /\ remote_host_of m local_host e = h
                            /\ h < SMEM_HOST_COUNT
                            /\ header_agrees smem m e)
  /\ (forall k, lo <= k < hi ->
                entry_involves m local_host (ptable_entry ptable k) ->
                ptable_entries_at
                  smem' (remote_host_of m local_host (ptable_entry ptable k))
                = Some (ptable_entry ptable k)).

(** What the probe establishes about the handle it installs, read
    against the shared memory [m]: the boot loader's header is marked
    initialized; its version is 11, with no global partition and 512
    items, or 12, with a global partition whose table entry is in use
    for hosts 0xfffe:0xfffe and agrees with its header, and the item
    count of the table's info block; the item count fits 16 bits; and
    each of the 13 slots is empty or holds a table entry in use between
    the application processor and the slot's host, whose header agrees
    with it. *)
Definition probed_handle (m : mem) (smem : qcom_smem) : Prop :=
  let header := virt_base (region_at smem 0) in
  let major :=
    Z.shiftr (header_version m header SMEM_MASTER_SBL_VERSION_INDEX) 16 in
  header_initialized m header = 1 /\ header_reserved m header = 0
  /\ ((major = SMEM_GLOBAL_HEAP_VERSION
       /\ global_partition_entry smem = None
       /\ item_count smem = SMEM_ITEM_COUNT)
      \/ (major = SMEM_GLOBAL_PART_VERSION
          /\ item_count smem = qcom_smem_get_item_count smem m
          /\ exists e, global_partition_entry smem = Some e
                       /\ entry_is_global m e /\ header_agrees smem m e))
  /\ 0 <= item_count smem < two16
  /\ length (ptable_entries smem) = 13%nat
  /\ forall h e, 0 <= h -> ptable_entries_at smem h = Some e ->
       h < SMEM_HOST_COUNT
       /\ entry_involves m SMEM_HOST_APPS e
       /\ remote_host_of m SMEM_HOST_APPS e = h
       /\ header_agrees smem m e.

(** ** A concrete system

    One region of 1 MiB mapped at [ex_base]; the partition table in its
    last 4 KiB with one entry, for hosts 0 and 5: a partition of 256
    bytes at offset 4096, with 32-byte cache lines. *)

Definition ex_base : Z := 1073741824.

Definition ex_table : Z := ex_base + 1048576 - 4096.

Definition ex_entry : Z := ex_table + 32.

Definition ex_phdr : Z := ex_base + 4096.

Definition ex_tables : mem :=
  poke (poke zero_mem ex_table
             (SMEM_PTABLE_MAGIC ++ le32_bytes 1 ++ le32_bytes 1))
       ex_entry
       (le32_bytes 4096 ++ le32_bytes 256 ++ le32_bytes 0
        ++ le16_bytes 0 ++ le16_bytes 5 ++ le32_bytes 32).

(** A partition header with the given free offsets. *)
Definition ex_header (m : mem) (uncached cached : Z) : mem :=
  poke m ex_phdr
       (SMEM_PART_MAGIC ++ le16_bytes 0 ++ le16_bytes 5 ++ le32_bytes 256
        ++ le32_bytes uncached ++ le32_bytes cached).

(** An item entry at offset [off] of the partition. *)
Definition ex_item (m : mem) (off canary item sz pad : Z) : mem :=
  poke m (ex_phdr + off)
       (le16_bytes canary ++ le16_bytes item ++ le32_bytes sz
        ++ le16_bytes pad ++ le16_bytes 0).

(** The empty partition. *)
Definition ex_mem : mem := ex_header ex_tables 32 256.

Definition ex_smem : qcom_smem :=
  {| global_partition_entry := None;
     ptable_entries :=
       [None; None; None; None; None; Some ex_entry; None; None; None;
        None; None; None; None];
     item_count := SMEM_ITEM_COUNT;
     regions := [ {| aux_base := 2248146944; virt_base := ex_base;
                     size := 1048576 |} ] |}.

Definition ex_world_of (m : mem) : world :=
  {| __smem := Some ex_smem; shared := m; hwlock := LockFree; trace := [] |}.

Definition ex_world : world := ex_world_of ex_mem.

(** Item 3, placed first in the partition by the boot loader. *)
Definition ex_mem_boot : mem :=
  ex_item (ex_header ex_tables 64 256) 32 SMEM_PRIVATE_CANARY 3 16 0.

(** Item 10 placed by a peer in the backward (cached) region, 184 bytes
    left between the two free offsets. *)
Definition ex_mem_cached : mem :=
  ex_item (ex_header ex_tables 32 216) 224 SMEM_PRIVATE_CANARY 10 8 0.

(** A system without partitions: the legacy global heap only. *)
Definition ex_smem_legacy : qcom_smem :=
  {| global_partition_entry := None;
     ptable_entries := repeat None 13;
     item_count := SMEM_ITEM_COUNT;
     regions := regions ex_smem |}.

Definition ex_world_legacy : world :=
  {| __smem := Some ex_smem_legacy;
     shared := poke zero_mem (ex_base + 196)
                    (le32_bytes 8400 ++ le32_bytes 100000);
     hwlock := LockFree; trace := [] |}.

(** A partition whose forward free offset, 40, is not where its (empty)
    list ends, 32, with 16 bytes between the two free offsets. *)
Definition ex_mem_gap : mem := ex_header ex_tables 40 56.

(** A header the validator rejects on all three counts: no magic, hosts
    9 and 9, size 1. *)
Definition ex_mem_badhdr : mem :=
  poke ex_mem ex_phdr [0; 0; 0; 0; 9; 0; 9; 0; 1; 0; 0; 0].

(** A forward list with item 9 followed by an entry with a broken
    canary that carries item 10, and a backward list of the same shape. *)
Definition ex_mem_fwd_corrupt : mem :=
  ex_item (ex_item (ex_header ex_tables 80 256) 32 SMEM_PRIVATE_CANARY 9 8 0)
          56 42404 10 8 0.

Definition ex_mem_bwd_corrupt : mem :=
  ex_item (ex_item (ex_header ex_tables 32 176) 224 SMEM_PRIVATE_CANARY 9 8 0)
          184 42404 10 8 0.

(** A system of version 12: the table has the entry for hosts 0 and 5, an
    entry for the global partition (512 bytes at offset 8192) and an info
    block announcing 1024 items; the boot loader marked the heap
    initialized. *)
Definition ex_global_entry : Z := ex_table + 80.

Definition ex_boot_header (m : mem) (version : Z) : mem :=
  poke (poke m (ex_base + 92) (le32_bytes (version * 65536)))
       (ex_base + 192) (le32_bytes 1).

Definition ex_mem_v12 : mem :=
  poke (poke (poke (poke (ex_boot_header ex_mem 12)
                         (ex_table + 8) (le32_bytes 2))
                   ex_global_entry
                   (le32_bytes 8192 ++ le32_bytes 512 ++ le32_bytes 0
                    ++ le16_bytes 65534 ++ le16_bytes 65534 ++ le32_bytes 32))
             (ex_table + 128)
             (SMEM_INFO_MAGIC ++ le32_bytes 0 ++ le32_bytes 0 ++ le32_bytes 0
              ++ le16_bytes 1024))
       (ex_base + 8192)
       (SMEM_PART_MAGIC ++ le16_bytes 65534 ++ le16_bytes 65534
        ++ le32_bytes 512 ++ le32_bytes 32 ++ le32_bytes 512).

Definition ex_smem_v12 : qcom_smem :=
  {| global_partition_entry := Some ex_global_entry;
     ptable_entries := ptable_entries ex_smem;
     item_count := 1024;
     regions := regions ex_smem |}.

(** A system of version 11 without a partition table. *)
Definition ex_mem_v11 : mem :=
  ex_boot_header (shared ex_world_legacy) 11.

Definition ex_platform : platform :=
  {| of_rpm_msg_ram := false;
     kzalloc := true;
     memory_region :=
       {| of_parse_phandle := true; of_address_to_resource := 0;
          r_start := 2248146944; r_end := 2248146944 + 1048576 - 1;
          devm_ioremap_wc := ex_base |};
     rpm_msg_ram :=
       {| of_parse_phandle := false; of_address_to_resource := 0;
          r_start := 0; r_end := 0; devm_ioremap_wc := 0 |};
     of_hwspin_lock_get_id := 3;
     hwspin_lock_request_specific := true |}.

Definition ex_world_unprobed (m : mem) : world :=
  {| __smem := None; shared := m; hwlock := LockFree; trace := [] |}.

(** * Properties *)

(** ** Machine arithmetic *)

Ltac consts :=
  unfold SIZEOF_PRIVATE_ENTRY, SIZEOF_PARTITION_HEADER, SIZEOF_PTABLE_ENTRY,
    SMEM_PRIVATE_CANARY, SMEM_ITEM_LAST_FIXED, SMEM_ITEM_COUNT,
    SMEM_HOST_COUNT, SZ_4K, MAX_ERRNO,
    EINVAL, EEXIST, ENOSPC, ENOENT, ENOMEM, ENXIO, ETIMEDOUT, EPROBE_DEFER
    in *.

(** Linear arithmetic with the divisions and remainders by constants
    turned into their defining equations. *)
Ltac mlia :=
  consts; unfold ptr_add, ptr_sub, size_t, u32, u16 in *;
  Z.div_mod_to_equations; lia.

(** Closed facts about the concrete system, by evaluation. *)
Ltac by_computation :=
  vm_compute; repeat split; first [reflexivity | discriminate].

Lemma land_clear3 (y : Z) :
  0 <= y < two64 -> Z.land y (two64 - 8) = 8 * (y / 8).
Proof.
  intros Hy.
  change (two64 - 8) with (Z.land (Z.ones 64) (Z.lnot (Z.ones 3))).
  rewrite Z.land_assoc, Z.land_ones by lia.
  change (2 ^ 64) with two64.
  rewrite Z.mod_small by lia.
  rewrite <- Z.ldiff_land, Z.ldiff_ones_r by lia.
  rewrite Z.shiftr_div_pow2, Z.shiftl_mul_pow2 by lia.
  change (2 ^ 3) with 8. lia.
Qed.

Lemma ALIGN_8 (x : Z) : ALIGN x 8 = 8 * (size_t (x + 7) / 8).
Proof.
  unfold ALIGN, size_t.
  change ((8 - 1) mod two64) with 7.
  change (two64 - 1 - 7) with (two64 - 8).
  apply land_clear3. apply Z.mod_pos_bound. lia.
Qed.

Lemma ALIGN_8_round_up (x : Z) :
  0 <= x -> x + 7 < two64 -> ALIGN x 8 = round_up8 x.
Proof.
  intros H0 H1. rewrite ALIGN_8. unfold round_up8, size_t.
  rewrite Z.mod_small by lia. reflexivity.
Qed.

Lemma round_up8_bounds (x : Z) : x <= round_up8 x < x + 8.
Proof. unfold round_up8. Z.div_mod_to_equations. lia. Qed.

Lemma round_up8_pos (x : Z) : 0 < x -> 8 <= round_up8 x.
Proof. unfold round_up8. intros. Z.div_mod_to_equations. lia. Qed.

Lemma ptr_add_small (p n : Z) :
  0 <= p + n < two64 -> ptr_add p n = p + n.
Proof. intros. unfold ptr_add. apply Z.mod_small. assumption. Qed.

Lemma ptr_add_range (p n : Z) : 0 <= ptr_add p n < two64.
Proof. unfold ptr_add. apply Z.mod_pos_bound. lia. Qed.

Lemma ptr_sub_range (p n : Z) : 0 <= ptr_sub p n < two64.
Proof. unfold ptr_sub. apply Z.mod_pos_bound. lia. Qed.

(** ** Reading and writing bytes *)

Lemma read8_range (m : mem) (a : Z) : 0 <= read8 m a < 256.
Proof. unfold read8. apply Z.mod_pos_bound. lia. Qed.

Lemma le16_range (m : mem) (a : Z) : 0 <= le16_to_cpu m a < two16.
Proof.
  unfold le16_to_cpu.
  pose proof (read8_range m a). pose proof (read8_range m (a + 1)). lia.
Qed.

Lemma le32_range (m : mem) (a : Z) : 0 <= le32_to_cpu m a < two32.
Proof.
  unfold le32_to_cpu.
  pose proof (read8_range m a). pose proof (read8_range m (a + 1)).
  pose proof (read8_range m (a + 2)). pose proof (read8_range m (a + 3)).
  lia.
Qed.

Lemma read8_write8 (m : mem) (a v b : Z) :
  read8 (write8 m a v) b =
  if b mod two64 =? a mod two64 then v mod 256 else read8 m b.
Proof.
  unfold read8, write8.
  destruct (b mod two64 =? a mod two64); [apply Z.mod_mod; lia | reflexivity].
Qed.

Lemma same_on_refl lo hi m : same_on lo hi m m.
Proof. intros x _. reflexivity. Qed.

Lemma same_on_trans lo hi m1 m2 m3 :
  same_on lo hi m1 m2 -> same_on lo hi m2 m3 -> same_on lo hi m1 m3.
Proof. intros H12 H23 x Hx. rewrite (H23 x Hx). apply H12, Hx. Qed.

Lemma same_on_sym lo hi m1 m2 : same_on lo hi m1 m2 -> same_on lo hi m2 m1.
Proof. intros H x Hx. symmetry. apply H, Hx. Qed.

Lemma same_on_sub lo hi lo' hi' m m' :
  same_on lo hi m m' -> lo <= lo' -> hi' <= hi -> same_on lo' hi' m m'.
Proof. intros H Hl Hh x Hx. apply H. lia. Qed.

Lemma same_on_write8 lo hi m a v :
  0 <= a < two64 -> a < lo \/ hi <= a -> same_on lo hi m (write8 m a v).
Proof.
  intros Ha Hout x Hx. unfold write8.
  rewrite (Z.mod_small a) by lia.
  destruct (Z.eqb_spec x a); [lia | reflexivity].
Qed.

Lemma same_on_le16 lo hi m a v :
  0 <= a -> a + 2 <= two64 -> a + 2 <= lo \/ hi <= a ->
  same_on lo hi m (cpu_to_le16 m a v).
Proof.
  intros. unfold cpu_to_le16.
  eapply same_on_trans; apply same_on_write8; lia.
Qed.

Lemma same_on_le32 lo hi m a v :
  0 <= a -> a + 4 <= two64 -> a + 4 <= lo \/ hi <= a ->
  same_on lo hi m (cpu_to_le32 m a v).
Proof.
  intros. unfold cpu_to_le32.
  eapply same_on_trans; [| apply same_on_write8; lia].
  eapply same_on_trans; [| apply same_on_write8; lia].
  eapply same_on_trans; apply same_on_write8; lia.
Qed.

Lemma same_on_read8 lo hi m m' a :
  same_on lo hi m m' -> 0 <= lo -> hi <= two64 -> lo <= a < hi ->
  read8 m' a = read8 m a.
Proof.
  intros H Hlo Hhi Ha. unfold read8.
  rewrite (Z.mod_small a) by lia. rewrite (H a) by lia. reflexivity.
Qed.

Lemma same_on_read16 lo hi m m' a :
  same_on lo hi m m' -> 0 <= lo -> hi <= two64 -> lo <= a -> a + 2 <= hi ->
  le16_to_cpu m' a = le16_to_cpu m a.
Proof.
  intros H Hlo Hhi Ha Hb. unfold le16_to_cpu.
  rewrite !(same_on_read8 lo hi m m') by (assumption || lia). reflexivity.
Qed.

Lemma same_on_read32 lo hi m m' a :
  same_on lo hi m m' -> 0 <= lo -> hi <= two64 -> lo <= a -> a + 4 <= hi ->
  le32_to_cpu m' a = le32_to_cpu m a.
Proof.
  intros H Hlo Hhi Ha Hb. unfold le32_to_cpu.
  rewrite !(same_on_read8 lo hi m m') by (assumption || lia). reflexivity.
Qed.

Lemma le16_written (m : mem) (a v : Z) :
  0 <= a -> a + 2 <= two64 -> le16_to_cpu (cpu_to_le16 m a v) a = u16 v.
Proof.
  intros H0 H1. unfold le16_to_cpu, cpu_to_le16, u16.
  rewrite !read8_write8.
  rewrite !Z.mod_small with (b := two64) by lia.
  repeat match goal with
         | |- context [?x =? ?y] => destruct (Z.eqb_spec x y); try lia
         end.
  Z.div_mod_to_equations. lia.
Qed.

Lemma le32_written (m : mem) (a v : Z) :
  0 <= a -> a + 4 <= two64 -> le32_to_cpu (cpu_to_le32 m a v) a = u32 v.
Proof.
  intros H0 H1. unfold le32_to_cpu, cpu_to_le32, u32.
  rewrite !read8_write8.
  rewrite !Z.mod_small with (b := two64) by lia.
  repeat match goal with
         | |- context [?x =? ?y] => destruct (Z.eqb_spec x y); try lia
         end.
  Z.div_mod_to_equations. lia.
Qed.

(** ** The walks: fuel and loop equations *)

Lemma walk_uncached_more (m : mem) (item end_ : Z) :
  forall (f1 f2 : nat) (hdr : Z),
    (Z.to_nat (end_ - hdr) <= f1)%nat ->
    (Z.to_nat (end_ - hdr) <= f2)%nat ->
    walk_uncached f1 m item hdr end_ = walk_uncached f2 m item hdr end_.
Proof.
  induction f1 as [|f1 IH]; intros f2 hdr H1 H2.
  - destruct f2 as [|f2]; [reflexivity|]. simpl.
    destruct (Z.ltb_spec hdr end_); [lia | reflexivity].
  - destruct f2 as [|f2]; simpl.
    + destruct (Z.ltb_spec hdr end_); [lia | reflexivity].
    + destruct (Z.ltb_spec hdr end_); [|reflexivity].
      destruct (ptr_add hdr SIZEOF_PRIVATE_ENTRY <? end_); [|reflexivity].
      simpl.
      destruct (negb (pe_canary m hdr =? SMEM_PRIVATE_CANARY)); [reflexivity|].
      destruct (pe_item m hdr =? item); [reflexivity|].
      destruct (Z.leb_spec (uncached_entry_next m hdr) hdr); [reflexivity|].
      apply IH; lia.
Qed.

(** The fuel never runs out: any larger amount gives the same walk. *)
Lemma walk_uncached_fuel (m : mem) (item hdr end_ : Z) (fuel : nat) :
  (Z.to_nat (end_ - hdr) <= fuel)%nat ->
  walk_uncached fuel m item hdr end_ = uncached_walk m item hdr end_.
Proof.
  intros H. unfold uncached_walk. apply walk_uncached_more; lia.
Qed.

(** The forward loop, one iteration at a time. *)
Lemma uncached_walk_eq (m : mem) (item hdr end_ : Z) :
  uncached_walk m item hdr end_ =
  if (hdr <? end_) && (ptr_add hdr SIZEOF_PRIVATE_ENTRY <? end_) then
    if negb (pe_canary m hdr =? SMEM_PRIVATE_CANARY) then WCorrupt
    else if pe_item m hdr =? item then WFound hdr
    else if uncached_entry_next m hdr <=? hdr then WRegress
    else uncached_walk m item (uncached_entry_next m hdr) end_
  else WDone hdr.
Proof.
  unfold uncached_walk at 1.
  destruct (Z.to_nat (end_ - hdr)) as [|n] eqn:Hn; simpl.
  - destruct (Z.ltb_spec hdr end_); [lia | reflexivity].
  - destruct (Z.ltb_spec hdr end_); [|reflexivity].
    destruct (ptr_add hdr SIZEOF_PRIVATE_ENTRY <? end_); [|reflexivity].
    simpl.
    destruct (negb (pe_canary m hdr =? SMEM_PRIVATE_CANARY)); [reflexivity|].
    destruct (pe_item m hdr =? item); [reflexivity|].
    destruct (Z.leb_spec (uncached_entry_next m hdr) hdr); [reflexivity|].
    apply walk_uncached_fuel. lia.
Qed.

Lemma walk_cached_more (m : mem) (item cacheline cached_end : Z) :
  forall (f1 f2 : nat) (e : Z),
    (Z.to_nat (e - cached_end) <= f1)%nat ->
    (Z.to_nat (e - cached_end) <= f2)%nat ->
    walk_cached f1 m item cacheline e cached_end =
    walk_cached f2 m item cacheline e cached_end.
Proof.
  induction f1 as [|f1 IH]; intros f2 e H1 H2.
  - destruct f2 as [|f2]; [reflexivity|]. simpl.
    destruct (Z.ltb_spec cached_end e); [lia | reflexivity].
  - destruct f2 as [|f2]; simpl.
    + destruct (Z.ltb_spec cached_end e); [lia | reflexivity].
    + destruct (Z.ltb_spec cached_end e); [|reflexivity].
      destruct (negb (pe_canary m e =? SMEM_PRIVATE_CANARY)); [reflexivity|].
      destruct (pe_item m e =? item); [reflexivity|].
      destruct (Z.leb_spec e (cached_entry_next m e cacheline));
        [reflexivity|].
      apply IH; lia.
Qed.

Lemma walk_cached_fuel (m : mem) (item cacheline e cached_end : Z)
      (fuel : nat) :
  (Z.to_nat (e - cached_end) <= fuel)%nat ->
  walk_cached fuel m item cacheline e cached_end =
  cached_walk m item cacheline e cached_end.
Proof.
  intros H. unfold cached_walk. apply walk_cached_more; lia.
Qed.

(** The backward loop, one iteration at a time. *)
Lemma cached_walk_eq (m : mem) (item cacheline e cached_end : Z) :
  cached_walk m item cacheline e cached_end =
  if cached_end <? e then
    if negb (pe_canary m e =? SMEM_PRIVATE_CANARY) then WCorrupt
    else if pe_item m e =? item then WFound e
    else if e <=? cached_entry_next m e cacheline then WRegress
    else cached_walk m item cacheline (cached_entry_next m e cacheline)
                     cached_end
  else WDone e.
Proof.
  unfold cached_walk at 1.
  destruct (Z.to_nat (e - cached_end)) as [|n] eqn:Hn; simpl.
  - destruct (Z.ltb_spec cached_end e); [lia | reflexivity].
  - destruct (Z.ltb_spec cached_end e); [|reflexivity].
    destruct (negb (pe_canary m e =? SMEM_PRIVATE_CANARY)); [reflexivity|].
    destruct (pe_item m e =? item); [reflexivity|].
    destruct (Z.leb_spec e (cached_entry_next m e cacheline)); [reflexivity|].
    apply walk_cached_fuel. lia.
Qed.

(** Induction along the forward loop: the distance to the boundary. *)
Lemma uncached_walk_ind (end_ : Z) (P : Z -> Prop) :
  (forall hdr,
      (forall next, hdr < next -> hdr < end_ -> P next) -> P hdr) ->
  forall hdr, P hdr.
Proof.
  intros Hstep.
  assert (H : forall (n : nat) hdr, (Z.to_nat (end_ - hdr) <= n)%nat -> P hdr).
  { induction n as [|n IH]; intros hdr Hn; apply Hstep; intros next H1 H2.
    - lia.
    - apply IH. lia. }
  intros hdr. apply (H (Z.to_nat (end_ - hdr))). lia.
Qed.

(** A walk only reads the entries before its boundary. *)
Lemma uncached_walk_same (m m' : mem) (item end_ : Z) :
  end_ + 16 <= two64 ->
  forall hdr,
    0 <= hdr -> same_on hdr end_ m m' ->
    uncached_walk m' item hdr end_ = uncached_walk m item hdr end_.
Proof.
  intros Hend hdr. pattern hdr. apply (uncached_walk_ind end_). clear hdr.
  intros hdr IH H0 Hsame.
  rewrite (uncached_walk_eq m'), (uncached_walk_eq m).
  destruct (Z.ltb_spec hdr end_) as [Hlt|]; [|reflexivity].
  rewrite ptr_add_small by (consts; lia).
  destruct (Z.ltb_spec (hdr + SIZEOF_PRIVATE_ENTRY) end_) as [Hlt2|];
    [|reflexivity].
  simpl. unfold SIZEOF_PRIVATE_ENTRY in Hlt2.
  assert (Hc : pe_canary m' hdr = pe_canary m hdr)
    by (apply (same_on_read16 hdr end_); (assumption || lia)).
  assert (Hi : pe_item m' hdr = pe_item m hdr)
    by (apply (same_on_read16 hdr end_); (assumption || lia)).
  assert (Hn : uncached_entry_next m' hdr = uncached_entry_next m hdr).
  { unfold uncached_entry_next, pe_padding_hdr, pe_size.
    rewrite (same_on_read16 hdr end_ m m') by (assumption || lia).
    rewrite (same_on_read32 hdr end_ m m') by (assumption || lia).
    reflexivity. }
  rewrite Hc, Hi, Hn.
  destruct (negb (pe_canary m hdr =? SMEM_PRIVATE_CANARY)); [reflexivity|].
  destruct (pe_item m hdr =? item); [reflexivity|].
  destruct (Z.leb_spec (uncached_entry_next m hdr) hdr); [reflexivity|].
  apply IH; try lia.
  eapply same_on_sub; [eassumption | lia | lia].
Qed.

(** A walk that ends exactly at its boundary passes through the same
    entries when the boundary is moved further. *)
Lemma uncached_walk_extend (m : mem) (item end_ end' : Z) :
  end_ <= end' ->
  forall hdr,
    uncached_walk m item hdr end_ = WDone end_ ->
    uncached_walk m item hdr end' = uncached_walk m item end_ end'.
Proof.
  intros Hle hdr. pattern hdr. apply (uncached_walk_ind end_). clear hdr.
  intros hdr IH Hw.
  rewrite uncached_walk_eq in Hw.
  destruct (Z.ltb_spec hdr end_) as [Hlt|Hge]; simpl in Hw.
  - destruct (Z.ltb_spec (ptr_add hdr SIZEOF_PRIVATE_ENTRY) end_)
      as [Hlt2|Hge2]; simpl in Hw.
    + rewrite (uncached_walk_eq m item hdr end').
      destruct (Z.ltb_spec hdr end'); [|lia].
      destruct (Z.ltb_spec (ptr_add hdr SIZEOF_PRIVATE_ENTRY) end'); [|lia].
      simpl.
      destruct (negb (pe_canary m hdr =? SMEM_PRIVATE_CANARY));
        [discriminate|].
      destruct (pe_item m hdr =? item); [discriminate|].
      destruct (Z.leb_spec (uncached_entry_next m hdr) hdr); [discriminate|].
      apply IH; assumption || lia.
    + injection Hw as ->. reflexivity.
  - injection Hw as ->. reflexivity.
Qed.

(** ** Reading a field after a write elsewhere *)

Lemma le16_other16 (m : mem) (a b v : Z) :
  0 <= a -> a + 2 <= two64 -> 0 <= b -> b + 2 <= two64 ->
  b + 2 <= a \/ a + 2 <= b ->
  le16_to_cpu (cpu_to_le16 m b v) a = le16_to_cpu m a.
Proof.
  intros. apply (same_on_read16 a (a + 2)); try lia.
  apply same_on_le16; lia.
Qed.

Lemma le16_other32 (m : mem) (a b v : Z) :
  0 <= a -> a + 2 <= two64 -> 0 <= b -> b + 4 <= two64 ->
  b + 4 <= a \/ a + 2 <= b ->
  le16_to_cpu (cpu_to_le32 m b v) a = le16_to_cpu m a.
Proof.
  intros. apply (same_on_read16 a (a + 2)); try lia.
  apply same_on_le32; lia.
Qed.

Lemma le32_other16 (m : mem) (a b v : Z) :
  0 <= a -> a + 4 <= two64 -> 0 <= b -> b + 2 <= two64 ->
  b + 2 <= a \/ a + 4 <= b ->
  le32_to_cpu (cpu_to_le16 m b v) a = le32_to_cpu m a.
Proof.
  intros. apply (same_on_read32 a (a + 4)); try lia.
  apply same_on_le16; lia.
Qed.

Lemma le32_other32 (m : mem) (a b v : Z) :
  0 <= a -> a + 4 <= two64 -> 0 <= b -> b + 4 <= two64 ->
  b + 4 <= a \/ a + 4 <= b ->
  le32_to_cpu (cpu_to_le32 m b v) a = le32_to_cpu m a.
Proof.
  intros. apply (same_on_read32 a (a + 4)); try lia.
  apply same_on_le32; lia.
Qed.

(** A store changes only the bytes it covers. *)
Lemma cpu_to_le16_outside (m : mem) (a v x : Z) :
  0 <= a -> a + 2 <= two64 -> ~ (a <= x < a + 2) ->
  cpu_to_le16 m a v x = m x.
Proof.
  intros H0 H1 Hx. unfold cpu_to_le16, write8.
  rewrite !Z.mod_small with (b := two64) by lia.
  repeat match goal with
         | |- context [?p =? ?q] => destruct (Z.eqb_spec p q); try lia
         end.
Qed.

Lemma cpu_to_le32_outside (m : mem) (a v x : Z) :
  0 <= a -> a + 4 <= two64 -> ~ (a <= x < a + 4) ->
  cpu_to_le32 m a v x = m x.
Proof.
  intros H0 H1 Hx. unfold cpu_to_le32, write8.
  rewrite !Z.mod_small with (b := two64) by lia.
  repeat match goal with
         | |- context [?p =? ?q] => destruct (Z.eqb_spec p q); try lia
         end.
Qed.

(** ** Well-placed partitions *)

Lemma partition_ok_facts (smem : qcom_smem) (m : mem) (entry : Z) :
  partition_okb smem m entry = true ->
  let phdr := ptable_entry_to_phdr smem m entry in
  phdr = virt_base (region_at smem 0) + pte_offset m entry
  /\ 0 <= phdr /\ phdr + pte_size m entry + 4095 <= two64
  /\ 0 <= entry /\ entry + 48 <= two64
  /\ (entry + 48 <= phdr \/ phdr + pte_size m entry <= entry).
Proof.
  unfold partition_okb. intros H. cbv zeta.
  repeat rewrite andb_true_iff in H.
  destruct H as [[[[[[H1 H2] H3] H4] H5] H6] _].
  rewrite orb_true_iff in H6.
  rewrite ?Z.leb_le in *.
  pose proof (le32_range m entry) as Ho.
  pose proof (le32_range m (entry + 4)) as Hs.
  fold (pte_offset m entry) in Ho. fold (pte_size m entry) in Hs.
  assert (Hp : ptable_entry_to_phdr smem m entry
               = virt_base (region_at smem 0) + pte_offset m entry).
  { unfold ptable_entry_to_phdr. apply ptr_add_small. consts. lia. }
  rewrite Hp. consts. repeat split; try lia.
Qed.

Lemma partition_ok_header (smem : qcom_smem) (m : mem) (entry : Z) :
  partition_okb smem m entry = true ->
  SIZEOF_PARTITION_HEADER <= pte_size m entry.
Proof.
  unfold partition_okb. intros H.
  apply andb_true_iff in H. destruct H as [_ H]. apply Z.leb_le, H.
Qed.

(** The sanity check in terms of the three offsets. *)
Lemma free_pointers_sane_offsets (phdr U C P : Z) :
  0 <= phdr -> phdr + P + 4095 <= two64 ->
  0 <= U < two32 -> 0 <= C < two32 -> 0 <= P ->
  free_pointers_sane phdr (ptr_add phdr U) (ptr_add phdr C) (ptr_add phdr P)
  = (U <=? C) && (C <=? P).
Proof.
  intros. unfold free_pointers_sane, IN_PARTITION_RANGE.
  apply eq_true_iff_eq.
  rewrite !andb_true_iff, negb_true_iff, Z.ltb_ge, !Z.leb_le.
  split; intros; mlia.
Qed.

(** ** Allocation at the free boundary *)

Lemma uncached_walk_done_ge (m : mem) (item end_ x : Z) :
  forall hdr, uncached_walk m item hdr end_ = WDone x -> hdr <= x.
Proof.
  intros hdr. pattern hdr. apply (uncached_walk_ind end_). clear hdr.
  intros hdr IH Hw. rewrite uncached_walk_eq in Hw.
  destruct ((hdr <? end_) && (ptr_add hdr SIZEOF_PRIVATE_ENTRY <? end_))
    eqn:Hc.
  - apply andb_true_iff in Hc. destruct Hc as [Hlt _].
    apply Z.ltb_lt in Hlt.
    destruct (negb (pe_canary m hdr =? SMEM_PRIVATE_CANARY)); [discriminate|].
    destruct (pe_item m hdr =? item); [discriminate|].
    destruct (Z.leb_spec (uncached_entry_next m hdr) hdr); [discriminate|].
    assert (uncached_entry_next m hdr <= x) by (apply IH; assumption).
    lia.
  - injection Hw as ->. lia.
Qed.

Ltac peel :=
  repeat first
    [ rewrite le16_other16 by lia | rewrite le16_other32 by lia
    | rewrite le32_other16 by lia | rewrite le32_other32 by lia ].

Lemma alloc_private_boundary (smem : qcom_smem) (m : mem)
      (entry item size : Z) :
  let phdr := ptable_entry_to_phdr smem m entry in
  let end_ := phdr_to_last_uncached_entry m phdr in
  let cached := phdr_to_last_cached_entry m phdr in
  partition_okb smem m entry = true ->
  free_pointers_sane phdr end_ cached (ptr_add phdr (pte_size m entry))
  = true ->
  uncached_walk m item (phdr_to_first_uncached_entry phdr) end_
  = WDone end_ ->
  0 <= size -> end_ + SIZEOF_PRIVATE_ENTRY + size + 7 < two64 ->
  (cached < end_ + SIZEOF_PRIVATE_ENTRY + round_up8 size ->
   qcom_smem_alloc_private smem entry item size m = (- ENOSPC, m))
  /\ (end_ + SIZEOF_PRIVATE_ENTRY + round_up8 size <= cached ->
      exists m', qcom_smem_alloc_private smem entry item size m = (0, m')
                 /\ allocated_entry m m' phdr end_ item size).
Proof.
  intros phdr end_ cached Hok Hsane Hwalk Hsize Hwrap.
  destruct (partition_ok_facts smem m entry Hok)
    as (_ & Hp0 & Hp1 & He0 & He1 & Hdisj).
  fold phdr in Hp0, Hp1, Hdisj.
  pose proof (le32_range m (phdr + 12)) as HU.
  pose proof (le32_range m (phdr + 16)) as HC.
  pose proof (le32_range m (entry + 4)) as HP.
  fold (phdr_offset_free_uncached m phdr) in HU.
  fold (phdr_offset_free_cached m phdr) in HC.
  fold (pte_size m entry) in HP, Hp1, Hdisj.
  unfold cached, end_, phdr_to_last_cached_entry,
    phdr_to_last_uncached_entry in *.
  pose proof Hsane as Hsane'.
  rewrite free_pointers_sane_offsets in Hsane' by lia.
  apply andb_true_iff in Hsane'. destruct Hsane' as [HUC HCP].
  apply Z.leb_le in HUC, HCP.
  assert (Hend : ptr_add phdr (phdr_offset_free_uncached m phdr)
                 = phdr + phdr_offset_free_uncached m phdr)
    by (apply ptr_add_small; lia).
  assert (Hcach : ptr_add phdr (phdr_offset_free_cached m phdr)
                 = phdr + phdr_offset_free_cached m phdr)
    by (apply ptr_add_small; lia).
  assert (Halign : ALIGN size 8 = round_up8 size)
    by (apply ALIGN_8_round_up; consts; lia).
  pose proof (round_up8_bounds size) as Hru.
  assert (Hasz : size_t (SIZEOF_PRIVATE_ENTRY + ALIGN size 8)
                 = SIZEOF_PRIVATE_ENTRY + round_up8 size).
  { rewrite Halign. unfold size_t. apply Z.mod_small. consts. lia. }
  unfold qcom_smem_alloc_private.
  fold phdr.
  unfold phdr_to_last_cached_entry, phdr_to_last_uncached_entry.
  rewrite Hsane. simpl negb. cbv iota.
  rewrite Hwalk.
  rewrite Z.ltb_irrefl.
  rewrite Hasz.
  rewrite Hend in *. rewrite Hcach in *.
  set (U := phdr_offset_free_uncached m phdr) in *.
  set (C := phdr_offset_free_cached m phdr) in *.
  set (hdr := phdr + U) in *.
  assert (Hhdr : hdr = phdr + U) by reflexivity. clearbody hdr.
  rewrite (ptr_add_small hdr) by (consts; lia).
  split; intros Hfit.
  - destruct (Z.ltb_spec (phdr + C) (hdr + (SIZEOF_PRIVATE_ENTRY + round_up8 size)));
      [reflexivity | consts; lia].
  - destruct (Z.ltb_spec (phdr + C) (hdr + (SIZEOF_PRIVATE_ENTRY + round_up8 size)));
      [consts; lia |].
    eexists. split; [reflexivity|].
    assert (Hfirst : phdr + 32 <= hdr).
    { apply uncached_walk_done_ge in Hwalk.
      unfold phdr_to_first_uncached_entry in Hwalk.
      rewrite ptr_add_small in Hwalk by (consts; lia).
      consts. lia. }
    assert (Hsz : pe_size
                    (cpu_to_le32
                       (cpu_to_le16 (cpu_to_le16 m hdr SMEM_PRIVATE_CANARY)
                                    (hdr + 2) item)
                       (hdr + 4) (ALIGN size 8)) hdr = round_up8 size).
    { unfold pe_size. rewrite le32_written by lia. rewrite Halign.
      unfold u32. apply Z.mod_small. consts. lia. }
    rewrite Hsz. unfold le32_add_cpu.
    unfold allocated_entry, pe_canary, pe_item, pe_size, pe_padding_data,
      pe_padding_hdr, phdr_offset_free_uncached.
    consts.
    repeat split.
    + peel. rewrite le16_written by lia. reflexivity.
    + peel. rewrite le16_written by lia. reflexivity.
    + peel. rewrite le32_written by lia. rewrite Halign.
      unfold u32. apply Z.mod_small. lia.
    + peel. rewrite le16_written by lia.
      unfold u16. apply Z.mod_small. lia.
    + peel. rewrite le16_written by lia. reflexivity.
    + rewrite le32_written by lia. peel. fold (phdr_offset_free_uncached m phdr).
      fold U. unfold u32.
      rewrite (Z.mod_small (16 + round_up8 size)) by lia.
      rewrite Z.mod_mod by lia. apply Z.mod_small. lia.
    + intros x Hx1 Hx2.
      rewrite cpu_to_le32_outside by lia.
      rewrite !cpu_to_le16_outside by lia.
      rewrite cpu_to_le32_outside by lia.
      rewrite !cpu_to_le16_outside by lia.
      reflexivity.
Qed.

(** ** The partition after an allocation *)

Lemma allocated_same_on (m m' : mem) (phdr hdr item size lo hi : Z) :
  allocated_entry m m' phdr hdr item size ->
  (hi <= hdr \/ hdr + 12 <= lo) -> (hi <= phdr + 12 \/ phdr + 16 <= lo) ->
  same_on lo hi m m'.
Proof.
  intros (_ & _ & _ & _ & _ & _ & Hout) H1 H2 x Hx. apply Hout; lia.
Qed.

(** After an allocation at the free boundary the table entry and the
    backward free offset read as before, and the forward walk up to the
    new boundary stops at the new entry. *)
Lemma allocated_view (smem : qcom_smem) (m m' : mem) (entry item size : Z) :
  let phdr := ptable_entry_to_phdr smem m entry in
  let end_ := phdr_to_last_uncached_entry m phdr in
  let cached := phdr_to_last_cached_entry m phdr in
  partition_okb smem m entry = true ->
  free_pointers_sane phdr end_ cached (ptr_add phdr (pte_size m entry))
  = true ->
  uncached_walk m item (phdr_to_first_uncached_entry phdr) end_
  = WDone end_ ->
  0 < size -> 0 <= item < two16 ->
  end_ + SIZEOF_PRIVATE_ENTRY + round_up8 size <= cached ->
  allocated_entry m m' phdr end_ item size ->
  pte_offset m' entry = pte_offset m entry
  /\ pte_size m' entry = pte_size m entry
  /\ pte_cacheline m' entry = pte_cacheline m entry
  /\ phdr_offset_free_cached m' phdr = phdr_offset_free_cached m phdr
  /\ phdr_to_last_uncached_entry m' phdr
     = end_ + SIZEOF_PRIVATE_ENTRY + round_up8 size
  /\ uncached_walk m' item (phdr_to_first_uncached_entry phdr)
                   (phdr_to_last_uncached_entry m' phdr) = WFound end_.
Proof.
  intros phdr end_ cached Hok Hsane Hwalk Hsize Hitem Hfit Halloc.
  destruct (partition_ok_facts smem m entry Hok)
    as (_ & Hp0 & Hp1 & He0 & He1 & Hdisj).
  fold phdr in Hp0, Hp1, Hdisj.
  pose proof (le32_range m (phdr + 12)) as HU.
  pose proof (le32_range m (phdr + 16)) as HC.
  pose proof (le32_range m (entry + 4)) as HP.
  fold (phdr_offset_free_uncached m phdr) in HU.
  fold (phdr_offset_free_cached m phdr) in HC.
  fold (pte_size m entry) in HP, Hp1, Hdisj.
  unfold cached, end_, phdr_to_last_cached_entry,
    phdr_to_last_uncached_entry in *.
  rewrite free_pointers_sane_offsets in Hsane by lia.
  apply andb_true_iff in Hsane. destruct Hsane as [HUC HCP].
  apply Z.leb_le in HUC, HCP.
  rewrite (ptr_add_small phdr (phdr_offset_free_uncached m phdr)) in * by lia.
  rewrite (ptr_add_small phdr (phdr_offset_free_cached m phdr)) in * by lia.
  set (U := phdr_offset_free_uncached m phdr) in *.
  set (C := phdr_offset_free_cached m phdr) in *.
  set (hdr := phdr + U) in *.
  assert (Hhdr : hdr = phdr + U) by reflexivity. clearbody hdr.
  pose proof (round_up8_bounds size) as Hru.
  pose proof (round_up8_pos size Hsize) as Hr8.
  assert (Hfirst : phdr + 32 <= hdr).
  { apply uncached_walk_done_ge in Hwalk.
    unfold phdr_to_first_uncached_entry in Hwalk.
    rewrite ptr_add_small in Hwalk by (consts; lia).
    consts. lia. }
  unfold SIZEOF_PRIVATE_ENTRY in Hfit.
  assert (Hent : same_on entry (entry + 48) m m')
    by (eapply allocated_same_on; [eassumption | lia | lia]).
  assert (Hcf : same_on (phdr + 16) (phdr + 20) m m')
    by (eapply allocated_same_on; [eassumption | lia | lia]).
  assert (Hlist : same_on (phdr + 32) hdr m m')
    by (eapply allocated_same_on; [eassumption | lia | lia]).
  destruct Halloc as (Hcan & Hit & Hsz & Hpd & Hph & HU' & _).
  assert (HU2 : ptr_add phdr (phdr_offset_free_uncached m' phdr)
                = hdr + SIZEOF_PRIVATE_ENTRY + round_up8 size).
  { rewrite HU'. fold U. rewrite ptr_add_small by (consts; lia).
    consts. lia. }
  repeat split.
  - apply (same_on_read32 entry (entry + 48)); assumption || lia.
  - apply (same_on_read32 entry (entry + 48)); assumption || lia.
  - apply (same_on_read32 entry (entry + 48)); assumption || lia.
  - apply (same_on_read32 (phdr + 16) (phdr + 20)); assumption || lia.
  - exact HU2.
  - rewrite HU2. unfold phdr_to_first_uncached_entry in *.
    rewrite ptr_add_small in * by (consts; lia).
    unfold SIZEOF_PARTITION_HEADER in *.
    assert (Hw' : uncached_walk m' item (phdr + 32) hdr = WDone hdr).
    { rewrite <- Hwalk. apply uncached_walk_same; assumption || lia. }
    rewrite (uncached_walk_extend m' item hdr) by (assumption || consts; lia).
    rewrite uncached_walk_eq.
    rewrite ptr_add_small by (consts; lia).
    consts.
    destruct (Z.ltb_spec hdr (hdr + 16 + round_up8 size)); [|lia].
    destruct (Z.ltb_spec (hdr + 16) (hdr + 16 + round_up8 size)); [|lia].
    simpl. rewrite Hcan, Z.eqb_refl. simpl.
    rewrite Hit. unfold u16. rewrite Z.mod_small by lia.
    rewrite Z.eqb_refl. reflexivity.
Qed.

Lemma ptable_entry_to_phdr_same (smem : qcom_smem) (m m' : mem) (entry : Z) :
  pte_offset m' entry = pte_offset m entry ->
  ptable_entry_to_phdr smem m' entry = ptable_entry_to_phdr smem m entry.
Proof. unfold ptable_entry_to_phdr. intros ->. reflexivity. Qed.

(** Looking the item up in the partition an allocation left. *)
Lemma get_private_allocated (smem : qcom_smem) (m m' : mem)
      (entry item size : Z) :
  let phdr := ptable_entry_to_phdr smem m entry in
  let end_ := phdr_to_last_uncached_entry m phdr in
  let cached := phdr_to_last_cached_entry m phdr in
  partition_okb smem m entry = true ->
  free_pointers_sane phdr end_ cached (ptr_add phdr (pte_size m entry))
  = true ->
  uncached_walk m item (phdr_to_first_uncached_entry phdr) end_
  = WDone end_ ->
  0 < size -> 0 <= item < two16 ->
  end_ + SIZEOF_PRIVATE_ENTRY + round_up8 size <= cached ->
  allocated_entry m m' phdr end_ item size ->
  qcom_smem_get_private smem entry item m'
  = Ok (end_ + SIZEOF_PRIVATE_ENTRY, size).
Proof.
  intros phdr end_ cached Hok Hsane Hwalk Hsize Hitem Hfit Halloc.
  destruct (allocated_view smem m m' entry item size Hok Hsane Hwalk Hsize
                           Hitem Hfit Halloc)
    as (Hoff & Hps & Hcl & HC' & HU' & Hw').
  destruct (partition_ok_facts smem m entry Hok)
    as (_ & Hp0 & Hp1 & He0 & He1 & Hdisj).
  fold phdr in Hp0, Hp1, Hdisj, HC', HU', Hw'. fold end_ in HU', Hw'.
  pose proof (le32_range m (phdr + 12)) as HU.
  pose proof (le32_range m (phdr + 16)) as HC.
  pose proof (le32_range m (entry + 4)) as HP.
  fold (phdr_offset_free_uncached m phdr) in HU.
  fold (phdr_offset_free_cached m phdr) in HC.
  fold (pte_size m entry) in HP, Hp1, Hdisj.
  pose proof Hsane as Hsane'.
  unfold cached, end_, phdr_to_last_cached_entry,
    phdr_to_last_uncached_entry in Hsane'.
  rewrite free_pointers_sane_offsets in Hsane' by lia.
  apply andb_true_iff in Hsane'. destruct Hsane' as [HUC HCP].
  apply Z.leb_le in HUC, HCP.
  assert (Hend : end_ = phdr + phdr_offset_free_uncached m phdr)
    by (apply ptr_add_small; lia).
  assert (Hcach : cached = phdr + phdr_offset_free_cached m phdr)
    by (apply ptr_add_small; lia).
  assert (Hcach' : phdr_to_last_cached_entry m' phdr = cached).
  { unfold phdr_to_last_cached_entry. rewrite HC'. reflexivity. }
  pose proof (round_up8_bounds size) as Hru.
  pose proof (round_up8_pos size Hsize) as Hr8.
  assert (Hfirst : phdr + 32 <= end_).
  { apply uncached_walk_done_ge in Hwalk.
    unfold phdr_to_first_uncached_entry in Hwalk.
    rewrite ptr_add_small in Hwalk by (consts; lia).
    consts. lia. }
  destruct Halloc as (Hcan & Hit & Hsz & Hpd & Hph & _ & _).
  unfold qcom_smem_get_private.
  rewrite (ptable_entry_to_phdr_same smem m m' entry Hoff). fold phdr.
  rewrite Hps, Hcach', Hw', HU'.
  clearbody cached end_. consts.
  assert (Hs : free_pointers_sane phdr (end_ + 16 + round_up8 size) cached
                 (ptr_add phdr (pte_size m entry)) = true).
  { unfold free_pointers_sane, IN_PARTITION_RANGE.
    rewrite !andb_true_iff, negb_true_iff, Z.ltb_ge, !Z.leb_le.
    rewrite !ptr_add_small by lia. lia. }
  rewrite Hs. simpl negb. cbv iota.
  unfold entry_payload. rewrite Hsz, Hpd.
  destruct (Z.ltb_spec (round_up8 size) (pte_size m entry)); [|lia].
  destruct (Z.ltb_spec (round_up8 size - size) (round_up8 size)); [|lia].
  simpl andb. cbv iota.
  unfold uncached_entry_to_item. rewrite Hph. consts.
  rewrite (ptr_add_small end_ 16) by lia.
  rewrite (ptr_add_small (end_ + 16) 0) by lia.
  replace (end_ + 16 + 0) with (end_ + 16) by lia.
  replace (round_up8 size - (round_up8 size - size)) with size by lia.
  assert (Hr : IN_PARTITION_RANGE (end_ + 16) size end_
                                  (end_ + 16 + round_up8 size) = true).
  { unfold IN_PARTITION_RANGE.
    rewrite !andb_true_iff, !Z.leb_le.
    rewrite !ptr_add_small by lia. lia. }
  rewrite Hr. reflexivity.
Qed.


(** ** The public entry points, step by step *)

Lemma app_assoc3 {A : Type} (l : list A) (a b c : A) :
  ((l ++ [a]) ++ [b]) ++ [c] = l ++ [a; b; c].
Proof. rewrite <- !app_assoc. reflexivity. Qed.

(** With the handle present, the item accepted and the lock free, an
    allocation is the routed operation inside one critical section. *)
Lemma qcom_smem_alloc_run (w : world) (smem : qcom_smem)
      (host item size : Z) :
  __smem w = Some smem -> hwlock w = LockFree ->
  SMEM_ITEM_LAST_FIXED <= item < item_count smem ->
  qcom_smem_alloc host item size w =
  let (r, m') :=
    match routed_entry smem host with
    | Some entry => qcom_smem_alloc_private smem entry item size (shared w)
    | None => qcom_smem_alloc_global smem item size (shared w)
    end in
  (r, with_shared w m' [EvAcquire; EvAccess; EvRelease]).
Proof.
  intros Hs Hl Hi. unfold qcom_smem_alloc. rewrite Hs.
  destruct (Z.ltb_spec item SMEM_ITEM_LAST_FIXED); [lia|].
  destruct (Z.leb_spec (item_count smem) item); [lia|].
  unfold bind, hwspin_lock_timeout_irqsave. rewrite Hl. simpl.
  destruct (routed_entry smem host) as [entry|]; unfold smem_rw; simpl.
  - destruct (qcom_smem_alloc_private smem entry item size (shared w))
      as [r m']. simpl. unfold with_shared, log. simpl.
    rewrite app_assoc3. reflexivity.
  - destruct (qcom_smem_alloc_global smem item size (shared w)) as [r m'].
    simpl. unfold with_shared, log. simpl.
    rewrite app_assoc3. reflexivity.
Qed.

Lemma qcom_smem_get_run (w : world) (smem : qcom_smem) (host item : Z) :
  __smem w = Some smem -> hwlock w = LockFree ->
  item < item_count smem ->
  qcom_smem_get host item w =
  (match routed_entry smem host with
   | Some entry => qcom_smem_get_private smem entry item (shared w)
   | None => qcom_smem_get_global smem item (shared w)
   end,
   with_shared w (shared w) [EvAcquire; EvAccess; EvRelease]).
Proof.
  intros Hs Hl Hi. unfold qcom_smem_get. rewrite Hs.
  destruct (Z.leb_spec (item_count smem) item); [lia|].
  unfold bind, hwspin_lock_timeout_irqsave. rewrite Hl. simpl.
  destruct (routed_entry smem host) as [entry|];
    unfold smem_ro, smem_rw; simpl; unfold with_shared, log; simpl;
    rewrite app_assoc3; reflexivity.
Qed.




(** ** The scenario of the specification *)

(** 100 bytes for item 10 of host 5
    come back as 100 usable bytes, and the free space shrinks by the
    16-byte header plus 104. *)
Example ex_alloc_get :
  let w1 := snd (qcom_smem_alloc 5 10 100 ex_world) in
  fst (qcom_smem_alloc 5 10 100 ex_world) = 0
  /\ fst (qcom_smem_get 5 10 w1) = Ok (ex_phdr + 48, 100)
  /\ fst (qcom_smem_get_free_space 5 ex_world) = 224
  /\ fst (qcom_smem_get_free_space 5 w1) = 104.
Proof. vm_compute. repeat split; reflexivity. Qed.

(** ** Item identifiers at the entry points *)

(** C6 (as stated, refuted): the rejection of a reserved item and the
    rejection of an item beyond the accepted count are not distinct
    errors; item 3 and item 600 both give [-EINVAL]. *)
Lemma alloc_reserved_and_out_of_range_same_error :
  fst (qcom_smem_alloc 5 3 16 ex_world) = - EINVAL
  /\ fst (qcom_smem_alloc 5 600 16 ex_world) = - EINVAL.
Proof. vm_compute. split; reflexivity. Qed.

(** C6 (amended): with a handle present, for every state of the shared
    memory and of the lock, every host and every size, an allocation of
    an item below [SMEM_ITEM_LAST_FIXED] and an allocation of an item at
    or above the accepted item count both return [-EINVAL], and the
    world is left as it was: the lock is not taken, nothing is routed
    and the shared memory is not accessed. *)
Theorem alloc_rejects_item_before_lock (w : world) (smem : qcom_smem)
        (host item size : Z) :
  __smem w = Some smem ->
  item < SMEM_ITEM_LAST_FIXED \/ item_count smem <= item ->
  qcom_smem_alloc host item size w = (- EINVAL, w).
Proof.
  intros Hs Hi. unfold qcom_smem_alloc. rewrite Hs.
  destruct (Z.ltb_spec item SMEM_ITEM_LAST_FIXED); [reflexivity|].
  destruct (Z.leb_spec (item_count smem) item); [reflexivity|].
  lia.
Qed.

Lemma alloc_rejects_item_before_lock_witness :
  qcom_smem_alloc 5 3 16 ex_world = (- EINVAL, ex_world)
  /\ qcom_smem_alloc 5 600 16 ex_world = (- EINVAL, ex_world).
Proof.
  split.
  - apply (alloc_rejects_item_before_lock ex_world ex_smem 5 3 16).
    + reflexivity.
    + left. unfold SMEM_ITEM_LAST_FIXED. lia.
  - apply (alloc_rejects_item_before_lock ex_world ex_smem 5 600 16).
    + reflexivity.
    + right. simpl. unfold SMEM_ITEM_COUNT. lia.
Defined.

(** ** The partition table reader *)

Lemma magic_ok_iff (m : mem) (a b0 b1 b2 b3 : Z) :
  magic_ok m a [b0; b1; b2; b3] = true <-> magic_at m a = [b0; b1; b2; b3].
Proof.
  unfold magic_ok, magic_at. rewrite !andb_true_iff, !Z.eqb_eq.
  split.
  - intros [[[-> ->] ->] ->]. reflexivity.
  - intros H. injection H as -> -> -> ->. auto.
Qed.

(** C8: the partition table is read at [size - 4096] bytes from the
    start of the primary region; the reader succeeds, returning that
    address, exactly when the four magic bytes are "$TOC" and the version
    field is 1, and fails otherwise; it writes nothing, so the entry count
    and the entries are read through the returned address as they are. *)
Theorem get_ptable_spec (smem : qcom_smem) (m : mem) :
  let r := region_at smem 0 in
  0 <= virt_base r -> SZ_4K <= size r -> virt_base r + size r <= two64 ->
  let table := virt_base r + (size r - SZ_4K) in
  (magic_at m table = SMEM_PTABLE_MAGIC /\ ptable_version m table = 1
   <-> qcom_smem_get_ptable smem m = Ok table)
  /\ (magic_at m table <> SMEM_PTABLE_MAGIC \/ ptable_version m table <> 1
      <-> exists e, qcom_smem_get_ptable smem m = Err e)
  /\ (forall t, qcom_smem_get_ptable smem m = Ok t ->
                t = table
                /\ ptable_num_entries m t = le32_to_cpu m (table + 8)
                /\ forall i, 0 <= i -> table + 32 + 48 * i < two64 ->
                             ptable_entry t i = table + 32 + 48 * i).
Proof.
  intros r H0 H1 H2 table. unfold SZ_4K in *.
  assert (Ht : ptr_sub (ptr_add (virt_base r) (size r)) SZ_4K = table).
  { unfold table, SZ_4K. mlia. }
  assert (Ht0 : 0 <= table) by (unfold table, SZ_4K; lia).
  unfold qcom_smem_get_ptable. fold r. rewrite Ht. clearbody table.
  pose proof (magic_ok_iff m table 36 84 79 67) as Hm.
  change [36; 84; 79; 67] with SMEM_PTABLE_MAGIC in Hm.
  destruct (magic_ok m table SMEM_PTABLE_MAGIC) eqn:Hmagic; cbn [negb].
  - assert (Hmt : magic_at m table = SMEM_PTABLE_MAGIC) by (apply Hm; auto).
    destruct (Z.eqb_spec (ptable_version m table) 1) as [Hv|Hv]; cbn [negb].
    + split; [|split].
      * split; auto.
      * split; [intros [Hc|Hc]; contradiction | intros [e He]; discriminate].
      * intros t Hok. injection Hok as <-.
        split; [reflexivity|]. split; [reflexivity|].
        intros i Hi Hb. unfold ptable_entry, SIZEOF_PTABLE_ENTRY.
        rewrite ptr_add_small by lia. lia.
    + split; [|split].
      * split; [intros [_ Hc]; contradiction | intros Hc; discriminate].
      * split; [intros _; eexists; reflexivity | intros _; right; assumption].
      * intros t Hok. discriminate.
  - assert (Hmt : magic_at m table <> SMEM_PTABLE_MAGIC).
    { intros Hc. apply Hm in Hc. discriminate. }
    split; [|split].
    + split; [intros [Hc _]; contradiction | intros Hc; discriminate].
    + split; [intros _; eexists; reflexivity | intros _; left; assumption].
    + intros t Hok. discriminate.
Qed.

Lemma get_ptable_spec_witness :
  qcom_smem_get_ptable ex_smem ex_mem = Ok ex_table.
Proof.
  apply (get_ptable_spec ex_smem ex_mem); simpl; unfold SZ_4K, ex_base;
    try lia.
  split; vm_compute; reflexivity.
Defined.

(** ** The remote spinlock *)

(** C9 (as stated, refuted): the free-space query reads the free offsets
    of the partition header without taking the lock. *)
Lemma get_free_space_takes_no_lock :
  trace (snd (qcom_smem_get_free_space 5 ex_world)) = [EvAccess]
  /\ disciplined false (trace (snd (qcom_smem_get_free_space 5 ex_world)))
     = false.
Proof. vm_compute. split; reflexivity. Qed.

(** C9 (amended): every allocation and every lookup either touches
    neither the lock nor the shared memory (no handle, item rejected,
    lock not obtained within the timeout) or acquires the lock, performs
    its one routed operation on the shared memory and releases the lock,
    in this order; the free-space query never acquires the lock: it
    reads the shared memory directly, or not at all without a handle. *)
Theorem lock_discipline (w : world) (host item size : Z) :
  (exists evs,
      trace (snd (qcom_smem_alloc host item size w)) = trace w ++ evs
      /\ (evs = [] \/ evs = [EvAcquire; EvAccess; EvRelease])
      /\ disciplined false evs = true)
  /\ (exists evs,
         trace (snd (qcom_smem_get host item w)) = trace w ++ evs
         /\ (evs = [] \/ evs = [EvAcquire; EvAccess; EvRelease])
         /\ disciplined false evs = true)
  /\ (exists evs,
         trace (snd (qcom_smem_get_free_space host w)) = trace w ++ evs
         /\ (evs = [] \/ evs = [EvAccess])).
Proof.
  assert (Hnil : trace w = trace w ++ []) by (rewrite app_nil_r; reflexivity).
  split; [|split].
  - unfold qcom_smem_alloc.
    destruct (__smem w) as [smem|]; [|exists []; simpl; auto].
    destruct (item <? SMEM_ITEM_LAST_FIXED); [exists []; simpl; auto|].
    destruct (item_count smem <=? item); [exists []; simpl; auto|].
    unfold bind, hwspin_lock_timeout_irqsave.
    destruct (hwlock w); simpl; try solve [exists []; simpl; auto].
    exists [EvAcquire; EvAccess; EvRelease].
    split; [|split; [right|]; reflexivity].
    destruct (routed_entry smem host) as [entry|]; unfold smem_rw; simpl.
    + destruct (qcom_smem_alloc_private smem entry item size (shared w)).
      simpl. apply app_assoc3.
    + destruct (qcom_smem_alloc_global smem item size (shared w)).
      simpl. apply app_assoc3.
  - unfold qcom_smem_get.
    destruct (__smem w) as [smem|]; [|exists []; simpl; auto].
    destruct (item_count smem <=? item); [exists []; simpl; auto|].
    unfold bind, hwspin_lock_timeout_irqsave.
    destruct (hwlock w); simpl; try solve [exists []; simpl; auto].
    exists [EvAcquire; EvAccess; EvRelease].
    split; [|split; [right|]; reflexivity].
    destruct (routed_entry smem host) as [entry|];
      unfold smem_ro, smem_rw; simpl; apply app_assoc3.
  - unfold qcom_smem_get_free_space.
    destruct (__smem w) as [smem|]; [|exists []; simpl; auto].
    exists [EvAccess]. split; [|right; reflexivity].
    destruct (routed_entry smem host) as [entry|];
      unfold smem_ro, smem_rw; simpl; reflexivity.
Qed.

(** ** Allocation in a private partition *)

(** The space check when the walk ends at the free pointer: in a
    well-placed partition that passed the sanity check and whose forward
    walk ended with its cursor at the forward free pointer, the
    allocation needs
    the 16-byte item header plus the payload size rounded up to 8 bytes;
    it fails with [-ENOSPC], writing nothing, exactly when the forward
    free pointer plus this size passes the backward (cached) free
    pointer, and otherwise succeeds: the new header (canary, item, rounded
    size, padding) is written at the boundary and the forward free offset
    advances by exactly that size. *)
Theorem alloc_private_space_check (smem : qcom_smem) (m : mem)
        (entry item size : Z) :
  let phdr := ptable_entry_to_phdr smem m entry in
  let end_ := phdr_to_last_uncached_entry m phdr in
  let cached := phdr_to_last_cached_entry m phdr in
  let required := SIZEOF_PRIVATE_ENTRY + round_up8 size in
  partition_okb smem m entry = true ->
  free_pointers_sane phdr end_ cached (ptr_add phdr (pte_size m entry))
  = true ->
  uncached_walk m item (phdr_to_first_uncached_entry phdr) end_
  = WDone end_ ->
  0 <= size -> end_ + SIZEOF_PRIVATE_ENTRY + size + 7 < two64 ->
  size_t (SIZEOF_PRIVATE_ENTRY + ALIGN size 8) = required
  /\ (fst (qcom_smem_alloc_private smem entry item size m) = - ENOSPC
      <-> cached < end_ + required)
  /\ (cached < end_ + required ->
      qcom_smem_alloc_private smem entry item size m = (- ENOSPC, m))
  /\ (end_ + required <= cached ->
      exists m',
        qcom_smem_alloc_private smem entry item size m = (0, m')
        /\ allocated_entry m m' phdr end_ item size).
Proof.
  intros phdr end_ cached required Hok Hsane Hwalk Hsize Hwrap.
  destruct (alloc_private_boundary smem m entry item size Hok Hsane Hwalk
                                   Hsize Hwrap) as [Hfull Hfit].
  fold phdr in Hfull, Hfit. fold end_ in Hfull, Hfit.
  fold cached in Hfull, Hfit.
  unfold required.
  replace (end_ + (SIZEOF_PRIVATE_ENTRY + round_up8 size))
    with (end_ + SIZEOF_PRIVATE_ENTRY + round_up8 size) by ring.
  assert (He0 : 0 <= end_) by (apply ptr_add_range).
  split; [|split; [|split]].
  - rewrite ALIGN_8_round_up by (unfold SIZEOF_PRIVATE_ENTRY in *; lia).
    unfold size_t. apply Z.mod_small.
    pose proof (round_up8_bounds size). unfold SIZEOF_PRIVATE_ENTRY in *.
    lia.
  - split.
    + intros Hr.
      destruct (Z.lt_ge_cases cached
                  (end_ + SIZEOF_PRIVATE_ENTRY + round_up8 size))
        as [Hlt|Hge]; [assumption|].
      destruct (Hfit Hge) as (m' & Heq & _). rewrite Heq in Hr.
      simpl in Hr. unfold ENOSPC in Hr. discriminate.
    + intros Hlt. rewrite (Hfull Hlt). reflexivity.
  - exact Hfull.
  - exact Hfit.
Qed.

Lemma alloc_private_space_check_witness :
  (exists m',
      qcom_smem_alloc_private ex_smem ex_entry 10 100 ex_mem = (0, m')
      /\ phdr_offset_free_uncached m' ex_phdr = 32 + (16 + 104))
  /\ qcom_smem_alloc_private ex_smem ex_entry 10 300 ex_mem
     = (- ENOSPC, ex_mem).
Proof.
  split.
  - destruct (alloc_private_space_check ex_smem ex_mem ex_entry 10 100)
      as (_ & _ & _ & Hfit); try (vm_compute; reflexivity).
    + vm_compute. discriminate.
    + destruct Hfit as (m' & Heq & Hall).
      * vm_compute. discriminate.
      * exists m'. split; [exact Heq|].
        destruct Hall as (_ & _ & _ & _ & _ & HU & _). exact HU.
  - apply (alloc_private_space_check ex_smem ex_mem ex_entry 10 300);
      try (vm_compute; reflexivity).
    vm_compute. discriminate.
Defined.

(** ** Allocation followed by lookup *)

(** C1 (as stated, refuted): an allocation of zero bytes succeeds, but
    the lookup that follows does not return the item. *)
Lemma alloc_get_zero_size :
  fst (qcom_smem_alloc 5 10 0 ex_world) = 0
  /\ fst (qcom_smem_get 5 10 (snd (qcom_smem_alloc 5 10 0 ex_world)))
     = Err ENOENT.
Proof. vm_compute. split; reflexivity. Qed.

(** The hypotheses on the forward free pointer give the bound on the
    addresses the allocation computes. *)
Lemma fit_no_wrap (smem : qcom_smem) (m : mem) (entry size : Z) :
  let phdr := ptable_entry_to_phdr smem m entry in
  let end_ := phdr_to_last_uncached_entry m phdr in
  let cached := phdr_to_last_cached_entry m phdr in
  partition_okb smem m entry = true ->
  free_pointers_sane phdr end_ cached (ptr_add phdr (pte_size m entry))
  = true ->
  end_ + SIZEOF_PRIVATE_ENTRY + round_up8 size <= cached ->
  end_ + SIZEOF_PRIVATE_ENTRY + size + 7 < two64.
Proof.
  intros phdr end_ cached Hok Hsane Hfit.
  destruct (partition_ok_facts smem m entry Hok)
    as (_ & Hp0 & Hp1 & _).
  fold phdr in Hp0, Hp1.
  pose proof (le32_range m (phdr + 12)) as HU.
  pose proof (le32_range m (phdr + 16)) as HC.
  pose proof (le32_range m (entry + 4)) as HP.
  fold (phdr_offset_free_uncached m phdr) in HU.
  fold (phdr_offset_free_cached m phdr) in HC.
  fold (pte_size m entry) in HP, Hp1.
  unfold cached, end_, phdr_to_last_cached_entry,
    phdr_to_last_uncached_entry in *.
  rewrite free_pointers_sane_offsets in Hsane by lia.
  apply andb_true_iff in Hsane. destruct Hsane as [HUC HCP].
  apply Z.leb_le in HUC, HCP.
  rewrite (ptr_add_small phdr (phdr_offset_free_uncached m phdr)) in * by lia.
  rewrite (ptr_add_small phdr (phdr_offset_free_cached m phdr)) in * by lia.
  pose proof (round_up8_bounds size). lia.
Qed.

(** C1 (amended): for a host routed to a well-placed private partition
    whose forward list ends exactly at the free boundary without holding
    the item, an item accepted by the entry point and a size above zero
    whose header plus size rounded up to 8 bytes fits below the backward
    free pointer, the allocation succeeds, the entry is stored with the
    size rounded up to 8 bytes and the padding that rounding added, and
    the lookup that follows returns the data address of the new entry and
    the size originally requested. *)
Theorem alloc_get_roundtrip (w : world) (smem : qcom_smem)
        (host entry item size : Z) :
  let m := shared w in
  let phdr := ptable_entry_to_phdr smem m entry in
  let end_ := phdr_to_last_uncached_entry m phdr in
  let cached := phdr_to_last_cached_entry m phdr in
  __smem w = Some smem -> hwlock w = LockFree ->
  routed_entry smem host = Some entry ->
  partition_okb smem m entry = true ->
  SMEM_ITEM_LAST_FIXED <= item < item_count smem ->
  item_count smem <= two16 ->
  free_pointers_sane phdr end_ cached (ptr_add phdr (pte_size m entry))
  = true ->
  uncached_walk m item (phdr_to_first_uncached_entry phdr) end_
  = WDone end_ ->
  0 < size ->
  end_ + SIZEOF_PRIVATE_ENTRY + round_up8 size <= cached ->
  let w1 := snd (qcom_smem_alloc host item size w) in
  fst (qcom_smem_alloc host item size w) = 0
  /\ pe_size (shared w1) end_ = round_up8 size
  /\ pe_padding_data (shared w1) end_ = round_up8 size - size
  /\ fst (qcom_smem_get host item w1)
     = Ok (end_ + SIZEOF_PRIVATE_ENTRY, size).
Proof.
  intros m phdr end_ cached Hs Hl Hr Hok Hi Hc Hsane Hwalk Hsize Hfit w1.
  pose proof (fit_no_wrap smem m entry size Hok Hsane Hfit) as Hwrap.
  destruct (alloc_private_boundary smem m entry item size Hok Hsane Hwalk
                                   ltac:(lia) Hwrap) as [_ Hgo].
  destruct (Hgo Hfit) as (m' & Heq & Hall).
  unfold w1.
  rewrite (qcom_smem_alloc_run w smem host item size Hs Hl Hi).
  rewrite Hr. fold m. rewrite Heq. cbn [fst snd shared with_shared].
  split; [reflexivity|].
  split; [apply Hall|]. split; [apply Hall|].
  rewrite (qcom_smem_get_run _ smem host item); simpl;
    try assumption; try reflexivity; try lia.
  rewrite Hr.
  apply (get_private_allocated smem m m' entry item size); try assumption.
  unfold SMEM_ITEM_LAST_FIXED in Hi. lia.
Qed.

Lemma alloc_get_roundtrip_witness :
  let w1 := snd (qcom_smem_alloc 5 10 100 ex_world) in
  fst (qcom_smem_alloc 5 10 100 ex_world) = 0
  /\ pe_size (shared w1) (ex_phdr + 32) = 104
  /\ pe_padding_data (shared w1) (ex_phdr + 32) = 4
  /\ fst (qcom_smem_get 5 10 w1) = Ok (ex_phdr + 32 + 16, 100).
Proof.
  apply (alloc_get_roundtrip ex_world ex_smem 5 ex_entry 10 100);
    by_computation.
Defined.

(** ** Repeated and failing allocations *)




(** ** The order of the two free offsets *)

(** In a partition whose forward walk ended at the free boundary, an
    allocation keeps the forward free offset at or below the backward
    one. *)
Lemma alloc_private_keeps_order_at_boundary (smem : qcom_smem) (m : mem)
      (entry item size : Z) :
  let phdr := ptable_entry_to_phdr smem m entry in
  let end_ := phdr_to_last_uncached_entry m phdr in
  let cached := phdr_to_last_cached_entry m phdr in
  let m' := snd (qcom_smem_alloc_private smem entry item size m) in
  partition_okb smem m entry = true ->
  free_pointers_sane phdr end_ cached (ptr_add phdr (pte_size m entry))
  = true ->
  uncached_walk m item (phdr_to_first_uncached_entry phdr) end_
  = WDone end_ ->
  0 <= size -> end_ + SIZEOF_PRIVATE_ENTRY + size + 7 < two64 ->
  phdr_offset_free_uncached m' phdr <= phdr_offset_free_cached m' phdr.
Proof.
  intros phdr end_ cached m' Hok Hsane Hwalk Hsize Hwrap.
  destruct (alloc_private_boundary smem m entry item size Hok Hsane Hwalk
                                   Hsize Hwrap) as [Hfull Hfit].
  fold phdr in Hfull, Hfit. fold end_ in Hfull, Hfit.
  fold cached in Hfull, Hfit.
  destruct (partition_ok_facts smem m entry Hok)
    as (_ & Hp0 & Hp1 & _).
  fold phdr in Hp0, Hp1.
  pose proof (le32_range m (phdr + 12)) as HU.
  pose proof (le32_range m (phdr + 16)) as HC.
  pose proof (le32_range m (entry + 4)) as HP.
  fold (phdr_offset_free_uncached m phdr) in HU.
  fold (phdr_offset_free_cached m phdr) in HC.
  fold (pte_size m entry) in HP, Hp1.
  pose proof Hsane as Hsane'.
  unfold cached, end_, phdr_to_last_cached_entry,
    phdr_to_last_uncached_entry in Hsane'.
  rewrite free_pointers_sane_offsets in Hsane' by lia.
  apply andb_true_iff in Hsane'. destruct Hsane' as [HUC HCP].
  apply Z.leb_le in HUC, HCP.
  assert (Hend : end_ = phdr + phdr_offset_free_uncached m phdr)
    by (apply ptr_add_small; lia).
  assert (Hcach : cached = phdr + phdr_offset_free_cached m phdr)
    by (apply ptr_add_small; lia).
  destruct (Z.lt_ge_cases cached
              (end_ + SIZEOF_PRIVATE_ENTRY + round_up8 size)) as [Hlt|Hge].
  - unfold m'. rewrite (Hfull Hlt). simpl. exact HUC.
  - destruct (Hfit Hge) as (m1 & Heq & Hall).
    unfold m'. rewrite Heq. cbn [snd].
    assert (Hfirst : phdr + 32 <= end_).
    { apply uncached_walk_done_ge in Hwalk.
      unfold phdr_to_first_uncached_entry in Hwalk.
      rewrite ptr_add_small in Hwalk by (consts; lia).
      consts. lia. }
    assert (Hcf : same_on (phdr + 16) (phdr + 20) m m1)
      by (eapply allocated_same_on; [eassumption | lia | lia]).
    destruct Hall as (_ & _ & _ & _ & _ & HU' & _).
    rewrite HU'. unfold phdr_offset_free_cached at 1.
    rewrite (same_on_read32 (phdr + 16) (phdr + 20) m m1)
      by (assumption || lia).
    fold (phdr_offset_free_cached m phdr). lia.
Qed.

(** C7 (the code breaks the invariant): the walk leaves its cursor at
    offset 32, 8 bytes before the forward free offset; the space check
    is made from the cursor, but the free offset advances from where it
    was.  An allocation of 8 bytes succeeds, moves the forward free offset
    from 40 to 64, past the backward free offset 56, and the next
    allocation in the partition fails the sanity check. *)
Theorem alloc_private_breaks_free_order :
  let m := ex_mem_gap in
  let r := qcom_smem_alloc_private ex_smem ex_entry 10 8 m in
  partition_okb ex_smem m ex_entry = true
  /\ phdr_offset_free_uncached m ex_phdr = 40
  /\ phdr_offset_free_cached m ex_phdr = 56
  /\ fst r = 0
  /\ fst (qcom_smem_alloc 5 10 8 (ex_world_of m)) = 0
  /\ phdr_offset_free_uncached (snd r) ex_phdr = 64
  /\ phdr_offset_free_cached (snd r) ex_phdr = 56
  /\ fst (qcom_smem_alloc_private ex_smem ex_entry 11 8 (snd r)) = - EINVAL.
Proof. vm_compute. repeat split; reflexivity. Qed.

(** ** What an allocation checks in the partition header *)

(** The header validator accepts exactly the headers whose magic, host
    pair and size agree with the table entry and whose forward free offset
    is within the size. *)
Lemma partition_header_spec (smem : qcom_smem) (m : mem)
      (entry host0 host1 : Z) :
  let header := ptable_entry_to_phdr smem m entry in
  (magic_at m header = SMEM_PART_MAGIC
   /\ phdr_host0 m header = host0 /\ phdr_host1 m header = host1
   /\ phdr_size m header = pte_size m entry
   /\ phdr_offset_free_uncached m header <= phdr_size m header
   -> qcom_smem_partition_header smem m entry host0 host1 = Some header)
  /\ (magic_at m header <> SMEM_PART_MAGIC
      \/ phdr_host0 m header <> host0 \/ phdr_host1 m header <> host1
      \/ phdr_size m header <> pte_size m entry
      \/ phdr_size m header < phdr_offset_free_uncached m header
      -> qcom_smem_partition_header smem m entry host0 host1 = None).
Proof.
  intros header. unfold qcom_smem_partition_header.
  fold (ptable_entry_to_phdr smem m entry). fold header.
  pose proof (magic_ok_iff m header 36 80 82 84) as Hm.
  change [36; 80; 82; 84] with SMEM_PART_MAGIC in Hm.
  destruct (magic_ok m header SMEM_PART_MAGIC) eqn:Hmagic; cbn [negb].
  - assert (Hmt : magic_at m header = SMEM_PART_MAGIC) by (apply Hm; auto).
    destruct (Z.eqb_spec host0 (phdr_host0 m header)); cbn [negb];
      [|split; [intros (_ & ? & _); congruence | reflexivity]].
    destruct (Z.eqb_spec host1 (phdr_host1 m header)); cbn [negb];
      [|split; [intros (_ & _ & ? & _); congruence | reflexivity]].
    destruct (Z.eqb_spec (phdr_size m header) (pte_size m entry)); cbn [negb];
      [|split; [intros (_ & _ & _ & ? & _); congruence | reflexivity]].
    destruct (Z.ltb_spec (phdr_size m header)
                         (phdr_offset_free_uncached m header));
      [split; [intros (_ & _ & _ & _ & ?); lia | reflexivity]|].
    split; [reflexivity|].
    intros [?|[?|[?|[?|?]]]]; try congruence; lia.
  - split; [|reflexivity].
    intros (Hc & _). apply Hm in Hc. discriminate.
Qed.

(** The allocation reads of the header only the two free offsets: its
    result is the same on two memories that differ in the first 12 bytes
    of the header (magic, hosts, size) only. *)
Lemma alloc_private_ignores_header_id (smem : qcom_smem) (m m' : mem)
      (entry item size : Z) :
  let phdr := ptable_entry_to_phdr smem m entry in
  partition_okb smem m entry = true ->
  (forall x, ~ (phdr <= x < phdr + 12) -> m' x = m x) ->
  fst (qcom_smem_alloc_private smem entry item size m')
  = fst (qcom_smem_alloc_private smem entry item size m).
Proof.
  intros phdr Hok Hsame.
  destruct (partition_ok_facts smem m entry Hok)
    as (_ & Hp0 & Hp1 & He0 & He1 & Hdisj).
  pose proof (partition_ok_header smem m entry Hok) as Hhdr.
  fold phdr in Hp0, Hp1, Hdisj. unfold SIZEOF_PARTITION_HEADER in Hhdr.
  assert (Hent : same_on entry (entry + 48) m m')
    by (intros x Hx; apply Hsame; lia).
  assert (Hoffs : same_on (phdr + 12) (phdr + 20) m m')
    by (intros x Hx; apply Hsame; lia).
  assert (Hoff : pte_offset m' entry = pte_offset m entry)
    by (apply (same_on_read32 entry (entry + 48)); assumption || lia).
  assert (Hps : pte_size m' entry = pte_size m entry)
    by (apply (same_on_read32 entry (entry + 48)); assumption || lia).
  assert (HU : phdr_offset_free_uncached m' phdr
               = phdr_offset_free_uncached m phdr)
    by (apply (same_on_read32 (phdr + 12) (phdr + 20)); assumption || lia).
  assert (HC : phdr_offset_free_cached m' phdr
               = phdr_offset_free_cached m phdr)
    by (apply (same_on_read32 (phdr + 12) (phdr + 20)); assumption || lia).
  unfold qcom_smem_alloc_private.
  rewrite (ptable_entry_to_phdr_same smem m m' entry Hoff). fold phdr.
  unfold phdr_to_last_uncached_entry, phdr_to_last_cached_entry.
  rewrite Hps, HU, HC.
  pose proof (le32_range m (phdr + 12)) as HUr.
  pose proof (le32_range m (phdr + 16)) as HCr.
  pose proof (le32_range m (entry + 4)) as HPr.
  fold (phdr_offset_free_uncached m phdr) in HUr.
  fold (phdr_offset_free_cached m phdr) in HCr.
  fold (pte_size m entry) in HPr, Hp1, Hdisj, Hhdr.
  rewrite free_pointers_sane_offsets by lia.
  destruct (Z.leb_spec (phdr_offset_free_uncached m phdr)
                       (phdr_offset_free_cached m phdr)) as [HUC|];
    [|reflexivity].
  destruct (Z.leb_spec (phdr_offset_free_cached m phdr) (pte_size m entry))
    as [HCP|]; [|reflexivity].
  cbn [andb negb].
  rewrite (ptr_add_small phdr (phdr_offset_free_uncached m phdr)) by lia.
  assert (Hw : uncached_walk m' item (phdr_to_first_uncached_entry phdr)
                 (phdr + phdr_offset_free_uncached m phdr)
               = uncached_walk m item (phdr_to_first_uncached_entry phdr)
                   (phdr + phdr_offset_free_uncached m phdr)).
  { unfold phdr_to_first_uncached_entry, SIZEOF_PARTITION_HEADER.
    rewrite ptr_add_small by lia.
    apply uncached_walk_same; try lia.
    intros x Hx. apply Hsame. lia. }
  rewrite Hw.
  destruct (uncached_walk m item (phdr_to_first_uncached_entry phdr)
              (phdr + phdr_offset_free_uncached m phdr)) as [|e| |e];
    try reflexivity.
  destruct (phdr + phdr_offset_free_uncached m phdr <? e); [reflexivity|].
  destruct (ptr_add phdr (phdr_offset_free_cached m phdr)
            <? ptr_add e (size_t (SIZEOF_PRIVATE_ENTRY + ALIGN size 8)));
    reflexivity.
Qed.

(** C2 (as stated, refuted): the allocation does not validate the header
    against the table entry; on a header with a wrong magic, a wrong host
    pair and a wrong size, which the validator and so the enumeration of
    the partitions reject, it succeeds. *)
Lemma alloc_accepts_invalid_header :
  qcom_smem_partition_header ex_smem ex_mem_badhdr ex_entry 0 5 = None
  /\ fst (qcom_smem_enumerate_partitions ex_smem_legacy ex_mem_badhdr
                                         SMEM_HOST_APPS) = - EINVAL
  /\ fst (qcom_smem_alloc 5 10 100 (ex_world_of ex_mem_badhdr)) = 0.
Proof. vm_compute. repeat split; reflexivity. Qed.

(** C2 (amended): on every call the allocation checks the two free
    offsets of the header and nothing else of it: (1) when the forward
    free pointer is not between the header and the backward free pointer,
    or the backward free pointer is past the end the table entry gives,
    it fails with [-EINVAL] before walking or writing anything; (2) in a
    well-placed partition its result does not depend on the magic, the
    host pair and the size field of the header; (3) those are checked by
    the header validator, used when the partitions are enumerated, which
    rejects every header that differs from its table entry in one of
    them. *)
Theorem alloc_private_header_checks (smem : qcom_smem) (m : mem)
        (entry item size : Z) :
  let phdr := ptable_entry_to_phdr smem m entry in
  (free_pointers_sane phdr (phdr_to_last_uncached_entry m phdr)
                      (phdr_to_last_cached_entry m phdr)
                      (ptr_add phdr (pte_size m entry)) = false ->
   qcom_smem_alloc_private smem entry item size m = (- EINVAL, m))
  /\ (forall m',
         partition_okb smem m entry = true ->
         (forall x, ~ (phdr <= x < phdr + 12) -> m' x = m x) ->
         fst (qcom_smem_alloc_private smem entry item size m')
         = fst (qcom_smem_alloc_private smem entry item size m))
  /\ (forall host0 host1,
         magic_at m phdr <> SMEM_PART_MAGIC
         \/ phdr_host0 m phdr <> host0 \/ phdr_host1 m phdr <> host1
         \/ phdr_size m phdr <> pte_size m entry ->
         qcom_smem_partition_header smem m entry host0 host1 = None).
Proof.
  intros phdr. split; [|split].
  - intros Hs. unfold qcom_smem_alloc_private. fold phdr.
    rewrite Hs. reflexivity.
  - intros m' Hok Hsame.
    apply alloc_private_ignores_header_id; assumption.
  - intros host0 host1 Hbad.
    apply (partition_header_spec smem m entry host0 host1). tauto.
Qed.

Lemma poke_outside (bs : list Z) :
  forall (m : mem) (a x : Z),
    0 <= a -> a + Z.of_nat (length bs) <= two64 ->
    ~ (a <= x < a + Z.of_nat (length bs)) -> poke m a bs x = m x.
Proof.
  induction bs as [|b bs IH]; intros m a x H0 H1 Hx; [reflexivity|].
  cbn [poke]. cbn [length] in H1, Hx. rewrite Nat2Z.inj_succ in H1, Hx.
  rewrite IH by lia. unfold write8.
  rewrite Z.mod_small by lia.
  destruct (Z.eqb_spec x a); [lia | reflexivity].
Qed.

Lemma alloc_private_header_checks_witness :
  qcom_smem_alloc_private ex_smem ex_entry 10 8 (ex_header ex_tables 64 56)
  = (- EINVAL, ex_header ex_tables 64 56)
  /\ fst (qcom_smem_alloc_private ex_smem ex_entry 10 100 ex_mem_badhdr)
     = fst (qcom_smem_alloc_private ex_smem ex_entry 10 100 ex_mem)
  /\ qcom_smem_partition_header ex_smem ex_mem_badhdr ex_entry 0 5 = None.
Proof.
  split; [|split].
  - apply (alloc_private_header_checks ex_smem (ex_header ex_tables 64 56)
                                       ex_entry 10 8).
    vm_compute. reflexivity.
  - apply (alloc_private_header_checks ex_smem ex_mem ex_entry 10 100).
    + vm_compute. reflexivity.
    + intros x Hx. unfold ex_mem_badhdr. apply poke_outside.
      * vm_compute. discriminate.
      * vm_compute. discriminate.
      * exact Hx.
  - apply (alloc_private_header_checks ex_smem ex_mem_badhdr ex_entry 10 100).
    left. vm_compute. discriminate.
Defined.

(** ** Canaries *)

Lemma uncached_walk_corrupt (m : mem) (item end_ hdr e : Z) :
  uncached_visit m item end_ hdr e ->
  pe_canary m e <> SMEM_PRIVATE_CANARY ->
  uncached_walk m item hdr end_ = WCorrupt.
Proof.
  intros Hv Hbad.
  induction Hv as [e H1 H2 | hdr e H1 H2 Hc Hi Hn Hv IH];
    rewrite uncached_walk_eq.
  - apply Z.ltb_lt in H1, H2. rewrite H1, H2. cbn [andb].
    apply Z.eqb_neq in Hbad. rewrite Hbad. reflexivity.
  - apply Z.ltb_lt in H1, H2. rewrite H1, H2. cbn [andb].
    rewrite Hc, Z.eqb_refl. cbn [negb].
    apply Z.eqb_neq in Hi. rewrite Hi.
    destruct (Z.leb_spec (uncached_entry_next m hdr) hdr); [lia|].
    apply IH, Hbad.
Qed.

Lemma cached_walk_corrupt (m : mem) (item cacheline cached_end e0 e : Z) :
  cached_visit m item cacheline cached_end e0 e ->
  pe_canary m e <> SMEM_PRIVATE_CANARY ->
  cached_walk m item cacheline e0 cached_end = WCorrupt.
Proof.
  intros Hv Hbad.
  induction Hv as [e H1 | e0 e H1 Hc Hi Hn Hv IH]; rewrite cached_walk_eq.
  - apply Z.ltb_lt in H1. rewrite H1.
    apply Z.eqb_neq in Hbad. rewrite Hbad. reflexivity.
  - apply Z.ltb_lt in H1. rewrite H1.
    rewrite Hc, Z.eqb_refl. cbn [negb].
    apply Z.eqb_neq in Hi. rewrite Hi.
    destruct (Z.leb_spec e0 (cached_entry_next m e0 cacheline)); [lia|].
    apply IH, Hbad.
Qed.

(** C3: when the forward walk of an allocation or of a lookup, or the
    backward walk of a lookup, comes to an entry whose canary is not
    0xa5a5, the operation fails with [-EINVAL] and the allocation writes
    nothing; the walk stops at that entry ([WCorrupt]), whatever the
    entries after it hold. *)
Theorem canary_mismatch_aborts (smem : qcom_smem) (m : mem)
        (entry item size e : Z) :
  let phdr := ptable_entry_to_phdr smem m entry in
  let first := phdr_to_first_uncached_entry phdr in
  let uncached_end := phdr_to_last_uncached_entry m phdr in
  let cached_end := phdr_to_last_cached_entry m phdr in
  let cacheline := pte_cacheline m entry in
  pe_canary m e <> SMEM_PRIVATE_CANARY ->
  (uncached_visit m item uncached_end first e ->
   uncached_walk m item first uncached_end = WCorrupt
   /\ qcom_smem_alloc_private smem entry item size m = (- EINVAL, m)
   /\ qcom_smem_get_private smem entry item m = Err EINVAL)
  /\ (forall e0,
         uncached_walk m item first uncached_end = WDone e0 ->
         cached_end <> ptr_add phdr (pte_size m entry) ->
         cached_visit m item cacheline cached_end
                      (phdr_to_first_cached_entry m phdr cacheline) e ->
         cached_walk m item cacheline
                     (phdr_to_first_cached_entry m phdr cacheline) cached_end
         = WCorrupt
         /\ qcom_smem_get_private smem entry item m = Err EINVAL).
Proof.
  intros phdr first uncached_end cached_end cacheline Hbad.
  split.
  - intros Hv.
    pose proof (uncached_walk_corrupt m item uncached_end first e Hv Hbad)
      as Hw.
    split; [exact Hw|].
    unfold qcom_smem_alloc_private, qcom_smem_get_private.
    fold phdr. fold first. fold uncached_end. fold cached_end.
    rewrite Hw.
    destruct (negb (free_pointers_sane phdr uncached_end cached_end
                      (ptr_add phdr (pte_size m entry))));
      split; reflexivity.
  - intros e0 Hdone Hne Hv.
    pose proof (cached_walk_corrupt m item cacheline cached_end _ e Hv Hbad)
      as Hw.
    split; [exact Hw|].
    unfold qcom_smem_get_private.
    fold phdr. fold first. fold uncached_end. fold cached_end.
    fold cacheline.
    rewrite Hdone, Hw.
    destruct (negb (free_pointers_sane phdr uncached_end cached_end
                      (ptr_add phdr (pte_size m entry)))); [reflexivity|].
    destruct (uncached_end <? e0); [reflexivity|].
    destruct (Z.eqb_spec cached_end (ptr_add phdr (pte_size m entry)));
      [contradiction|].
    destruct (negb (IN_PARTITION_RANGE cached_end 0 uncached_end
                      (ptr_add phdr (pte_size m entry)))
              || negb (IN_PARTITION_RANGE
                         (phdr_to_first_cached_entry m phdr cacheline)
                         SIZEOF_PRIVATE_ENTRY cached_end
                         (ptr_add phdr (pte_size m entry))));
      reflexivity.
Qed.

Lemma canary_mismatch_aborts_witness :
  (qcom_smem_alloc_private ex_smem ex_entry 10 8 ex_mem_fwd_corrupt
   = (- EINVAL, ex_mem_fwd_corrupt)
   /\ qcom_smem_get_private ex_smem ex_entry 10 ex_mem_fwd_corrupt
      = Err EINVAL)
  /\ qcom_smem_get_private ex_smem ex_entry 10 ex_mem_bwd_corrupt
     = Err EINVAL.
Proof.
  split.
  - destruct (canary_mismatch_aborts ex_smem ex_mem_fwd_corrupt ex_entry 10 8
                                     (ex_phdr + 56)) as [Hfwd _].
    + vm_compute. discriminate.
    + destruct Hfwd as (_ & Ha & Hg); [|split; assumption].
      apply uv_next; try by_computation.
      apply uv_here; by_computation.
  - destruct (canary_mismatch_aborts ex_smem ex_mem_bwd_corrupt ex_entry 10 8
                                     (ex_phdr + 184)) as [_ Hbwd].
    + vm_compute. discriminate.
    + apply (Hbwd (ex_phdr + 32)).
      * vm_compute. reflexivity.
      * vm_compute. discriminate.
      * apply cv_next; try by_computation.
        apply cv_here; by_computation.
Defined.

(** * Further properties of the driver *)

(** ** What the walks return *)

Lemma uncached_walk_found (m : mem) (item end_ e : Z) :
  forall hdr,
    uncached_walk m item hdr end_ = WFound e ->
    hdr <= e /\ e < end_ /\ ptr_add e SIZEOF_PRIVATE_ENTRY < end_
    /\ pe_canary m e = SMEM_PRIVATE_CANARY /\ pe_item m e = item.
Proof.
  intros hdr. pattern hdr. apply (uncached_walk_ind end_). clear hdr.
  intros hdr IH Hw. rewrite uncached_walk_eq in Hw.
  destruct (Z.ltb_spec hdr end_) as [Hlt|]; [|discriminate].
  destruct (Z.ltb_spec (ptr_add hdr SIZEOF_PRIVATE_ENTRY) end_) as [Hlt2|];
    [|discriminate].
  cbn [andb] in Hw.
  destruct (Z.eqb_spec (pe_canary m hdr) SMEM_PRIVATE_CANARY) as [Hc|];
    [|discriminate].
  cbn [negb] in Hw.
  destruct (Z.eqb_spec (pe_item m hdr) item) as [Hi|].
  - injection Hw as <-. repeat split; assumption || lia.
  - destruct (Z.leb_spec (uncached_entry_next m hdr) hdr); [discriminate|].
    destruct (IH _ ltac:(eassumption) Hlt Hw) as (H1 & H2). split; [lia|].
    exact H2.
Qed.

(** Induction along the backward loop: the distance to the boundary. *)
Lemma cached_walk_ind (cached_end : Z) (P : Z -> Prop) :
  (forall e, (forall next, next < e -> cached_end < e -> P next) -> P e) ->
  forall e, P e.
Proof.
  intros Hstep.
  assert (H : forall (n : nat) e, (Z.to_nat (e - cached_end) <= n)%nat -> P e).
  { induction n as [|n IH]; intros e Hn; apply Hstep; intros next H1 H2.
    - lia.
    - apply IH. lia. }
  intros e. apply (H (Z.to_nat (e - cached_end))). lia.
Qed.

Lemma cached_walk_found (m : mem) (item cacheline cached_end e : Z) :
  forall e0,
    cached_walk m item cacheline e0 cached_end = WFound e ->
    cached_end < e /\ e <= e0
    /\ pe_canary m e = SMEM_PRIVATE_CANARY /\ pe_item m e = item.
Proof.
  intros e0. pattern e0. apply (cached_walk_ind cached_end). clear e0.
  intros e0 IH Hw. rewrite cached_walk_eq in Hw.
  destruct (Z.ltb_spec cached_end e0) as [Hlt|]; [|discriminate].
  destruct (Z.eqb_spec (pe_canary m e0) SMEM_PRIVATE_CANARY) as [Hc|];
    [|discriminate].
  cbn [negb] in Hw.
  destruct (Z.eqb_spec (pe_item m e0) item) as [Hi|].
  - injection Hw as <-. repeat split; assumption || lia.
  - destruct (Z.leb_spec e0 (cached_entry_next m e0 cacheline));
      [discriminate|].
    destruct (IH _ ltac:(eassumption) Hlt Hw) as (H1 & H2 & H3).
    repeat split; try tauto; lia.
Qed.

(** The facts a passed sanity check gives about the three pointers. *)
Lemma sane_pointers (smem : qcom_smem) (m : mem) (entry : Z) :
  let phdr := ptable_entry_to_phdr smem m entry in
  partition_okb smem m entry = true ->
  free_pointers_sane phdr (phdr_to_last_uncached_entry m phdr)
                     (phdr_to_last_cached_entry m phdr)
                     (ptr_add phdr (pte_size m entry)) = true ->
  0 <= phdr
  /\ phdr_to_last_uncached_entry m phdr
     = phdr + phdr_offset_free_uncached m phdr
  /\ phdr_to_last_cached_entry m phdr = phdr + phdr_offset_free_cached m phdr
  /\ ptr_add phdr (pte_size m entry) = phdr + pte_size m entry
  /\ phdr_to_first_uncached_entry phdr = phdr + 32
  /\ 0 <= phdr_offset_free_uncached m phdr <= phdr_offset_free_cached m phdr
  /\ phdr_offset_free_cached m phdr <= pte_size m entry
  /\ 32 <= pte_size m entry < two32
  /\ phdr + pte_size m entry + 4095 <= two64.
Proof.
  intros phdr Hok Hsane.
  destruct (partition_ok_facts smem m entry Hok)
    as (_ & Hp0 & Hp1 & He0 & He1 & Hdisj).
  pose proof (partition_ok_header smem m entry Hok) as Hhdr.
  fold phdr in Hp0, Hp1, Hdisj. unfold SIZEOF_PARTITION_HEADER in Hhdr.
  pose proof (le32_range m (phdr + 12)) as HU.
  pose proof (le32_range m (phdr + 16)) as HC.
  pose proof (le32_range m (entry + 4)) as HP.
  fold (phdr_offset_free_uncached m phdr) in HU.
  fold (phdr_offset_free_cached m phdr) in HC.
  fold (pte_size m entry) in HP, Hp1, Hdisj, Hhdr.
  unfold phdr_to_last_cached_entry, phdr_to_last_uncached_entry in *.
  rewrite free_pointers_sane_offsets in Hsane by lia.
  apply andb_true_iff in Hsane. destruct Hsane as [HUC HCP].
  apply Z.leb_le in HUC, HCP.
  unfold phdr_to_first_uncached_entry, SIZEOF_PARTITION_HEADER.
  rewrite !ptr_add_small by lia.
  repeat split; lia.
Qed.

Lemma in_partition_range_spec (p sz start end_ : Z) :
  0 <= p < two64 -> 0 <= sz < two64 ->
  IN_PARTITION_RANGE p sz start end_ = true ->
  start <= p /\ p + sz <= end_ /\ ptr_add p sz = p + sz.
Proof.
  intros Hp Hs. unfold IN_PARTITION_RANGE.
  rewrite !andb_true_iff, !Z.leb_le. intros [[H1 H2] H3].
  assert (ptr_add p sz = p + sz) by mlia.
  lia.
Qed.

(** The entry behind a successful private lookup. *)
Lemma get_private_result (smem : qcom_smem) (m : mem)
        (entry item p sz : Z) :
  let phdr := ptable_entry_to_phdr smem m entry in
  partition_okb smem m entry = true ->
  qcom_smem_get_private smem entry item m = Ok (p, sz) ->
  exists e,
    pe_canary m e = SMEM_PRIVATE_CANARY /\ pe_item m e = item
    /\ sz = pe_size m e - pe_padding_data m e /\ 0 < sz
    /\ (p = e + SIZEOF_PRIVATE_ENTRY + pe_padding_hdr m e
        \/ p = e - pe_size m e)
    /\ phdr <= p /\ p + sz <= phdr + pte_size m entry.
Proof.
  intros phdr Hok. unfold qcom_smem_get_private. fold phdr.
  destruct (free_pointers_sane phdr (phdr_to_last_uncached_entry m phdr)
              (phdr_to_last_cached_entry m phdr)
              (ptr_add phdr (pte_size m entry))) eqn:Hsane;
    [|discriminate].
  destruct (sane_pointers smem m entry Hok Hsane)
    as (Hp0 & Hend & Hcach & Hpend & Hfirst & HUC & HCP & HP & Htop).
  fold phdr in Hp0, Hend, Hcach, Hpend, Hfirst, HUC, HCP, Htop.
  cbn [negb]. rewrite Hend, Hcach, Hpend, Hfirst.
  set (U := phdr_offset_free_uncached m phdr) in *.
  set (C := phdr_offset_free_cached m phdr) in *.
  set (P := pte_size m entry) in *.
  destruct (uncached_walk m item (phdr + 32) (phdr + U)) as [|e| |e0] eqn:Hw;
    try discriminate.
  - (* found in the forward list *)
    destruct (uncached_walk_found m item _ e _ Hw) as (H1 & H2 & H3 & Hc & Hi).
    unfold entry_payload.
    pose proof (le32_range m (e + 4)) as Hsz.
    pose proof (le16_range m (e + 8)) as Hpd.
    pose proof (le16_range m (e + 10)) as Hph.
    fold (pe_size m e) in Hsz. fold (pe_padding_data m e) in Hpd.
    fold (pe_padding_hdr m e) in Hph.
    destruct (Z.ltb_spec (pe_size m e) P); [|discriminate].
    destruct (Z.ltb_spec (pe_padding_data m e) (pe_size m e));
      [|discriminate].
    cbn [andb].
    destruct (IN_PARTITION_RANGE (uncached_entry_to_item m e)
                (pe_size m e - pe_padding_data m e) e (phdr + U)) eqn:Hr;
      [|discriminate].
    cbn [negb]. intros Heq. injection Heq as <- <-.
    assert (Hpr : 0 <= uncached_entry_to_item m e < two64)
      by (apply ptr_add_range).
    assert (Hsr : 0 <= pe_size m e - pe_padding_data m e < two64) by lia.
    destruct (in_partition_range_spec _ _ _ _ Hpr Hsr Hr)
      as (Hr1 & Hr2 & _).
    assert (Hitem : uncached_entry_to_item m e
                    = e + SIZEOF_PRIVATE_ENTRY + pe_padding_hdr m e).
    { revert Hr1. unfold uncached_entry_to_item. mlia. }
    exists e. repeat split; try assumption; try lia.
  - (* the forward walk is done: the backward list *)
    destruct (phdr + U <? e0); [discriminate|].
    destruct (phdr + C =? phdr + P); [discriminate|].
    set (e1 := phdr_to_first_cached_entry m phdr (pte_cacheline m entry)).
    destruct (IN_PARTITION_RANGE (phdr + C) 0 (phdr + U) (phdr + P));
      [|discriminate].
    destruct (IN_PARTITION_RANGE e1 SIZEOF_PRIVATE_ENTRY (phdr + C)
                                 (phdr + P)) eqn:Hr1; [|discriminate].
    cbn [negb orb].
    assert (He1 : 0 <= e1 < two64) by (apply ptr_sub_range).
    assert (H16 : 0 <= SIZEOF_PRIVATE_ENTRY < two64)
      by (unfold SIZEOF_PRIVATE_ENTRY; lia).
    destruct (in_partition_range_spec _ _ _ _ He1 H16 Hr1) as (Ha & Hb & _).
    unfold SIZEOF_PRIVATE_ENTRY in Hb.
    destruct (cached_walk m item (pte_cacheline m entry) e1 (phdr + C))
      as [|e| |e2] eqn:Hcw; try discriminate.
    + destruct (cached_walk_found m item _ _ e _ Hcw) as (H1 & H2 & Hc & Hi).
      unfold entry_payload.
      pose proof (le32_range m (e + 4)) as Hsz.
      pose proof (le16_range m (e + 8)) as Hpd.
      fold (pe_size m e) in Hsz. fold (pe_padding_data m e) in Hpd.
      destruct (Z.ltb_spec (pe_size m e) P); [|discriminate].
      destruct (Z.ltb_spec (pe_padding_data m e) (pe_size m e));
        [|discriminate].
      cbn [andb].
      destruct (IN_PARTITION_RANGE (cached_entry_to_item m e)
                  (pe_size m e - pe_padding_data m e) (phdr + C) e) eqn:Hr;
        [|discriminate].
      cbn [negb]. intros Heq. injection Heq as <- <-.
      assert (Hpr : 0 <= cached_entry_to_item m e < two64)
        by (apply ptr_sub_range).
      assert (Hsr : 0 <= pe_size m e - pe_padding_data m e < two64) by lia.
      destruct (in_partition_range_spec _ _ _ _ Hpr Hsr Hr)
        as (Hr2 & Hr3 & _).
      assert (Hitem : cached_entry_to_item m e = e - pe_size m e).
      { revert Hr2 Hr3. unfold cached_entry_to_item. mlia. }
      exists e. repeat split; try assumption; try lia.
    + destruct (e2 <? phdr); discriminate.
Qed.

(** X1: what a private lookup returns is sound.  In a well-placed
    partition, when [qcom_smem_get_private] returns a pointer and a size,
    some entry with the canary holds the requested item, the size is the
    entry's stored size minus its data padding and is above zero, the
    pointer is the data address of that entry (after the header and its
    padding in the forward list, the stored size before the header in the
    backward list), and the returned bytes lie inside the partition. *)
Theorem get_private_sound (smem : qcom_smem) (m : mem)
        (entry item p sz : Z) :
  let phdr := ptable_entry_to_phdr smem m entry in
  partition_okb smem m entry = true ->
  qcom_smem_get_private smem entry item m = Ok (p, sz) ->
  exists e,
    pe_canary m e = SMEM_PRIVATE_CANARY /\ pe_item m e = item
    /\ sz = pe_size m e - pe_padding_data m e /\ 0 < sz
    /\ (p = e + SIZEOF_PRIVATE_ENTRY + pe_padding_hdr m e
        \/ p = e - pe_size m e)
    /\ phdr <= p /\ p + sz <= phdr + pte_size m entry.
Proof.
  exact (get_private_result smem m entry item p sz).
Qed.

Lemma get_private_sound_witness :
  (exists e,
      pe_canary ex_mem_boot e = SMEM_PRIVATE_CANARY /\ pe_item ex_mem_boot e = 3
      /\ 16 = pe_size ex_mem_boot e - pe_padding_data ex_mem_boot e /\ 0 < 16
      /\ (ex_phdr + 48 = e + SIZEOF_PRIVATE_ENTRY + pe_padding_hdr ex_mem_boot e
          \/ ex_phdr + 48 = e - pe_size ex_mem_boot e)
      /\ ptable_entry_to_phdr ex_smem ex_mem_boot ex_entry <= ex_phdr + 48
      /\ ex_phdr + 48 + 16
         <= ptable_entry_to_phdr ex_smem ex_mem_boot ex_entry
            + pte_size ex_mem_boot ex_entry)
  /\ (exists e,
         pe_canary ex_mem_cached e = SMEM_PRIVATE_CANARY
         /\ pe_item ex_mem_cached e = 10
         /\ 8 = pe_size ex_mem_cached e - pe_padding_data ex_mem_cached e
         /\ 0 < 8
         /\ (ex_phdr + 216
             = e + SIZEOF_PRIVATE_ENTRY + pe_padding_hdr ex_mem_cached e
             \/ ex_phdr + 216 = e - pe_size ex_mem_cached e)
         /\ ptable_entry_to_phdr ex_smem ex_mem_cached ex_entry
            <= ex_phdr + 216
         /\ ex_phdr + 216 + 8
            <= ptable_entry_to_phdr ex_smem ex_mem_cached ex_entry
               + pte_size ex_mem_cached ex_entry).
Proof.
  split.
  - apply (get_private_sound ex_smem ex_mem_boot ex_entry 3 (ex_phdr + 48) 16);
      by_computation.
  - apply (get_private_sound ex_smem ex_mem_cached ex_entry 10
                             (ex_phdr + 216) 8); by_computation.
Defined.

(** The forward walk stops at the first visited entry that holds the
    item. *)
Lemma uncached_walk_finds (m : mem) (item end_ hdr e : Z) :
  uncached_visit m item end_ hdr e ->
  pe_canary m e = SMEM_PRIVATE_CANARY -> pe_item m e = item ->
  uncached_walk m item hdr end_ = WFound e.
Proof.
  intros Hv Hc Hi.
  induction Hv as [e H1 H2 | hdr e H1 H2 Hc0 Hi0 Hn Hv IH];
    rewrite uncached_walk_eq.
  - apply Z.ltb_lt in H1, H2. rewrite H1, H2. cbn [andb].
    rewrite Hc, Hi, !Z.eqb_refl. reflexivity.
  - apply Z.ltb_lt in H1, H2. rewrite H1, H2. cbn [andb].
    rewrite Hc0, Z.eqb_refl. cbn [negb].
    apply Z.eqb_neq in Hi0. rewrite Hi0.
    destruct (Z.leb_spec (uncached_entry_next m hdr) hdr); [lia|].
    apply IH; assumption.
Qed.

(** X2: an item the forward list holds is never reported missing and
    never allocated again.  When the forward walk of a partition comes to
    an entry with the canary that holds the item, the lookup returns that
    entry's data address and its size without padding, or fails with
    [EINVAL] (free pointers, sizes or bounds rejected), but never with
    [ENOENT]; the allocation of that item fails with [-EEXIST] or
    [-EINVAL] and writes nothing. *)
Theorem forward_item_is_seen (smem : qcom_smem) (m : mem)
        (entry item size e : Z) :
  let phdr := ptable_entry_to_phdr smem m entry in
  uncached_visit m item (phdr_to_last_uncached_entry m phdr)
                 (phdr_to_first_uncached_entry phdr) e ->
  pe_canary m e = SMEM_PRIVATE_CANARY -> pe_item m e = item ->
  (qcom_smem_get_private smem entry item m
   = Ok (uncached_entry_to_item m e, pe_size m e - pe_padding_data m e)
   \/ qcom_smem_get_private smem entry item m = Err EINVAL)
  /\ (qcom_smem_alloc_private smem entry item size m = (- EEXIST, m)
      \/ qcom_smem_alloc_private smem entry item size m = (- EINVAL, m)).
Proof.
  intros phdr Hv Hc Hi.
  pose proof (uncached_walk_finds m item _ _ e Hv Hc Hi) as Hw.
  unfold qcom_smem_get_private, qcom_smem_alloc_private. fold phdr.
  rewrite Hw.
  destruct (negb (free_pointers_sane phdr
                    (phdr_to_last_uncached_entry m phdr)
                    (phdr_to_last_cached_entry m phdr)
                    (ptr_add phdr (pte_size m entry)))); [auto|].
  split; [|left; reflexivity].
  unfold entry_payload.
  destruct ((pe_size m e <? pte_size m entry)
            && (pe_padding_data m e <? pe_size m e)); [|auto].
  destruct (negb (IN_PARTITION_RANGE (uncached_entry_to_item m e)
                    (pe_size m e - pe_padding_data m e) e
                    (phdr_to_last_uncached_entry m phdr))); auto.
Qed.

Lemma forward_item_is_seen_witness :
  (qcom_smem_get_private ex_smem ex_entry 3 ex_mem_boot
   = Ok (uncached_entry_to_item ex_mem_boot (ex_phdr + 32),
         pe_size ex_mem_boot (ex_phdr + 32)
         - pe_padding_data ex_mem_boot (ex_phdr + 32))
   \/ qcom_smem_get_private ex_smem ex_entry 3 ex_mem_boot = Err EINVAL)
  /\ (qcom_smem_alloc_private ex_smem ex_entry 3 8 ex_mem_boot
      = (- EEXIST, ex_mem_boot)
      \/ qcom_smem_alloc_private ex_smem ex_entry 3 8 ex_mem_boot
         = (- EINVAL, ex_mem_boot)).
Proof.
  apply (forward_item_is_seen ex_smem ex_mem_boot ex_entry 3 8 (ex_phdr + 32)).
  - apply uv_here; by_computation.
  - by_computation.
  - by_computation.
Defined.

(** ** What the private operations read and write *)

Lemma cached_walk_same (m m' : mem) (item cacheline cached_end hi : Z) :
  0 <= cached_end -> hi <= two64 ->
  same_on cached_end hi m m' ->
  forall e,
    e + 16 <= hi ->
    cached_walk m' item cacheline e cached_end
    = cached_walk m item cacheline e cached_end.
Proof.
  intros H0 Hhi Hsame e. pattern e. apply (cached_walk_ind cached_end).
  clear e. intros e IH He.
  rewrite (cached_walk_eq m'), (cached_walk_eq m).
  destruct (Z.ltb_spec cached_end e) as [Hlt|]; [|reflexivity].
  assert (Hc : pe_canary m' e = pe_canary m e)
    by (apply (same_on_read16 cached_end hi); (assumption || lia)).
  assert (Hi : pe_item m' e = pe_item m e)
    by (apply (same_on_read16 cached_end hi); (assumption || lia)).
  assert (Hn : cached_entry_next m' e cacheline
               = cached_entry_next m e cacheline).
  { unfold cached_entry_next, pe_size.
    rewrite (same_on_read32 cached_end hi m m') by (assumption || lia).
    reflexivity. }
  rewrite Hc, Hi, Hn.
  destruct (negb (pe_canary m e =? SMEM_PRIVATE_CANARY)); [reflexivity|].
  destruct (pe_item m e =? item); [reflexivity|].
  destruct (Z.leb_spec e (cached_entry_next m e cacheline)); [reflexivity|].
  apply IH; lia.
Qed.

(** The fields of an item entry inside a range two memories share. *)
Lemma private_entry_same (m m' : mem) (lo hi e : Z) :
  same_on lo hi m m' -> 0 <= lo -> hi <= two64 -> lo <= e -> e + 12 <= hi ->
  pe_size m' e = pe_size m e
  /\ pe_padding_data m' e = pe_padding_data m e
  /\ pe_padding_hdr m' e = pe_padding_hdr m e.
Proof.
  intros Hs H0 Hhi Hlo He. unfold pe_size, pe_padding_data, pe_padding_hdr.
  rewrite (same_on_read32 lo hi m m') by (assumption || lia).
  rewrite !(same_on_read16 lo hi m m') by (assumption || lia).
  auto.
Qed.

(** X3: a private lookup reads only the table entry and the partition.
    In a well-placed partition its result, pointer, size or error, is the
    same on any two memories that agree on the 48 bytes of the table entry
    and on the bytes of the partition. *)
Theorem get_private_reads_partition_only (smem : qcom_smem) (m m' : mem)
        (entry item : Z) :
  let phdr := ptable_entry_to_phdr smem m entry in
  partition_okb smem m entry = true ->
  same_on entry (entry + SIZEOF_PTABLE_ENTRY) m m' ->
  same_on phdr (phdr + pte_size m entry) m m' ->
  qcom_smem_get_private smem entry item m'
  = qcom_smem_get_private smem entry item m.
Proof.
  intros phdr Hok Hent Hpart. unfold SIZEOF_PTABLE_ENTRY in Hent.
  destruct (partition_ok_facts smem m entry Hok)
    as (_ & Hp0 & Hp1 & He0 & He1 & Hdisj).
  pose proof (partition_ok_header smem m entry Hok) as Hhdr.
  fold phdr in Hp0, Hp1, Hdisj. unfold SIZEOF_PARTITION_HEADER in Hhdr.
  set (P := pte_size m entry) in *.
  assert (Hoff : pte_offset m' entry = pte_offset m entry)
    by (apply (same_on_read32 entry (entry + 48)); assumption || lia).
  assert (Hps : pte_size m' entry = P)
    by (apply (same_on_read32 entry (entry + 48)); assumption || lia).
  assert (Hcl : pte_cacheline m' entry = pte_cacheline m entry)
    by (apply (same_on_read32 entry (entry + 48)); assumption || lia).
  assert (HU : phdr_offset_free_uncached m' phdr
               = phdr_offset_free_uncached m phdr)
    by (apply (same_on_read32 phdr (phdr + P)); assumption || lia).
  assert (HC : phdr_offset_free_cached m' phdr
               = phdr_offset_free_cached m phdr)
    by (apply (same_on_read32 phdr (phdr + P)); assumption || lia).
  assert (HS : phdr_size m' phdr = phdr_size m phdr)
    by (apply (same_on_read32 phdr (phdr + P)); assumption || lia).
  unfold qcom_smem_get_private.
  rewrite (ptable_entry_to_phdr_same smem m m' entry Hoff). fold phdr.
  unfold phdr_to_last_uncached_entry, phdr_to_last_cached_entry,
    phdr_to_first_cached_entry.
  rewrite Hps, Hcl, HU, HC, HS. fold P.
  fold (phdr_to_last_uncached_entry m phdr).
  fold (phdr_to_last_cached_entry m phdr).
  fold (phdr_to_first_cached_entry m phdr (pte_cacheline m entry)).
  destruct (free_pointers_sane phdr (phdr_to_last_uncached_entry m phdr)
              (phdr_to_last_cached_entry m phdr) (ptr_add phdr P)) eqn:Hsane;
    [|reflexivity].
  cbn [negb].
  destruct (sane_pointers smem m entry Hok Hsane)
    as (_ & Hend & Hcach & Hpend & Hfirst & HUC & HCP & HP & Htop).
  fold phdr in Hend, Hcach, Hpend, Hfirst, HUC, HCP, Htop.
  fold P in Hpend, HCP, HP, Htop.
  rewrite Hend, Hcach, Hpend, Hfirst in *.
  set (U := phdr_offset_free_uncached m phdr) in *.
  set (C := phdr_offset_free_cached m phdr) in *.
  assert (Hw : uncached_walk m' item (phdr + 32) (phdr + U)
               = uncached_walk m item (phdr + 32) (phdr + U)).
  { apply uncached_walk_same; try lia.
    eapply same_on_sub; [exact Hpart | lia | lia]. }
  rewrite Hw.
  destruct (uncached_walk m item (phdr + 32) (phdr + U)) as [|e| |e0] eqn:Hwm;
    try reflexivity.
  - destruct (uncached_walk_found m item _ e _ Hwm) as (H1 & H2 & H3 & _).
    assert (H16 : e + 16 < phdr + U) by (revert H3; mlia).
    destruct (private_entry_same m m' phdr (phdr + P) e Hpart)
      as (Hsz & Hpd & Hph); try lia.
    unfold entry_payload, uncached_entry_to_item.
    rewrite Hsz, Hpd, Hph. reflexivity.
  - destruct (phdr + U <? e0); [reflexivity|].
    destruct (phdr + C =? phdr + P); [reflexivity|].
    set (e1 := phdr_to_first_cached_entry m phdr (pte_cacheline m entry)).
    destruct (IN_PARTITION_RANGE (phdr + C) 0 (phdr + U) (phdr + P));
      [|reflexivity].
    destruct (IN_PARTITION_RANGE e1 SIZEOF_PRIVATE_ENTRY (phdr + C)
                                 (phdr + P)) eqn:Hr1; [|reflexivity].
    cbn [negb orb].
    assert (He1r : 0 <= e1 < two64) by (apply ptr_sub_range).
    assert (H16 : 0 <= SIZEOF_PRIVATE_ENTRY < two64)
      by (unfold SIZEOF_PRIVATE_ENTRY; lia).
    destruct (in_partition_range_spec _ _ _ _ He1r H16 Hr1) as (Ha & Hb & _).
    unfold SIZEOF_PRIVATE_ENTRY in Hb.
    assert (Hcw : cached_walk m' item (pte_cacheline m entry) e1 (phdr + C)
                  = cached_walk m item (pte_cacheline m entry) e1 (phdr + C)).
    { apply (cached_walk_same m m' item _ (phdr + C) (phdr + P)); try lia.
      eapply same_on_sub; [exact Hpart | lia | lia]. }
    rewrite Hcw.
    destruct (cached_walk m item (pte_cacheline m entry) e1 (phdr + C))
      as [|e| |e2] eqn:Hcwm; try reflexivity.
    destruct (cached_walk_found m item _ _ e _ Hcwm) as (H1 & H2 & _).
    destruct (private_entry_same m m' phdr (phdr + P) e Hpart)
      as (Hsz & Hpd & Hph); try lia.
    unfold entry_payload, cached_entry_to_item.
    rewrite Hsz, Hpd. reflexivity.
Qed.

(** The header address and the size of the example partition, by
    evaluation. *)
Lemma ex_phdr_eq (m : mem) :
  pte_offset m ex_entry = 4096 ->
  ptable_entry_to_phdr ex_smem m ex_entry = ex_phdr.
Proof.
  intros H. unfold ptable_entry_to_phdr. rewrite H. reflexivity.
Qed.

Lemma get_private_reads_partition_only_witness :
  qcom_smem_get_private ex_smem ex_entry 3
                        (poke ex_mem_boot (ex_phdr + 256) [1; 2; 3; 4])
  = qcom_smem_get_private ex_smem ex_entry 3 ex_mem_boot.
Proof.
  apply (get_private_reads_partition_only ex_smem ex_mem_boot).
  - vm_compute. reflexivity.
  - intros x Hx. apply poke_outside.
    + vm_compute. discriminate.
    + vm_compute. discriminate.
    + revert Hx.
      unfold SIZEOF_PTABLE_ENTRY, ex_entry, ex_table, ex_phdr, ex_base.
      cbn [length]. lia.
  - intros x Hx. apply poke_outside.
    + vm_compute. discriminate.
    + vm_compute. discriminate.
    + revert Hx.
      rewrite (ex_phdr_eq ex_mem_boot) by (vm_compute; reflexivity).
      replace (pte_size ex_mem_boot ex_entry) with 256
        by (vm_compute; reflexivity).
      unfold ex_phdr, ex_base. cbn [length]. lia.
Defined.

(** X4: a private allocation writes only inside its partition.  In a
    well-placed partition, for a request whose address computation does
    not wrap, every byte outside the forward free offset of the header
    (bytes 12 to 15) and outside the part of the partition after its
    header is the same after the call as before, whatever the call
    returns: the table, the other partitions, and the magic, hosts, size
    and backward free offset of the header are never written. *)
Theorem alloc_private_writes_inside (smem : qcom_smem) (m : mem)
        (entry item size : Z) :
  let phdr := ptable_entry_to_phdr smem m entry in
  let p_end := ptr_add phdr (pte_size m entry) in
  partition_okb smem m entry = true ->
  0 <= size -> p_end + SIZEOF_PRIVATE_ENTRY + size + 7 < two64 ->
  forall x,
    ~ (phdr + 12 <= x < phdr + 16) ->
    ~ (phdr + SIZEOF_PARTITION_HEADER <= x < p_end) ->
    snd (qcom_smem_alloc_private smem entry item size m) x = m x.
Proof.
  intros phdr p_end Hok Hsize Hwrap x Hx1 Hx2.
  unfold qcom_smem_alloc_private. fold phdr.
  destruct (free_pointers_sane phdr (phdr_to_last_uncached_entry m phdr)
              (phdr_to_last_cached_entry m phdr)
              (ptr_add phdr (pte_size m entry))) eqn:Hsane;
    [|reflexivity].
  cbn [negb].
  destruct (sane_pointers smem m entry Hok Hsane)
    as (Hp0 & Hend & Hcach & Hpend & Hfirst & HUC & HCP & HP & Htop).
  fold phdr in Hp0, Hend, Hcach, Hpend, Hfirst, HUC, HCP, Htop.
  unfold p_end in *. rewrite Hend, Hcach, Hfirst. rewrite Hpend in *.
  set (U := phdr_offset_free_uncached m phdr) in *.
  set (C := phdr_offset_free_cached m phdr) in *.
  set (P := pte_size m entry) in *.
  unfold SIZEOF_PRIVATE_ENTRY, SIZEOF_PARTITION_HEADER in *.
  destruct (uncached_walk m item (phdr + 32) (phdr + U)) as [|e| |hdr] eqn:Hw;
    try reflexivity.
  destruct (Z.ltb_spec (phdr + U) hdr) as [|Hle]; [reflexivity|].
  apply uncached_walk_done_ge in Hw.
  assert (Halign : ALIGN size 8 = round_up8 size)
    by (apply ALIGN_8_round_up; lia).
  pose proof (round_up8_bounds size) as Hru.
  rewrite Halign.
  assert (Hasz : size_t (16 + round_up8 size) = 16 + round_up8 size)
    by (unfold size_t; apply Z.mod_small; lia).
  rewrite Hasz.
  rewrite (ptr_add_small hdr) by lia.
  destruct (Z.ltb_spec (phdr + C) (hdr + (16 + round_up8 size)));
    [reflexivity|].
  cbn [snd]. unfold le32_add_cpu.
  rewrite cpu_to_le32_outside by lia.
  rewrite !cpu_to_le16_outside by lia.
  rewrite cpu_to_le32_outside by lia.
  rewrite !cpu_to_le16_outside by lia.
  reflexivity.
Qed.

Lemma alloc_private_writes_inside_witness :
  snd (qcom_smem_alloc_private ex_smem ex_entry 10 100 ex_mem) (ex_phdr + 16)
  = ex_mem (ex_phdr + 16)
  /\ snd (qcom_smem_alloc_private ex_smem ex_entry 10 100 ex_mem) ex_entry
     = ex_mem ex_entry.
Proof.
  assert (Hp : ptable_entry_to_phdr ex_smem ex_mem ex_entry = ex_phdr)
    by (apply ex_phdr_eq; vm_compute; reflexivity).
  assert (He : ptr_add ex_phdr (pte_size ex_mem ex_entry) = ex_phdr + 256)
    by (vm_compute; reflexivity).
  split;
    apply (alloc_private_writes_inside ex_smem ex_mem ex_entry 10 100);
    try (vm_compute; reflexivity); try lia;
    rewrite ?Hp, ?He;
    unfold SIZEOF_PRIVATE_ENTRY, SIZEOF_PARTITION_HEADER, ex_entry, ex_table,
      ex_phdr, ex_base; lia.
Defined.

(** ** An allocation and the other items *)

(** A list that a walk for one item passes to its end is passed the same
    way by the walk for any other item, unless that walk finds its item. *)
Lemma uncached_walk_other (m : mem) (item item' end_ : Z) :
  forall hdr,
    uncached_walk m item hdr end_ = WDone end_ ->
    uncached_walk m item' hdr end_ = WDone end_
    \/ exists e, uncached_walk m item' hdr end_ = WFound e.
Proof.
  intros hdr. pattern hdr. apply (uncached_walk_ind end_). clear hdr.
  intros hdr IH Hw. rewrite uncached_walk_eq in Hw.
  rewrite (uncached_walk_eq m item').
  destruct ((hdr <? end_) && (ptr_add hdr SIZEOF_PRIVATE_ENTRY <? end_))
    eqn:Hc; [|left; exact Hw].
  apply andb_true_iff in Hc. destruct Hc as [Hlt _]. apply Z.ltb_lt in Hlt.
  destruct (negb (pe_canary m hdr =? SMEM_PRIVATE_CANARY)); [discriminate|].
  destruct (pe_item m hdr =? item); [discriminate|].
  destruct (pe_item m hdr =? item'); [right; eexists; reflexivity|].
  destruct (Z.leb_spec (uncached_entry_next m hdr) hdr); [discriminate|].
  apply IH; assumption.
Qed.

Lemma uncached_walk_found_extend (m : mem) (item end_ end' e : Z) :
  end_ <= end' ->
  forall hdr,
    uncached_walk m item hdr end_ = WFound e ->
    uncached_walk m item hdr end' = WFound e.
Proof.
  intros Hle hdr. pattern hdr. apply (uncached_walk_ind end_). clear hdr.
  intros hdr IH Hw. rewrite uncached_walk_eq in Hw.
  rewrite (uncached_walk_eq m item hdr end').
  destruct (Z.ltb_spec hdr end_) as [Hlt|]; [|discriminate].
  destruct (Z.ltb_spec (ptr_add hdr SIZEOF_PRIVATE_ENTRY) end_) as [Hlt2|];
    [|discriminate].
  cbn [andb] in Hw.
  destruct (Z.ltb_spec hdr end'); [|lia].
  destruct (Z.ltb_spec (ptr_add hdr SIZEOF_PRIVATE_ENTRY) end'); [|lia].
  cbn [andb].
  destruct (negb (pe_canary m hdr =? SMEM_PRIVATE_CANARY)); [discriminate|].
  destruct (pe_item m hdr =? item); [exact Hw|].
  destruct (Z.leb_spec (uncached_entry_next m hdr) hdr); [discriminate|].
  apply IH; assumption.
Qed.

Lemma in_partition_range_true (p sz start end_ : Z) :
  0 <= sz -> start <= p -> 0 <= p -> p + sz <= end_ -> p + sz < two64 ->
  IN_PARTITION_RANGE p sz start end_ = true.
Proof.
  intros. unfold IN_PARTITION_RANGE.
  rewrite ptr_add_small by lia.
  rewrite !andb_true_iff, !Z.leb_le. lia.
Qed.

(** X5: a successful allocation leaves the lookups of the other items as
    they were.  In a well-placed partition whose forward list ends at the
    free boundary, after the allocation of an item that fits, every other
    item that the lookup returned before is returned with the same pointer
    and size, and every other item that was not found ([ENOENT]) is still
    not found. *)
Theorem alloc_keeps_other_items (smem : qcom_smem) (m : mem)
        (entry item item' size : Z) :
  let phdr := ptable_entry_to_phdr smem m entry in
  let end_ := phdr_to_last_uncached_entry m phdr in
  let cached := phdr_to_last_cached_entry m phdr in
  let m' := snd (qcom_smem_alloc_private smem entry item size m) in
  partition_okb smem m entry = true ->
  free_pointers_sane phdr end_ cached (ptr_add phdr (pte_size m entry))
  = true ->
  uncached_walk m item (phdr_to_first_uncached_entry phdr) end_
  = WDone end_ ->
  0 <= size -> 0 <= item < two16 -> item' <> item ->
  end_ + SIZEOF_PRIVATE_ENTRY + round_up8 size <= cached ->
  fst (qcom_smem_alloc_private smem entry item size m) = 0
  /\ (forall r, qcom_smem_get_private smem entry item' m = Ok r ->
                qcom_smem_get_private smem entry item' m' = Ok r)
  /\ (qcom_smem_get_private smem entry item' m = Err ENOENT ->
      qcom_smem_get_private smem entry item' m' = Err ENOENT).
Proof.
  intros phdr end_ cached m' Hok Hsane Hwalk Hsize Hitem Hne Hfit.
  pose proof (fit_no_wrap smem m entry size Hok Hsane Hfit) as Hwrap.
  destruct (alloc_private_boundary smem m entry item size Hok Hsane Hwalk
                                   Hsize Hwrap) as [_ Hgo].
  destruct (Hgo Hfit) as (m1 & Heq & Hall).
  unfold m'. rewrite Heq. cbn [fst snd]. clear m' Hgo Heq.
  split; [reflexivity|].
  destruct (partition_ok_facts smem m entry Hok)
    as (_ & _ & _ & He0 & He1 & Hdisj).
  destruct (sane_pointers smem m entry Hok Hsane)
    as (Hp0 & Hend & Hcach & Hpend & Hfirst & HUC & HCP & HP & Htop).
  fold phdr in Hp0, Hend, Hcach, Hpend, Hfirst, HUC, HCP, Htop, Hdisj.
  fold end_ in Hend, Hall. fold cached in Hcach.
  pose proof (round_up8_bounds size) as Hru.
  unfold SIZEOF_PRIVATE_ENTRY in Hfit.
  set (U := phdr_offset_free_uncached m phdr) in *.
  set (C := phdr_offset_free_cached m phdr) in *.
  set (P := pte_size m entry) in *.
  assert (Ephdr : ptable_entry_to_phdr smem m entry = phdr) by reflexivity.
  assert (Eend : phdr_to_last_uncached_entry m phdr = end_) by reflexivity.
  assert (Ecach : phdr_to_last_cached_entry m phdr = cached) by reflexivity.
  clearbody cached end_ phdr.
  rewrite Ephdr in Hall. rewrite Eend in Hall.
  assert (Hfst : phdr + 32 <= end_).
  { apply uncached_walk_done_ge in Hwalk. lia. }
  assert (Hent : same_on entry (entry + 48) m m1)
    by (eapply allocated_same_on; [eassumption | lia | lia]).
  assert (Hhd : same_on (phdr + 16) (phdr + 20) m m1)
    by (eapply allocated_same_on; [eassumption | lia | lia]).
  assert (Hsz8 : same_on (phdr + 8) (phdr + 12) m m1)
    by (eapply allocated_same_on; [eassumption | lia | lia]).
  assert (Hlist : same_on (phdr + 32) end_ m m1)
    by (eapply allocated_same_on; [eassumption | lia | lia]).
  assert (Hback : same_on cached (phdr + P) m m1)
    by (eapply allocated_same_on; [eassumption | lia | lia]).
  destruct Hall as (Hcan & Hit & Hsz & Hpd & Hph & HU' & _).
  fold U in HU'. unfold SIZEOF_PRIVATE_ENTRY in HU'.
  assert (Hoff : pte_offset m1 entry = pte_offset m entry)
    by (apply (same_on_read32 entry (entry + 48)); assumption || lia).
  assert (Hps : pte_size m1 entry = P)
    by (apply (same_on_read32 entry (entry + 48)); assumption || lia).
  assert (Hcl : pte_cacheline m1 entry = pte_cacheline m entry)
    by (apply (same_on_read32 entry (entry + 48)); assumption || lia).
  assert (HC1 : phdr_offset_free_cached m1 phdr = C)
    by (apply (same_on_read32 (phdr + 16) (phdr + 20)); assumption || lia).
  assert (HS1 : phdr_size m1 phdr = phdr_size m phdr)
    by (apply (same_on_read32 (phdr + 8) (phdr + 12)); assumption || lia).
  set (end1 := end_ + 16 + round_up8 size).
  assert (Eend1 : end1 = end_ + 16 + round_up8 size) by reflexivity.
  clearbody end1.
  assert (Hend1 : phdr_to_last_uncached_entry m1 phdr = end1).
  { unfold phdr_to_last_uncached_entry. rewrite HU'.
    rewrite ptr_add_small by lia. lia. }
  assert (Hcach1 : phdr_to_last_cached_entry m1 phdr = cached).
  { unfold phdr_to_last_cached_entry. rewrite HC1.
    rewrite Hcach. apply ptr_add_small. lia. }
  assert (Hfc1 : phdr_to_first_cached_entry m1 phdr (pte_cacheline m entry)
                 = phdr_to_first_cached_entry m phdr (pte_cacheline m entry)).
  { unfold phdr_to_first_cached_entry. rewrite HS1. reflexivity. }
  assert (Hsane1 : free_pointers_sane phdr end1 cached (ptr_add phdr P)
                   = true).
  { unfold free_pointers_sane.
    rewrite in_partition_range_true by lia.
    rewrite Hpend. destruct (Z.ltb_spec (phdr + P) cached); [lia|].
    reflexivity. }
  (* the two lookups, side by side *)
  unfold qcom_smem_get_private.
  rewrite (ptable_entry_to_phdr_same smem m m1 entry Hoff). rewrite Ephdr.
  rewrite Hps, Hcl, Hend1, Hcach1, Hfc1. fold P. rewrite Eend, Ecach.
  rewrite Hsane, Hsane1. cbn [negb]. rewrite Hfirst in *.
  assert (Hw1 : forall it, uncached_walk m1 it (phdr + 32) end_
                           = uncached_walk m it (phdr + 32) end_).
  { intros it. apply uncached_walk_same; try lia. exact Hlist. }
  destruct (uncached_walk_other m item item' end_ _ Hwalk) as [Hd | [e Hf]].
  - (* not in the forward list *)
    rewrite Hd. rewrite Z.ltb_irrefl.
    assert (Hd1 : exists x, uncached_walk m1 item' (phdr + 32) end1 = WDone x
                            /\ x <= end1).
    { rewrite (uncached_walk_extend m1 item' end_ end1)
        by (lia || (rewrite Hw1; exact Hd)).
      rewrite uncached_walk_eq.
      unfold SIZEOF_PRIVATE_ENTRY. rewrite (ptr_add_small end_ 16) by lia.
      destruct (Z.ltb_spec end_ end1); [|lia].
      destruct (Z.ltb_spec (end_ + 16) end1) as [Hpos|];
        [|exists end_; split; [reflexivity | lia]].
      cbn [andb]. rewrite Hcan, Z.eqb_refl. cbn [negb].
      rewrite Hit. unfold u16. rewrite Z.mod_small by lia.
      destruct (Z.eqb_spec item item'); [congruence|].
      assert (Hnx : uncached_entry_next m1 end_ = end1).
      { unfold uncached_entry_next. rewrite Hph, Hsz.
        unfold SIZEOF_PRIVATE_ENTRY.
        rewrite (ptr_add_small end_ 16) by lia.
        rewrite (ptr_add_small (end_ + 16) 0) by lia.
        rewrite ptr_add_small by lia. lia. }
      rewrite Hnx.
      destruct (Z.leb_spec end1 end_); [lia|].
      rewrite uncached_walk_eq.
      rewrite Z.ltb_irrefl. cbn [andb].
      exists end1. split; [reflexivity | lia]. }
    destruct Hd1 as (x & Hd1 & Hx). rewrite Hd1.
    destruct (Z.ltb_spec end1 x); [lia|].
    destruct (cached =? ptr_add phdr P); [split; auto|].
    set (e1 := phdr_to_first_cached_entry m phdr (pte_cacheline m entry)).
    rewrite Hcach, Hpend.
    rewrite (in_partition_range_true (phdr + C) 0 end_) by lia.
    rewrite (in_partition_range_true (phdr + C) 0 end1)
      by lia.
    cbn [negb orb].
    destruct (IN_PARTITION_RANGE e1 SIZEOF_PRIVATE_ENTRY (phdr + C)
                                 (phdr + P)) eqn:Hr1;
      [|split; [intros r Hr; discriminate | intros Hr; discriminate]].
    cbn [negb].
    assert (He1r : 0 <= e1 < two64) by (apply ptr_sub_range).
    assert (H16 : 0 <= SIZEOF_PRIVATE_ENTRY < two64)
      by (unfold SIZEOF_PRIVATE_ENTRY; lia).
    destruct (in_partition_range_spec _ _ _ _ He1r H16 Hr1) as (Ha & Hb & _).
    unfold SIZEOF_PRIVATE_ENTRY in Hb.
    assert (Hcw : cached_walk m1 item' (pte_cacheline m entry) e1 (phdr + C)
                  = cached_walk m item' (pte_cacheline m entry) e1
                                (phdr + C)).
    { apply (cached_walk_same m m1 item' _ (phdr + C) (phdr + P)); try lia.
      rewrite <- Hcach. exact Hback. }
    rewrite Hcw.
    destruct (cached_walk m item' (pte_cacheline m entry) e1 (phdr + C))
      as [|e| |e2] eqn:Hcwm; try solve [split; auto].
    destruct (cached_walk_found m item' _ _ e _ Hcwm) as (H1 & H2 & _).
    rewrite Hcach in Hback.
    destruct (private_entry_same m m1 (phdr + C) (phdr + P) e Hback)
      as (Hsz1 & Hpd1 & _); try lia.
    unfold entry_payload, cached_entry_to_item.
    rewrite Hsz1, Hpd1. split; auto.
  - (* found in the forward list *)
    rewrite Hf.
    rewrite (uncached_walk_found_extend m1 item' end_ end1 e)
      by (lia || (rewrite Hw1; exact Hf)).
    destruct (uncached_walk_found m item' _ e _ Hf) as (H1 & H2 & H3 & _).
    assert (H16 : e + 16 < end_) by (revert H3; mlia).
    destruct (private_entry_same m m1 (phdr + 32) end_ e Hlist)
      as (Hsz1 & Hpd1 & Hph1); try lia.
    unfold entry_payload, uncached_entry_to_item.
    rewrite Hsz1, Hpd1, Hph1.
    fold (uncached_entry_to_item m e).
    destruct ((pe_size m e <? P) && (pe_padding_data m e <? pe_size m e))
      eqn:Hpay; [|split; [intros r Hr; discriminate
                         | intros Hr; discriminate]].
    apply andb_true_iff in Hpay. destruct Hpay as [Hpay1 Hpay2].
    apply Z.ltb_lt in Hpay1, Hpay2.
    pose proof (le32_range m (e + 4)) as Hszr.
    pose proof (le16_range m (e + 8)) as Hpdr.
    fold (pe_size m e) in Hszr. fold (pe_padding_data m e) in Hpdr.
    destruct (IN_PARTITION_RANGE (uncached_entry_to_item m e)
                (pe_size m e - pe_padding_data m e) e end_) eqn:Hr;
      [|split; [intros r Hr'; discriminate | intros Hr'; discriminate]].
    assert (Hpr : 0 <= uncached_entry_to_item m e < two64)
      by (apply ptr_add_range).
    assert (Hsr : 0 <= pe_size m e - pe_padding_data m e < two64) by lia.
    destruct (in_partition_range_spec _ _ _ _ Hpr Hsr Hr) as (Hr1 & Hr2 & _).
    rewrite (in_partition_range_true (uncached_entry_to_item m e)
               (pe_size m e - pe_padding_data m e) e end1)
      by lia.
    cbn [negb]. split; [auto | intros Hr'; discriminate].
Qed.

Lemma alloc_keeps_other_items_witness :
  let m' := snd (qcom_smem_alloc_private ex_smem ex_entry 10 100 ex_mem_boot) in
  qcom_smem_get_private ex_smem ex_entry 3 m' = Ok (ex_phdr + 48, 16)
  /\ qcom_smem_get_private ex_smem ex_entry 11 m' = Err ENOENT.
Proof.
  split.
  - apply (alloc_keeps_other_items ex_smem ex_mem_boot ex_entry 10 3 100);
      by_computation.
  - apply (alloc_keeps_other_items ex_smem ex_mem_boot ex_entry 10 11 100);
      by_computation.
Defined.

(** ** Free space *)

Lemma get_free_space_private (w : world) (smem : qcom_smem) (host entry : Z) :
  __smem w = Some smem -> routed_entry smem host = Some entry ->
  fst (qcom_smem_get_free_space host w)
  = free_space_private entry smem (shared w).
Proof.
  intros Hs Hr. unfold qcom_smem_get_free_space. rewrite Hs, Hr.
  reflexivity.
Qed.

(** X6: the free-space query tells whether an allocation fits.  For a host
    routed to a well-placed partition of less than 2 GiB with sound free
    pointers, the query returns the distance between the backward and the
    forward free offset; in such a partition whose forward list ends at
    the free boundary without the item, an allocation succeeds exactly
    when the 16-byte header plus the size rounded up to 8 bytes is at most
    that value, and after a successful allocation the query returns
    exactly that much less. *)
Theorem free_space_tracks_alloc (w : world) (smem : qcom_smem)
        (host entry item size : Z) :
  let m := shared w in
  let phdr := ptable_entry_to_phdr smem m entry in
  let end_ := phdr_to_last_uncached_entry m phdr in
  let cached := phdr_to_last_cached_entry m phdr in
  let required := SIZEOF_PRIVATE_ENTRY + round_up8 size in
  __smem w = Some smem -> hwlock w = LockFree ->
  routed_entry smem host = Some entry ->
  partition_okb smem m entry = true ->
  pte_size m entry < 2147483648 ->
  SMEM_ITEM_LAST_FIXED <= item < item_count smem ->
  free_pointers_sane phdr end_ cached (ptr_add phdr (pte_size m entry))
  = true ->
  uncached_walk m item (phdr_to_first_uncached_entry phdr) end_
  = WDone end_ ->
  0 <= size -> end_ + SIZEOF_PRIVATE_ENTRY + size + 7 < two64 ->
  fst (qcom_smem_get_free_space host w)
  = phdr_offset_free_cached m phdr - phdr_offset_free_uncached m phdr
  /\ (fst (qcom_smem_alloc host item size w) = 0
      <-> required <= fst (qcom_smem_get_free_space host w))
  /\ (fst (qcom_smem_alloc host item size w) = 0 ->
      fst (qcom_smem_get_free_space
             host (snd (qcom_smem_alloc host item size w)))
      = fst (qcom_smem_get_free_space host w) - required).
Proof.
  intros m phdr end_ cached required Hs Hl Hr Hok Hsmall Hi Hsane Hwalk
         Hsize Hwrap.
  destruct (alloc_private_boundary smem m entry item size Hok Hsane Hwalk
                                   Hsize Hwrap) as [Hfull Hgo].
  destruct (partition_ok_facts smem m entry Hok)
    as (_ & _ & _ & He0 & He1 & Hdisj).
  destruct (sane_pointers smem m entry Hok Hsane)
    as (Hp0 & Hend & Hcach & Hpend & Hfirst & HUC & HCP & HP & Htop).
  fold phdr in Hp0, Hend, Hcach, Hpend, Hfirst, HUC, HCP, Htop, Hdisj,
               Hfull, Hgo.
  fold end_ in Hend, Hfull, Hgo. fold cached in Hcach, Hfull, Hgo.
  pose proof (round_up8_bounds size) as Hru.
  unfold required, SIZEOF_PRIVATE_ENTRY in *.
  set (U := phdr_offset_free_uncached m phdr) in *.
  set (C := phdr_offset_free_cached m phdr) in *.
  set (P := pte_size m entry) in *.
  assert (Ephdr : ptable_entry_to_phdr smem m entry = phdr) by reflexivity.
  clearbody cached end_ phdr.
  assert (Hfs : fst (qcom_smem_get_free_space host w) = C - U).
  { rewrite (get_free_space_private w smem host entry Hs Hr).
    unfold free_space_private. fold m. rewrite Ephdr. fold U C P.
    unfold u32. rewrite Z.mod_small by lia.
    destruct (Z.ltb_spec P (C - U)); [lia|].
    unfold int_of_unsigned.
    destruct (Z.ltb_spec (C - U) 2147483648); [reflexivity | lia]. }
  rewrite Hfs.
  rewrite (qcom_smem_alloc_run w smem host item size Hs Hl Hi).
  rewrite Hr. fold m.
  destruct (Z.lt_ge_cases cached (end_ + 16 + round_up8 size)) as [Hlt|Hge].
  - rewrite (Hfull Hlt). cbn [fst snd].
    split; [reflexivity|].
    split; [|intros Hc; unfold ENOSPC in Hc; discriminate].
    split; [intros Hc; unfold ENOSPC in Hc; discriminate | intros; lia].
  - destruct (Hgo Hge) as (m1 & Heq & Hall). rewrite Heq. cbn [fst snd].
    split; [reflexivity|].
    split; [split; [intros _; lia | reflexivity]|].
    intros _.
    rewrite (get_free_space_private
               (with_shared w m1 [EvAcquire; EvAccess; EvRelease])
               smem host entry Hs Hr).
    cbn [shared with_shared].
    assert (Hfst : phdr + 32 <= end_).
    { apply uncached_walk_done_ge in Hwalk. lia. }
    assert (Hent : same_on entry (entry + 48) m m1)
      by (eapply allocated_same_on; [eassumption | lia | lia]).
    assert (Hhd : same_on (phdr + 16) (phdr + 20) m m1)
      by (eapply allocated_same_on; [eassumption | lia | lia]).
    destruct Hall as (_ & _ & _ & _ & _ & HU' & _).
    fold U in HU'. unfold SIZEOF_PRIVATE_ENTRY in HU'.
    assert (Hoff : pte_offset m1 entry = pte_offset m entry)
      by (apply (same_on_read32 entry (entry + 48)); assumption || lia).
    assert (Hps : pte_size m1 entry = P)
      by (apply (same_on_read32 entry (entry + 48)); assumption || lia).
    assert (HC1 : phdr_offset_free_cached m1 phdr = C)
      by (apply (same_on_read32 (phdr + 16) (phdr + 20)); assumption || lia).
    unfold free_space_private.
    rewrite (ptable_entry_to_phdr_same smem m m1 entry Hoff), Ephdr.
    rewrite Hps, HC1, HU'.
    unfold u32. rewrite Z.mod_small by lia.
    destruct (Z.ltb_spec P (C - (U + (16 + round_up8 size)))); [lia|].
    unfold int_of_unsigned.
    destruct (Z.ltb_spec (C - (U + (16 + round_up8 size))) 2147483648);
      lia.
Qed.

Lemma free_space_tracks_alloc_witness :
  fst (qcom_smem_get_free_space 5 ex_world) = 224
  /\ (fst (qcom_smem_alloc 5 10 100 ex_world) = 0 <-> 16 + 104 <= 224)
  /\ (fst (qcom_smem_alloc 5 10 100 ex_world) = 0 ->
      fst (qcom_smem_get_free_space
             5 (snd (qcom_smem_alloc 5 10 100 ex_world)))
      = 224 - (16 + 104)).
Proof.
  pose proof (free_space_tracks_alloc
                ex_world ex_smem 5 ex_entry 10 100 eq_refl eq_refl eq_refl
                ltac:(by_computation) ltac:(by_computation)
                ltac:(by_computation) ltac:(by_computation)
                ltac:(by_computation) ltac:(by_computation)
                ltac:(by_computation)) as H.
  vm_compute in H. vm_compute. exact H.
Defined.

(** ** The global heap *)

(** What a successful allocation on the global heap leaves. *)
Lemma alloc_global_success (smem : qcom_smem) (m : mem) (item size : Z) :
  let header := virt_base (region_at smem 0) in
  let entry := header_toc header item in
  0 <= header -> 0 <= item -> header + 208 + 16 * item + 16 <= two64 ->
  ge_allocated m entry = 0 ->
  0 <= size -> size + 7 < two64 ->
  round_up8 size <= header_available m header ->
  exists m',
    qcom_smem_alloc_global smem item size m = (0, m')
    /\ ge_allocated m' entry = 1
    /\ ge_offset m' entry = header_free_offset m header
    /\ ge_size m' entry = round_up8 size
    /\ ge_aux_base m' entry = ge_aux_base m entry
    /\ header_free_offset m' header
       = u32 (header_free_offset m header + round_up8 size)
    /\ header_available m' header = header_available m header - round_up8 size.
Proof.
  intros header entry H0 Hi Hb Hfree Hs0 Hs1 Hfit.
  assert (He : entry = header + 208 + 16 * item).
  { unfold entry, header_toc. rewrite ptr_add_small by lia. lia. }
  pose proof (le32_range m (header + 200)) as Hav.
  pose proof (le32_range m (header + 196)) as Hfo.
  fold (header_available m header) in Hav.
  fold (header_free_offset m header) in Hfo.
  pose proof (round_up8_bounds size) as Hru.
  unfold qcom_smem_alloc_global. fold header. fold entry.
  rewrite Hfree. cbn [Z.eqb negb].
  rewrite ALIGN_8_round_up by lia.
  destruct (Z.ltb_spec (header_available m header) (round_up8 size)); [lia|].
  eexists. split; [reflexivity|].
  clearbody entry. subst entry.
  unfold ge_allocated, ge_offset, ge_size, ge_aux_base, header_free_offset,
    header_available, le32_add_cpu.
  repeat split.
  - peel. rewrite le32_written by lia. reflexivity.
  - peel. rewrite le32_written by lia.
    unfold u32. apply Z.mod_small. exact Hfo.
  - peel. rewrite le32_written by lia.
    unfold u32. apply Z.mod_small. lia.
  - peel. reflexivity.
  - peel. rewrite le32_written by lia. peel.
    fold (header_free_offset m header). unfold u32.
    rewrite (Z.mod_small (round_up8 size)) by lia.
    rewrite Z.mod_mod by lia. reflexivity.
  - rewrite le32_written by lia. peel.
    fold (header_available m header). unfold u32.
    revert Hav Hfit Hru Hs0. generalize (header_available m header).
    generalize (round_up8 size). intros r a. intros. Z.div_mod_to_equations.
    lia.
Qed.

(** An allocation on the global heap writes the first 12 bytes of its
    slot and the two counters of the header, whatever it returns. *)
Lemma alloc_global_outside (smem : qcom_smem) (m : mem) (item size x : Z) :
  let header := virt_base (region_at smem 0) in
  let entry := header + 208 + 16 * item in
  0 <= header -> 0 <= item -> header + 208 + 16 * item + 16 <= two64 ->
  ~ (entry <= x < entry + 12) -> ~ (header + 196 <= x < header + 204) ->
  snd (qcom_smem_alloc_global smem item size m) x = m x.
Proof.
  intros header entry H0 Hi Hb Hx1 Hx2.
  assert (He : header_toc header item = entry).
  { unfold entry, header_toc. rewrite ptr_add_small by lia. lia. }
  unfold qcom_smem_alloc_global. fold header. rewrite He.
  destruct (negb (ge_allocated m entry =? 0)); [reflexivity|].
  destruct (header_available m header <? ALIGN size 8); [reflexivity|].
  assert (Hbe : 0 <= entry /\ entry + 16 <= two64) by (unfold entry; lia).
  cbn [snd]. unfold le32_add_cpu. clearbody entry.
  rewrite !cpu_to_le32_outside by lia. reflexivity.
Qed.

(** The lookup on the global heap reads only the 16 bytes of its slot. *)
Lemma get_global_regions_same (rs : list smem_region) (m m' : mem)
      (entry aux : Z) :
  ge_size m' entry = ge_size m entry ->
  ge_offset m' entry = ge_offset m entry ->
  get_global_regions rs m' entry aux = get_global_regions rs m entry aux.
Proof.
  intros Hs Ho. induction rs as [|area rs IH]; [reflexivity|].
  cbn [get_global_regions]. rewrite Hs, Ho, IH. reflexivity.
Qed.

Lemma get_global_same (smem : qcom_smem) (m m' : mem) (item : Z) :
  let entry := virt_base (region_at smem 0) + 208 + 16 * item in
  0 <= entry -> entry + 16 <= two64 ->
  same_on entry (entry + 16) m m' ->
  qcom_smem_get_global smem item m' = qcom_smem_get_global smem item m.
Proof.
  intros entry H0 H1 Hsame.
  assert (He : header_toc (virt_base (region_at smem 0)) item = entry).
  { unfold entry, header_toc. rewrite ptr_add_small by lia. lia. }
  unfold qcom_smem_get_global. rewrite He.
  assert (H0' : 0 <= entry) by exact H0.
  assert (H1' : entry + 16 <= two64) by exact H1.
  clearbody entry.
  assert (Ha : ge_allocated m' entry = ge_allocated m entry)
    by (apply (same_on_read32 entry (entry + 16)); assumption || lia).
  assert (Hx : ge_aux_base m' entry = ge_aux_base m entry)
    by (apply (same_on_read32 entry (entry + 16)); assumption || lia).
  assert (Hs : ge_size m' entry = ge_size m entry)
    by (apply (same_on_read32 entry (entry + 16)); assumption || lia).
  assert (Ho : ge_offset m' entry = ge_offset m entry)
    by (apply (same_on_read32 entry (entry + 16)); assumption || lia).
  rewrite Ha, Hx. destruct (ge_allocated m entry =? 0); [reflexivity|].
  apply get_global_regions_same; assumption.
Qed.

(** X7: allocation and lookup on the global heap.  For a host routed to
    the global heap, a free slot with the default region tag, and a size
    whose rounding up to 8 bytes is within the remaining bytes and, added
    to the free offset, within the first region, the allocation succeeds
    and the lookup that follows returns the address of the first region
    plus the free offset before the call, with the size rounded up to 8
    bytes (not the size requested). *)
Theorem global_alloc_get_roundtrip (w : world) (smem : qcom_smem)
        (r0 : smem_region) (rest : list smem_region) (host item len : Z) :
  let m := shared w in
  let header := virt_base r0 in
  let entry := header_toc header item in
  __smem w = Some smem -> hwlock w = LockFree ->
  routed_entry smem host = None ->
  regions smem = r0 :: rest ->
  SMEM_ITEM_LAST_FIXED <= item < item_count smem ->
  0 <= header -> header + 208 + 16 * item + 16 <= two64 ->
  ge_allocated m entry = 0 ->
  Z.land (ge_aux_base m entry) AUX_BASE_MASK = 0 ->
  0 <= len -> len + 7 < two64 ->
  round_up8 len <= header_available m header ->
  header_free_offset m header + round_up8 len <= size r0 ->
  fst (qcom_smem_alloc host item len w) = 0
  /\ fst (qcom_smem_get host item (snd (qcom_smem_alloc host item len w)))
     = Ok (ptr_add header (header_free_offset m header), round_up8 len).
Proof.
  intros m header entry Hs Hl Hr Hregs Hi H0 Hb Hfree Haux Hs0 Hs1 Hfit Hin.
  assert (Hr0 : region_at smem 0 = r0)
    by (unfold region_at; rewrite Hregs; reflexivity).
  destruct (alloc_global_success smem m item len) as
    (m' & Heq & Ha & Ho & Hsz & Hx & _); rewrite ?Hr0; try assumption.
  { unfold SMEM_ITEM_LAST_FIXED in Hi. lia. }
  rewrite Hr0 in Ha, Ho, Hsz, Hx. fold header in Ha, Ho, Hsz, Hx.
  fold entry in Ha, Ho, Hsz, Hx.
  rewrite (qcom_smem_alloc_run w smem host item len Hs Hl Hi).
  rewrite Hr. fold m. rewrite Heq. cbn [fst snd]. split; [reflexivity|].
  assert (Hi' : item < item_count smem) by lia.
  rewrite (qcom_smem_get_run _ smem host item); [| exact Hs | reflexivity | exact Hi'].
  rewrite Hr. cbn [fst shared with_shared].
  unfold qcom_smem_get_global. rewrite Hr0. fold header. fold entry.
  rewrite Ha. cbn [Z.eqb]. rewrite Hx, Haux, Hregs.
  cbn [get_global_regions]. rewrite Z.eqb_refl, orb_true_r.
  rewrite Hsz, Ho.
  destruct (Z.ltb_spec (size r0)
              (round_up8 len + header_free_offset m header)); [lia|].
  reflexivity.
Qed.

Lemma global_alloc_get_roundtrip_witness :
  fst (qcom_smem_alloc 5 10 100 ex_world_legacy) = 0
  /\ fst (qcom_smem_get 5 10 (snd (qcom_smem_alloc 5 10 100 ex_world_legacy)))
     = Ok (ex_base + 8400, 104).
Proof.
  pose proof (global_alloc_get_roundtrip
                ex_world_legacy ex_smem_legacy
                {| aux_base := 2248146944; virt_base := ex_base;
                   size := 1048576 |} [] 5 10 100
                eq_refl eq_refl eq_refl eq_refl
                ltac:(by_computation) ltac:(by_computation)
                ltac:(by_computation) ltac:(by_computation)
                ltac:(by_computation) ltac:(by_computation)
                ltac:(by_computation) ltac:(by_computation)
                ltac:(by_computation)) as H.
  vm_compute in H. vm_compute. exact H.
Defined.

Lemma alloc_global_nomem (smem : qcom_smem) (m : mem) (item len : Z) :
  let header := virt_base (region_at smem 0) in
  ge_allocated m (header_toc header item) = 0 ->
  0 <= len -> len + 7 < two64 ->
  header_available m header < round_up8 len ->
  qcom_smem_alloc_global smem item len m = (- ENOMEM, m).
Proof.
  intros header Hfree H0 H1 Hlt. unfold qcom_smem_alloc_global.
  fold header. rewrite Hfree. cbn [Z.eqb negb].
  rewrite ALIGN_8_round_up by lia.
  destruct (Z.ltb_spec (header_available m header) (round_up8 len));
    [reflexivity | lia].
Qed.

Lemma get_free_space_global (w : world) (smem : qcom_smem) (host : Z) :
  __smem w = Some smem -> routed_entry smem host = None ->
  fst (qcom_smem_get_free_space host w) = free_space_global smem (shared w).
Proof.
  intros Hs Hr. unfold qcom_smem_get_free_space. rewrite Hs, Hr.
  reflexivity.
Qed.

(** X8: the free-space query on the global heap.  For a host routed to
    the global heap whose remaining-bytes counter is below 2 GiB and at
    most the size of the first region, the query returns that counter; an
    allocation in a free slot succeeds exactly when the size rounded up
    to 8 bytes is at most the counter and fails with -ENOMEM otherwise;
    after a success the query returns exactly the rounded size less. *)
Theorem global_free_space_tracks_alloc (w : world) (smem : qcom_smem)
        (host item len : Z) :
  let m := shared w in
  let header := virt_base (region_at smem 0) in
  let entry := header_toc header item in
  __smem w = Some smem -> hwlock w = LockFree ->
  routed_entry smem host = None ->
  SMEM_ITEM_LAST_FIXED <= item < item_count smem ->
  0 <= header -> header + 208 + 16 * item + 16 <= two64 ->
  ge_allocated m entry = 0 ->
  0 <= len -> len + 7 < two64 ->
  header_available m header <= size (region_at smem 0) ->
  header_available m header < 2147483648 ->
  fst (qcom_smem_get_free_space host w) = header_available m header
  /\ (round_up8 len <= header_available m header ->
      fst (qcom_smem_alloc host item len w) = 0
      /\ fst (qcom_smem_get_free_space
                host (snd (qcom_smem_alloc host item len w)))
         = header_available m header - round_up8 len)
  /\ (header_available m header < round_up8 len ->
      qcom_smem_alloc host item len w
      = (- ENOMEM, with_shared w m [EvAcquire; EvAccess; EvRelease])).
Proof.
  intros m header entry Hs Hl Hr Hi H0 Hb Hfree Hl0 Hl1 Hreg Hsmall.
  pose proof (le32_range m (header + 200)) as Hav.
  fold (header_available m header) in Hav.
  pose proof (round_up8_bounds len) as Hru.
  assert (Hfs : forall m1,
             header_available m1 header <= header_available m header ->
             free_space_global smem m1 = header_available m1 header).
  { intros m1 Hle. unfold free_space_global. fold header.
    pose proof (le32_range m1 (header + 200)) as Hav1.
    fold (header_available m1 header) in Hav1.
    destruct (Z.ltb_spec (size (region_at smem 0))
                         (header_available m1 header)); [lia|].
    unfold int_of_unsigned.
    destruct (Z.ltb_spec (header_available m1 header) 2147483648);
      [reflexivity | lia]. }
  split; [|split].
  - rewrite (get_free_space_global w smem host Hs Hr). fold m.
    apply Hfs. lia.
  - intros Hfit.
    destruct (alloc_global_success smem m item len) as
      (m' & Heq & _ & _ & _ & _ & _ & Hav'); try assumption.
    { unfold SMEM_ITEM_LAST_FIXED in Hi. lia. }
    fold header in Hav'.
    rewrite (qcom_smem_alloc_run w smem host item len Hs Hl Hi).
    rewrite Hr. fold m. rewrite Heq. cbn [fst snd].
    split; [reflexivity|].
    rewrite (get_free_space_global
               (with_shared w m' [EvAcquire; EvAccess; EvRelease])
               smem host Hs Hr).
    cbn [shared with_shared]. rewrite Hfs by lia. exact Hav'.
  - intros Hlt.
    rewrite (qcom_smem_alloc_run w smem host item len Hs Hl Hi).
    rewrite Hr. fold m.
    rewrite (alloc_global_nomem smem m item len Hfree Hl0 Hl1 Hlt).
    reflexivity.
Qed.

Lemma global_free_space_tracks_alloc_witness :
  fst (qcom_smem_get_free_space 5 ex_world_legacy) = 100000
  /\ fst (qcom_smem_alloc 5 10 100 ex_world_legacy) = 0
  /\ fst (qcom_smem_get_free_space
            5 (snd (qcom_smem_alloc 5 10 100 ex_world_legacy)))
     = 100000 - 104.
Proof.
  pose proof (global_free_space_tracks_alloc
                ex_world_legacy ex_smem_legacy 5 10 100
                eq_refl eq_refl eq_refl
                ltac:(by_computation) ltac:(by_computation)
                ltac:(by_computation) ltac:(by_computation)
                ltac:(by_computation) ltac:(by_computation)
                ltac:(by_computation) ltac:(by_computation))
    as (H1 & H2 & _).
  pose proof (conj H1 (H2 ltac:(by_computation))) as H.
  vm_compute in H. vm_compute. exact H.
Defined.

(** X9: an allocation on the global heap and the other items.  Whatever
    the allocation of an item returns, the lookup of any other item gives
    the same result after it as before: the allocation writes the slot of
    its own item and the two counters of the header only. *)
Theorem alloc_global_keeps_other_items (smem : qcom_smem) (m : mem)
        (item item' len : Z) :
  let header := virt_base (region_at smem 0) in
  0 <= header -> 0 <= item -> 0 <= item' -> item' <> item ->
  header + 208 + 16 * item + 16 <= two64 ->
  header + 208 + 16 * item' + 16 <= two64 ->
  qcom_smem_get_global smem item'
    (snd (qcom_smem_alloc_global smem item len m))
  = qcom_smem_get_global smem item' m.
Proof.
  intros header H0 Hi Hi' Hne Hb Hb'.
  apply get_global_same; fold header; try lia.
  intros x Hx. apply alloc_global_outside; fold header; lia.
Qed.

Lemma alloc_global_keeps_other_items_witness :
  qcom_smem_get_global ex_smem_legacy 3
    (snd (qcom_smem_alloc_global ex_smem_legacy 10 100
            (shared ex_world_legacy)))
  = qcom_smem_get_global ex_smem_legacy 3 (shared ex_world_legacy).
Proof.
  apply (alloc_global_keeps_other_items
           ex_smem_legacy (shared ex_world_legacy) 10 3 100);
    by_computation.
Defined.

(** The outcome of the search through the regions: the first region
    whose tag matches decides. *)
Lemma get_global_regions_outcome (rs : list smem_region) (m : mem)
      (entry aux : Z) :
  match get_global_regions rs m entry aux with
  | Ok (p, sz) =>
      exists pre area post,
        rs = pre ++ area :: post
        /\ (forall a, In a pre -> aux_base a <> aux /\ aux <> 0)
        /\ (aux_base area = aux \/ aux = 0)
        /\ p = ptr_add (virt_base area) (ge_offset m entry)
        /\ sz = ge_size m entry
        /\ ge_offset m entry + sz <= size area
  | Err e =>
      (e = ENOENT /\ forall a, In a rs -> aux_base a <> aux /\ aux <> 0)
      \/ (e = EINVAL
          /\ exists pre area post,
               rs = pre ++ area :: post
               /\ (forall a, In a pre -> aux_base a <> aux /\ aux <> 0)
               /\ (aux_base area = aux \/ aux = 0)
               /\ size area < ge_offset m entry + ge_size m entry)
  end.
Proof.
  induction rs as [|area rs IH]; cbn [get_global_regions].
  - left. split; [reflexivity | intros a []].
  - destruct (Z.eqb_spec (aux_base area) aux) as [Ha|Ha];
      destruct (Z.eqb_spec aux 0) as [Hz|Hz]; cbn [orb].
    1-3: destruct (Z.ltb_spec (size area)
                              (ge_size m entry + ge_offset m entry));
      [ right; split; [reflexivity|]; exists [], area, rs;
        repeat split; try (intros a []); try lia; auto
      | exists [], area, rs;
        repeat split; try (intros a []); try lia; auto ].
    assert (Hcons : forall pre,
               (forall a, In a pre -> aux_base a <> aux /\ aux <> 0) ->
               forall a, In a (area :: pre) -> aux_base a <> aux /\ aux <> 0).
    { intros pre Hpre a [<-|H]; [split; assumption | apply Hpre, H]. }
    destruct (get_global_regions rs m entry aux) as [[p sz]|e].
    + destruct IH as (pre & a0 & post & -> & Hpre & Hm & Hp & Hs & Hin).
      exists (area :: pre), a0, post.
      split; [reflexivity|]. split; [apply Hcons, Hpre|]. auto.
    + destruct IH as [[-> Hall]|[-> (pre & a0 & post & -> & Hpre & Hm & Hlt)]].
      * left. split; [reflexivity | apply Hcons, Hall].
      * right. split; [reflexivity|].
        exists (area :: pre), a0, post.
        split; [reflexivity|]. split; [apply Hcons, Hpre|]. auto.
Qed.

(** X10: what a lookup on the global heap returns.  A pointer is
    returned only for a slot marked allocated, and it is the slot's
    offset into the first region whose tag equals the slot's masked tag
    (the first region of all when the masked tag is zero), with the
    slot's size, both inside that region.  -ENXIO means exactly that the
    slot is not allocated, -ENOENT that no region carries the tag, and
    -EINVAL that offset plus size exceed the size of that first matching
    region. *)
Theorem get_global_outcome (smem : qcom_smem) (m : mem) (item : Z) :
  let entry := header_toc (virt_base (region_at smem 0)) item in
  let aux := Z.land (ge_aux_base m entry) AUX_BASE_MASK in
  match qcom_smem_get_global smem item m with
  | Ok (p, sz) =>
      ge_allocated m entry <> 0
      /\ exists pre area post,
           regions smem = pre ++ area :: post
           /\ (forall a, In a pre -> aux_base a <> aux /\ aux <> 0)
           /\ (aux_base area = aux \/ aux = 0)
           /\ p = ptr_add (virt_base area) (ge_offset m entry)
           /\ sz = ge_size m entry
           /\ ge_offset m entry + sz <= size area
  | Err e =>
      (e = ENXIO /\ ge_allocated m entry = 0)
      \/ (e = ENOENT /\ ge_allocated m entry <> 0
          /\ forall a, In a (regions smem) -> aux_base a <> aux /\ aux <> 0)
      \/ (e = EINVAL /\ ge_allocated m entry <> 0
          /\ exists pre area post,
               regions smem = pre ++ area :: post
               /\ (forall a, In a pre -> aux_base a <> aux /\ aux <> 0)
               /\ (aux_base area = aux \/ aux = 0)
               /\ size area < ge_offset m entry + ge_size m entry)
  end.
Proof.
  intros entry aux. unfold qcom_smem_get_global. fold entry. fold aux.
  destruct (Z.eqb_spec (ge_allocated m entry) 0) as [Hz|Hz].
  - left. split; [reflexivity | exact Hz].
  - pose proof (get_global_regions_outcome (regions smem) m entry aux) as H.
    destruct (get_global_regions (regions smem) m entry aux) as [[p sz]|e].
    + split; assumption.
    + right. destruct H as [[-> H]|[-> H]]; [left | right]; auto.
Qed.

(** ** Physical addresses *)

Lemma virt_to_phys_first (smem : qcom_smem) (r0 : smem_region)
      (rest : list smem_region) (p : Z) :
  regions smem = r0 :: rest ->
  0 <= virt_base r0 -> 0 <= size r0 -> virt_base r0 + size r0 < two64 ->
  0 <= aux_base r0 -> aux_base r0 + size r0 <= two64 ->
  virt_base r0 <= p < virt_base r0 + size r0 ->
  qcom_smem_virt_to_phys smem p = aux_base r0 + (p - virt_base r0).
Proof.
  intros Hregs Hv Hs Hvs Ha Has Hp.
  unfold qcom_smem_virt_to_phys. rewrite Hregs.
  cbn [virt_to_phys_regions].
  destruct (Z.ltb_spec p (virt_base r0)); [lia|].
  rewrite ptr_add_small by lia.
  destruct (Z.ltb_spec p (virt_base r0 + size r0)); [|lia].
  unfold size_t. apply Z.mod_small. lia.
Qed.

(** X11: the physical address of an item of a private partition.  For a
    well-placed partition of the first region, whose physical range does
    not wrap, the pointer a private lookup returns converts to the
    region's physical base plus the pointer's offset into the region, and
    the returned bytes lie inside the partition's physical range. *)
Theorem private_item_virt_to_phys (smem : qcom_smem) (m : mem)
        (r0 : smem_region) (rest : list smem_region) (entry item p sz : Z) :
  let part := aux_base r0 + pte_offset m entry in
  regions smem = r0 :: rest ->
  partition_okb smem m entry = true ->
  0 <= aux_base r0 -> aux_base r0 + size r0 <= two64 ->
  qcom_smem_get_private smem entry item m = Ok (p, sz) ->
  qcom_smem_virt_to_phys smem p = aux_base r0 + (p - virt_base r0)
  /\ part <= qcom_smem_virt_to_phys smem p
  /\ qcom_smem_virt_to_phys smem p + sz <= part + pte_size m entry.
Proof.
  intros part Hregs Hok Ha Has Hget.
  destruct (get_private_result smem m entry item p sz Hok Hget)
    as (e & _ & _ & _ & Hpos & _ & Hlo & Hhi).
  destruct (partition_ok_facts smem m entry Hok) as (Hphdr & _).
  assert (Hr0 : region_at smem 0 = r0)
    by (unfold region_at; rewrite Hregs; reflexivity).
  rewrite Hphdr, Hr0 in Hlo, Hhi.
  unfold partition_okb in Hok. rewrite Hr0 in Hok.
  repeat rewrite andb_true_iff in Hok.
  destruct Hok as [[[[[[H1 H2] H3] _] _] _] _].
  rewrite Z.leb_le in H1, H2, H3. unfold MAX_ERRNO in H2.
  pose proof (le32_range m entry) as Ho. fold (pte_offset m entry) in Ho.
  pose proof (le32_range m (entry + 4)) as Hs.
  fold (pte_size m entry) in Hs.
  rewrite (virt_to_phys_first smem r0 rest p Hregs) by lia.
  unfold part. lia.
Qed.

Lemma private_item_virt_to_phys_witness :
  qcom_smem_virt_to_phys ex_smem (ex_phdr + 48) = 2248146944 + 4096 + 48.
Proof.
  pose proof (private_item_virt_to_phys
                ex_smem ex_mem_boot
                {| aux_base := 2248146944; virt_base := ex_base;
                   size := 1048576 |} [] ex_entry 3 (ex_phdr + 48) 16
                eq_refl ltac:(by_computation) ltac:(by_computation)
                ltac:(by_computation) ltac:(by_computation)) as (H & _).
  vm_compute in H. vm_compute. exact H.
Defined.

(** X12: the physical address of an item of the global heap.  When the
    first region is mapped without wrapping and the slot's masked tag is
    zero or the first region's, a lookup that returns a non-empty item
    returns a pointer that converts to the first region's physical base
    plus the offset stored in the slot. *)
Theorem global_item_virt_to_phys (smem : qcom_smem) (m : mem)
        (r0 : smem_region) (rest : list smem_region) (item p sz : Z) :
  let entry := header_toc (virt_base r0) item in
  let aux := Z.land (ge_aux_base m entry) AUX_BASE_MASK in
  regions smem = r0 :: rest ->
  0 <= virt_base r0 -> virt_base r0 + size r0 < two64 ->
  0 <= aux_base r0 -> aux_base r0 + size r0 <= two64 ->
  aux = 0 \/ aux = aux_base r0 ->
  qcom_smem_get_global smem item m = Ok (p, sz) -> 0 < sz ->
  p = virt_base r0 + ge_offset m entry
  /\ qcom_smem_virt_to_phys smem p = aux_base r0 + ge_offset m entry
  /\ ge_offset m entry + sz <= size r0.
Proof.
  intros entry aux Hregs Hv Hvs Ha Has Haux Hget Hpos.
  assert (Hr0 : region_at smem 0 = r0)
    by (unfold region_at; rewrite Hregs; reflexivity).
  unfold qcom_smem_get_global in Hget. rewrite Hr0 in Hget.
  fold entry in Hget. fold aux in Hget.
  destruct (ge_allocated m entry =? 0); [discriminate|].
  rewrite Hregs in Hget. cbn [get_global_regions] in Hget.
  assert (Hm : (aux_base r0 =? aux) || (aux =? 0) = true).
  { destruct Haux as [->| ->]; rewrite Z.eqb_refl;
      [apply orb_true_r | reflexivity]. }
  rewrite Hm in Hget.
  pose proof (le32_range m (entry + 4)) as Ho.
  fold (ge_offset m entry) in Ho.
  pose proof (le32_range m (entry + 8)) as Hs.
  fold (ge_size m entry) in Hs.
  destruct (Z.ltb_spec (size r0) (ge_size m entry + ge_offset m entry));
    [discriminate|].
  injection Hget as Hp Hsz. subst sz.
  rewrite ptr_add_small in Hp by lia. subst p.
  split; [reflexivity|]. split; [|lia].
  rewrite (virt_to_phys_first smem r0 rest _ Hregs) by lia. lia.
Qed.

Lemma global_item_virt_to_phys_witness :
  let m := snd (qcom_smem_alloc_global ex_smem_legacy 10 100
                  (shared ex_world_legacy)) in
  qcom_smem_get_global ex_smem_legacy 10 m = Ok (ex_base + 8400, 104)
  /\ qcom_smem_virt_to_phys ex_smem_legacy (ex_base + 8400)
     = 2248146944 + 8400.
Proof.
  pose proof (global_item_virt_to_phys
                ex_smem_legacy
                (snd (qcom_smem_alloc_global ex_smem_legacy 10 100
                        (shared ex_world_legacy)))
                {| aux_base := 2248146944; virt_base := ex_base;
                   size := 1048576 |} [] 10 (ex_base + 8400) 104
                eq_refl ltac:(by_computation) ltac:(by_computation)
                ltac:(by_computation) ltac:(by_computation)
                ltac:(left; by_computation) ltac:(by_computation)
                ltac:(by_computation)) as (_ & H & _).
  split; [by_computation|].
  vm_compute in H. vm_compute. exact H.
Defined.

(** ** Initialization: the partition table *)

Lemma partition_header_some (smem : qcom_smem) (m : mem)
      (entry host0 host1 h : Z) :
  qcom_smem_partition_header smem m entry host0 host1 = Some h ->
  let header := ptable_entry_to_phdr smem m entry in
  h = header
  /\ magic_at m header = SMEM_PART_MAGIC
  /\ phdr_host0 m header = host0 /\ phdr_host1 m header = host1
  /\ phdr_size m header = pte_size m entry
  /\ phdr_offset_free_uncached m header <= phdr_size m header.
Proof.
  unfold qcom_smem_partition_header.
  fold (ptable_entry_to_phdr smem m entry).
  cbv zeta. set (header := ptable_entry_to_phdr smem m entry).
  intros H.
  pose proof (magic_ok_iff m header 36 80 82 84) as Hm.
  change [36; 80; 82; 84] with SMEM_PART_MAGIC in Hm.
  destruct (magic_ok m header SMEM_PART_MAGIC); [|discriminate].
  destruct (Z.eqb_spec host0 (phdr_host0 m header)); [|discriminate].
  destruct (Z.eqb_spec host1 (phdr_host1 m header)); [|discriminate].
  destruct (Z.eqb_spec (phdr_size m header) (pte_size m entry));
    [|discriminate].
  destruct (Z.ltb_spec (phdr_size m header)
                       (phdr_offset_free_uncached m header));
    [discriminate|].
  cbn [negb] in H. injection H as <-.
  repeat split; auto. apply Hm. reflexivity.
Qed.

Lemma partition_header_set (smem : qcom_smem) (m : mem)
      (h e entry host0 host1 : Z) :
  qcom_smem_partition_header (set_ptable_entry smem h e) m entry host0 host1
  = qcom_smem_partition_header smem m entry host0 host1.
Proof. reflexivity. Qed.

Lemma nth_set_slot (l : list (option Z)) (k j : nat) (e : Z) :
  (k < length l)%nat ->
  nth j (firstn k l ++ Some e :: skipn (S k) l) None
  = if Nat.eqb j k then Some e else nth j l None.
Proof.
  revert k j. induction l as [|x l IH]; intros k j Hk; cbn [length] in Hk.
  - inversion Hk.
  - destruct k as [|k].
    + destruct j; reflexivity.
    + destruct j as [|j]; [reflexivity|].
      cbn [firstn skipn app nth Nat.eqb]. apply IH.
      apply PeanoNat.lt_S_n, Hk.
Qed.

Lemma length_set_slot (l : list (option Z)) (k : nat) (e : Z) :
  (k < length l)%nat ->
  length (firstn k l ++ Some e :: skipn (S k) l) = length l.
Proof.
  revert k. induction l as [|x l IH]; intros k Hk; cbn [length] in Hk.
  - inversion Hk.
  - destruct k as [|k]; [reflexivity|].
    cbn [firstn skipn app length]. f_equal. apply IH.
    apply PeanoNat.lt_S_n, Hk.
Qed.

Lemma ptable_entries_at_set (smem : qcom_smem) (h h' e : Z) :
  0 <= h < Z.of_nat (length (ptable_entries smem)) -> 0 <= h' ->
  ptable_entries_at (set_ptable_entry smem h e) h'
  = if h' =? h then Some e else ptable_entries_at smem h'.
Proof.
  intros Hh Hh'. unfold ptable_entries_at, set_ptable_entry.
  cbn [ptable_entries]. rewrite nth_set_slot by lia.
  destruct (Z.eqb_spec h' h) as [->|Hne].
  - rewrite PeanoNat.Nat.eqb_refl. reflexivity.
  - destruct (PeanoNat.Nat.eqb_spec (Z.to_nat h') (Z.to_nat h)) as [He|He];
      [lia | reflexivity].
Qed.

Lemma enumerated_skip (m : mem) (ptable local_host i hi : Z)
      (smem smem' : qcom_smem) :
  ~ entry_involves m local_host (ptable_entry ptable i) ->
  enumerated m ptable local_host (i + 1) hi smem smem' ->
  enumerated m ptable local_host i hi smem smem'.
Proof.
  intros Hno (H1 & H2 & H3 & H4 & H5 & H6 & H7).
  unfold enumerated. repeat split; auto.
  - intros h e Hh Hn Hs.
    destruct (H6 h e Hh Hn Hs) as (k & Hk & Hrest).
    exists k. split; [lia | exact Hrest].
  - intros k Hk Hinv.
    destruct (Z.eq_dec k i) as [->|Hne]; [contradiction|].
    apply H7; [lia | exact Hinv].
Qed.

Lemma enumerated_record (m : mem) (ptable local_host i hi : Z)
      (smem smem' : qcom_smem) :
  let entry := ptable_entry ptable i in
  let remote := remote_host_of m local_host entry in
  length (ptable_entries smem) = 13%nat -> i < hi ->
  entry_involves m local_host entry ->
  0 <= remote < SMEM_HOST_COUNT ->
  ptable_entries_at smem remote = None ->
  header_agrees smem m entry ->
  enumerated m ptable local_host (i + 1) hi
             (set_ptable_entry smem remote entry) smem' ->
  enumerated m ptable local_host i hi smem smem'.
Proof.
  intros entry remote Hlen Hi Hinv Hrem Hslot Hagree
         (H1 & H2 & H3 & H4 & H5 & H6 & H7).
  assert (Hlt : 0 <= remote < Z.of_nat (length (ptable_entries smem)))
    by (rewrite Hlen; unfold SMEM_HOST_COUNT in Hrem; lia).
  assert (Hat : forall h, 0 <= h ->
              ptable_entries_at (set_ptable_entry smem remote entry) h
              = if h =? remote then Some entry
                else ptable_entries_at smem h)
    by (intros h Hh; apply ptable_entries_at_set; assumption).
  assert (Hmine : ptable_entries_at smem' remote = Some entry).
  { apply H5; [lia|]. rewrite Hat by lia. rewrite Z.eqb_refl. reflexivity. }
  cbn [set_ptable_entry regions item_count global_partition_entry] in H1, H2, H3.
  unfold enumerated.
  split; [exact H1|]. split; [exact H2|]. split; [exact H3|].
  split.
  { rewrite H4. unfold set_ptable_entry. cbn [ptable_entries].
    apply length_set_slot. lia. }
  split; [|split].
  - intros h e Hh Hs. apply H5; [exact Hh|]. rewrite Hat by exact Hh.
    destruct (Z.eqb_spec h remote) as [->|_]; [congruence | exact Hs].
  - intros h e Hh Hn Hs.
    destruct (Z.eq_dec h remote) as [->|Hne].
    + exists i. split; [lia|].
      assert (e = entry) by congruence. subst e.
      repeat split; try apply Hinv; try apply Hagree; try lia.
    + assert (Hn' : ptable_entries_at
                      (set_ptable_entry smem remote entry) h = None).
      { rewrite Hat by exact Hh.
        destruct (Z.eqb_spec h remote); [contradiction | exact Hn]. }
      destruct (H6 h e Hh Hn' Hs) as (k & Hk & He & Hi' & Hr & Hc & Ha).
      exists k. split; [lia|]. repeat split; try apply Hi'; auto; apply Ha.
  - intros k Hk Hki.
    destruct (Z.eq_dec k i) as [->|Hne]; [exact Hmine|].
    apply H7; [lia | exact Hki].
Qed.

Ltac not_einval H :=
  exfalso; unfold EINVAL in H; cbn [Z.opp] in H; discriminate H.

(** The loop of the enumeration, from index [i] with [n] entries left,
    when it ends without an error. *)
Lemma enumerate_from_spec (m : mem) (ptable local_host : Z) (n : nat) :
  forall (i : Z) (smem smem' : qcom_smem),
    length (ptable_entries smem) = 13%nat ->
    enumerate_from n m ptable i local_host smem = (0, smem') ->
    enumerated m ptable local_host i (i + Z.of_nat n) smem smem'.
Proof.
  induction n as [|n IH]; intros i smem smem' Hlen Hrun.
  - cbn [enumerate_from] in Hrun. injection Hrun as <-.
    unfold enumerated. repeat split; auto.
    + intros h e _ Hn Hs. congruence.
    + intros k Hk. lia.
  - cbn [enumerate_from] in Hrun.
    replace (i + Z.of_nat (S n)) with (i + 1 + Z.of_nat n) by lia.
    set (entry := ptable_entry ptable i) in *.
    destruct (Z.eqb_spec (pte_offset m entry) 0) as [Hoff|Hoff].
    { apply enumerated_skip; [|apply IH; assumption].
      intros (Hc & _). contradiction. }
    destruct (Z.eqb_spec (pte_size m entry) 0) as [Hsz|Hsz].
    { apply enumerated_skip; [|apply IH; assumption].
      intros (_ & Hc & _). contradiction. }
    fold (remote_host_of m local_host entry) in Hrun.
    set (remote := remote_host_of m local_host entry) in *.
    assert (Hr0 : 0 <= remote).
    { unfold remote, remote_host_of.
      destruct (pte_host0 m entry =? local_host); apply le16_range. }
    destruct (negb (pte_host0 m entry =? local_host)
              && negb (pte_host1 m entry =? local_host)) eqn:Hloc.
    { apply enumerated_skip; [|apply IH; assumption].
      rewrite andb_true_iff, !negb_true_iff, !Z.eqb_neq in Hloc.
      intros (_ & _ & [Hc|Hc]); [apply (proj1 Hloc) | apply (proj2 Hloc)];
        exact Hc. }
    assert (Hinv : entry_involves m local_host entry).
    { split; [exact Hoff|]. split; [exact Hsz|].
      rewrite andb_false_iff, !negb_false_iff, !Z.eqb_eq in Hloc.
      exact Hloc. }
    destruct (Z.leb_spec SMEM_HOST_COUNT remote) as [Hbig|Hbig];
      [not_einval Hrun|].
    destruct (ptable_entries_at smem remote) eqn:Hslot; [not_einval Hrun|].
    destruct (qcom_smem_partition_header
                smem m entry (pte_host0 m entry) (pte_host1 m entry))
      as [hd|] eqn:Hhdr; [|not_einval Hrun].
    apply partition_header_some in Hhdr.
    destruct Hhdr as (_ & Hg1 & Hg2 & Hg3 & Hg4 & Hg5).
    assert (Hlen' : length (ptable_entries
                              (set_ptable_entry smem remote entry))
                    = 13%nat).
    { unfold set_ptable_entry. cbn [ptable_entries].
      rewrite length_set_slot; [exact Hlen|].
      rewrite Hlen. unfold SMEM_HOST_COUNT in Hbig. lia. }
    apply (enumerated_record m ptable local_host i (i + 1 + Z.of_nat n)
                             smem smem'); fold entry; fold remote;
      try assumption; try lia.
    + repeat split; assumption.
    + apply IH; assumption.
Qed.

Lemma header_agrees_regions (smem smem' : qcom_smem) (m : mem) (e : Z) :
  regions smem' = regions smem ->
  header_agrees smem m e -> header_agrees smem' m e.
Proof.
  intros Hr. unfold header_agrees, ptable_entry_to_phdr, region_at.
  rewrite Hr. auto.
Qed.

Lemma ptable_entries_at_empty (smem : qcom_smem) (n : nat) (h : Z) :
  ptable_entries smem = repeat None n -> ptable_entries_at smem h = None.
Proof.
  intros He. unfold ptable_entries_at. rewrite He. clear He.
  generalize (Z.to_nat h). induction n as [|n IH]; intros [|k];
    cbn [repeat nth]; try reflexivity; apply IH.
Qed.

(** The handle after an enumeration that started with empty slots. *)
Lemma enumerate_partitions_result (smem smem' : qcom_smem) (m : mem)
        (local_host : Z) :
  ptable_entries smem = repeat None 13 ->
  qcom_smem_enumerate_partitions smem m local_host = (0, smem') ->
  exists ptable,
    qcom_smem_get_ptable smem m = Ok ptable
    /\ regions smem' = regions smem
    /\ item_count smem' = item_count smem
    /\ global_partition_entry smem' = global_partition_entry smem
    /\ length (ptable_entries smem') = 13%nat
    /\ forall h e, 0 <= h ->
         (ptable_entries_at smem' h = Some e
          <-> exists k, 0 <= k < ptable_num_entries m ptable
                        /\ e = ptable_entry ptable k
                        /\ entry_involves m local_host e
                        /\ remote_host_of m local_host e = h)
         /\ (ptable_entries_at smem' h = Some e ->
             h < SMEM_HOST_COUNT /\ header_agrees smem' m e).
Proof.
  intros Hempty. unfold qcom_smem_enumerate_partitions.
  destruct (qcom_smem_get_ptable smem m) as [ptable|err] eqn:Hpt.
  2: { intros H. exfalso. injection H as H _.
       unfold qcom_smem_get_ptable in Hpt.
       destruct (negb _) in Hpt;
         [injection Hpt as <-; unfold ENOENT in H; discriminate|].
       destruct (negb _) in Hpt;
         [injection Hpt as <-; unfold EINVAL in H; discriminate
         | discriminate]. }
  intros Hrun. exists ptable. split; [reflexivity|].
  assert (Hlen : length (ptable_entries smem) = 13%nat)
    by (rewrite Hempty; reflexivity).
  pose proof (le32_range m (ptable + 8)) as Hn.
  fold (ptable_num_entries m ptable) in Hn.
  apply enumerate_from_spec in Hrun; [|exact Hlen].
  rewrite Z2Nat.id, Z.add_0_l in Hrun by lia.
  destruct Hrun as (H1 & H2 & H3 & H4 & _ & H6 & H7).
  split; [exact H1|]. split; [exact H2|]. split; [exact H3|].
  split; [rewrite H4; exact Hlen|].
  intros h e Hh.
  assert (Hnone : ptable_entries_at smem h = None)
    by (apply (ptable_entries_at_empty smem 13), Hempty).
  split; [split|].
  - intros Hs. destruct (H6 h e Hh Hnone Hs) as (k & Hk & He & Hi & Hr & _).
    exists k. auto.
  - intros (k & Hk & -> & Hi & <-). apply H7; assumption.
  - intros Hs.
    destruct (H6 h e Hh Hnone Hs) as (k & _ & _ & _ & _ & Hc & Ha).
    split; [exact Hc|]. apply (header_agrees_regions smem); assumption.
Qed.

(** X13: what the enumeration of the partitions records.  Started on a
    handle with 13 empty slots, an enumeration that returns 0 found a
    valid partition table and changed nothing but the slots; afterwards
    the slot of host [h] holds the table entry [e] exactly when [e] is an
    entry of the table in use (offset and size not zero) that names the
    local host and whose other host is [h]; every filled slot has a host
    below 13 and a partition header that agrees with its table entry in
    magic, host pair and size and whose free offset is within the size. *)
Theorem enumerate_partitions_records (smem smem' : qcom_smem) (m : mem)
        (local_host : Z) :
  ptable_entries smem = repeat None 13 ->
  qcom_smem_enumerate_partitions smem m local_host = (0, smem') ->
  exists ptable,
    qcom_smem_get_ptable smem m = Ok ptable
    /\ regions smem' = regions smem
    /\ item_count smem' = item_count smem
    /\ global_partition_entry smem' = global_partition_entry smem
    /\ length (ptable_entries smem') = 13%nat
    /\ forall h e, 0 <= h ->
         (ptable_entries_at smem' h = Some e
          <-> exists k, 0 <= k < ptable_num_entries m ptable
                        /\ e = ptable_entry ptable k
                        /\ entry_involves m local_host e
                        /\ remote_host_of m local_host e = h)
         /\ (ptable_entries_at smem' h = Some e ->
             h < SMEM_HOST_COUNT /\ header_agrees smem' m e).
Proof.
  exact (enumerate_partitions_result smem smem' m local_host).
Qed.

Lemma enumerate_partitions_records_witness :
  qcom_smem_get_ptable ex_smem_legacy ex_mem = Ok ex_table
  /\ ptable_entries_at ex_smem 5 = Some ex_entry
  /\ header_agrees ex_smem ex_mem ex_entry.
Proof.
  destruct (enumerate_partitions_records
              ex_smem_legacy ex_smem ex_mem SMEM_HOST_APPS
              eq_refl ltac:(by_computation))
    as (ptable & Hpt & _ & _ & _ & _ & Hslots).
  split; [|split].
  - by_computation.
  - reflexivity.
  - apply (Hslots 5 ex_entry); [lia | reflexivity].
Defined.

(** ** Initialization: the global partition *)

Lemma find_global_entry_spec (m : mem) (ptable : Z) (n : nat) :
  forall i entry,
    find_global_entry n m ptable i = Some entry ->
    exists k, i <= k < i + Z.of_nat n
              /\ entry = ptable_entry ptable k
              /\ entry_is_global m entry
              /\ forall j, i <= j < k ->
                           ~ entry_is_global m (ptable_entry ptable j).
Proof.
  induction n as [|n IH]; intros i entry Hf; cbn [find_global_entry] in Hf;
    [discriminate|].
  set (e := ptable_entry ptable i) in *.
  assert (Hskip : ~ entry_is_global m e ->
                  find_global_entry n m ptable (i + 1) = Some entry ->
                  exists k, i <= k < i + Z.of_nat (S n)
                            /\ entry = ptable_entry ptable k
                            /\ entry_is_global m entry
                            /\ forall j, i <= j < k ->
                                 ~ entry_is_global m (ptable_entry ptable j)).
  { intros Hno Hrec. destruct (IH _ _ Hrec) as (k & Hk & He & Hg & Hfirst).
    exists k. split; [lia|]. split; [exact He|]. split; [exact Hg|].
    intros j Hj. destruct (Z.eq_dec j i) as [->|Hne]; [exact Hno|].
    apply Hfirst. lia. }
  destruct (Z.eqb_spec (pte_offset m e) 0) as [Hoff|Hoff].
  { apply Hskip; [|exact Hf]. intros (Hc & _). contradiction. }
  destruct (Z.eqb_spec (pte_size m e) 0) as [Hsz|Hsz].
  { apply Hskip; [|exact Hf]. intros (_ & Hc & _). contradiction. }
  destruct (Z.eqb_spec (pte_host0 m e) SMEM_GLOBAL_HOST) as [Hh0|Hh0];
    cbn [negb] in Hf.
  2: { apply Hskip; [|exact Hf]. intros (_ & _ & Hc & _). contradiction. }
  destruct (Z.eqb_spec (pte_host1 m e) SMEM_GLOBAL_HOST) as [Hh1|Hh1].
  2: { apply Hskip; [|exact Hf]. intros (_ & _ & _ & Hc). contradiction. }
  injection Hf as <-. exists i. split; [lia|]. split; [reflexivity|].
  split; [repeat split; assumption|]. intros j Hj. lia.
Qed.

(** The handle after a successful search for the global partition. *)
Lemma set_global_partition_result (smem smem' : qcom_smem) (m : mem) :
  qcom_smem_set_global_partition smem m = (0, smem') ->
  global_partition_entry smem = None
  /\ exists ptable k,
       qcom_smem_get_ptable smem m = Ok ptable
       /\ 0 <= k < ptable_num_entries m ptable
       /\ global_partition_entry smem' = Some (ptable_entry ptable k)
       /\ entry_is_global m (ptable_entry ptable k)
       /\ (forall j, 0 <= j < k ->
                     ~ entry_is_global m (ptable_entry ptable j))
       /\ header_agrees smem' m (ptable_entry ptable k)
       /\ ptable_entries smem' = ptable_entries smem
       /\ item_count smem' = item_count smem
       /\ regions smem' = regions smem.
Proof.
  unfold qcom_smem_set_global_partition.
  destruct (global_partition_entry smem) eqn:Hg;
    [intros H; not_einval H|].
  destruct (qcom_smem_get_ptable smem m) as [ptable|err] eqn:Hpt.
  2: { intros H. exfalso. injection H as H _.
       unfold qcom_smem_get_ptable in Hpt.
       destruct (negb _) in Hpt;
         [injection Hpt as <-; unfold ENOENT in H; discriminate|].
       destruct (negb _) in Hpt;
         [injection Hpt as <-; unfold EINVAL in H; discriminate
         | discriminate]. }
  destruct (find_global_entry _ m ptable 0) as [entry|] eqn:Hfind;
    [|intros H; not_einval H].
  destruct (qcom_smem_partition_header _ m entry _ _) as [hd|] eqn:Hhdr;
    [|intros H; not_einval H].
  intros H. injection H as <-. split; [reflexivity|].
  pose proof (le32_range m (ptable + 8)) as Hn.
  fold (ptable_num_entries m ptable) in Hn.
  apply find_global_entry_spec in Hfind.
  destruct Hfind as (k & Hk & -> & Hglob & Hfirst).
  rewrite Z2Nat.id, Z.add_0_l in Hk by lia.
  exists ptable, k. cbn [global_partition_entry ptable_entries item_count
                         regions].
  repeat split; try assumption; try lia; try apply Hglob.
  all: apply partition_header_some in Hhdr;
    destruct Hglob as (_ & _ & Hh0 & Hh1);
    destruct Hhdr as (_ & Hm & H0 & H1 & Hs & Hu);
    unfold ptable_entry_to_phdr, region_at in *; cbn [regions];
    try assumption; try congruence.
Qed.

(** X14: what the search for the global partition records.  A call that
    returns 0 started without a global partition, found a valid partition
    table, and set the global partition to the first table entry in use
    whose two hosts are both 0xfffe; the header of that partition agrees
    with the entry in magic, host pair and size; nothing else of the
    handle changed. *)
Theorem set_global_partition_records (smem smem' : qcom_smem) (m : mem) :
  qcom_smem_set_global_partition smem m = (0, smem') ->
  global_partition_entry smem = None
  /\ exists ptable k,
       qcom_smem_get_ptable smem m = Ok ptable
       /\ 0 <= k < ptable_num_entries m ptable
       /\ global_partition_entry smem' = Some (ptable_entry ptable k)
       /\ entry_is_global m (ptable_entry ptable k)
       /\ (forall j, 0 <= j < k ->
                     ~ entry_is_global m (ptable_entry ptable j))
       /\ header_agrees smem' m (ptable_entry ptable k)
       /\ ptable_entries smem' = ptable_entries smem
       /\ item_count smem' = item_count smem
       /\ regions smem' = regions smem.
Proof.
  exact (set_global_partition_result smem smem' m).
Qed.

Lemma set_global_partition_records_witness :
  exists ptable k,
    qcom_smem_get_ptable ex_smem_legacy ex_mem_v12 = Ok ptable
    /\ entry_is_global ex_mem_v12 (ptable_entry ptable k)
    /\ header_agrees ex_smem_legacy ex_mem_v12 (ptable_entry ptable k).
Proof.
  destruct (set_global_partition_records
              ex_smem_legacy
              {| global_partition_entry := Some ex_global_entry;
                 ptable_entries := repeat None 13;
                 item_count := SMEM_ITEM_COUNT;
                 regions := regions ex_smem |}
              ex_mem_v12 ltac:(by_computation))
    as (_ & ptable & k & Hpt & _ & _ & Hglob & _ & Hagree & _).
  exists ptable, k. auto.
Defined.

(** ** Probe and remove *)

Lemma get_item_count_range (smem : qcom_smem) (m : mem) :
  0 <= qcom_smem_get_item_count smem m < two16.
Proof.
  unfold qcom_smem_get_item_count.
  destruct (qcom_smem_get_ptable smem m) as [ptable|e];
    [|unfold SMEM_ITEM_COUNT; lia].
  destruct (negb _); [unfold SMEM_ITEM_COUNT; lia|].
  apply le16_range.
Qed.

Lemma get_ptable_regions (smem smem' : qcom_smem) (m : mem) :
  regions smem' = regions smem ->
  qcom_smem_get_ptable smem' m = qcom_smem_get_ptable smem m.
Proof.
  intros Hr. unfold qcom_smem_get_ptable, region_at. rewrite Hr.
  reflexivity.
Qed.

Lemma get_item_count_regions (smem smem' : qcom_smem) (m : mem) :
  regions smem' = regions smem ->
  qcom_smem_get_item_count smem' m = qcom_smem_get_item_count smem m.
Proof.
  intros Hr. unfold qcom_smem_get_item_count.
  rewrite (get_ptable_regions smem smem' m Hr). reflexivity.
Qed.

Lemma get_ptable_error (smem : qcom_smem) (m : mem) (e : Z) :
  qcom_smem_get_ptable smem m = Err e -> e = ENOENT \/ e = EINVAL.
Proof.
  unfold qcom_smem_get_ptable.
  destruct (negb _); [intros H; injection H as <-; auto|].
  destruct (negb _); [intros H; injection H as <-; auto | discriminate].
Qed.

Lemma enumerate_from_code (m : mem) (ptable local_host : Z) (n : nat) :
  forall i smem,
    fst (enumerate_from n m ptable i local_host smem) = 0
    \/ fst (enumerate_from n m ptable i local_host smem) = - EINVAL.
Proof.
  induction n as [|n IH]; intros i smem; cbn [enumerate_from];
    [left; reflexivity|].
  repeat match goal with
         | |- context [if ?c then _ else _] => destruct c
         | |- context [match ?c with Some _ => _ | None => _ end] =>
             destruct c
         end; auto.
Qed.

(** An enumeration that reports a missing table left the handle alone. *)
Lemma enumerate_partitions_enoent (smem smem' : qcom_smem) (m : mem)
      (local_host rc : Z) :
  qcom_smem_enumerate_partitions smem m local_host = (rc, smem') ->
  rc = - ENOENT -> smem' = smem.
Proof.
  unfold qcom_smem_enumerate_partitions.
  destruct (qcom_smem_get_ptable smem m) as [ptable|e].
  - intros H ->.
    destruct (enumerate_from_code
                m ptable local_host
                (Z.to_nat (ptable_num_entries m ptable)) 0 smem) as [Hc|Hc];
      rewrite H in Hc; cbn [fst] in Hc; unfold ENOENT, EINVAL in Hc;
      discriminate.
  - intros H _. injection H as _ <-. reflexivity.
Qed.

Lemma u32_int_of_unsigned (x : Z) :
  0 <= x < two32 -> u32 (int_of_unsigned x) = x.
Proof.
  intros Hx. unfold int_of_unsigned, u32.
  destruct (Z.ltb_spec x 2147483648); Z.div_mod_to_equations; lia.
Qed.

(** The handle after the mappings of a probe. *)
Lemma probe_map_ok (pf : platform) (smem : qcom_smem) :
  probe_map pf = (0, smem) ->
  global_partition_entry smem = None
  /\ ptable_entries smem = repeat None 13
  /\ kzalloc pf = true
  /\ devm_ioremap_wc (memory_region pf) <> 0
  /\ region_at smem 0
     = {| aux_base := u32 (r_start (memory_region pf));
          virt_base := devm_ioremap_wc (memory_region pf);
          size := size_t (r_end (memory_region pf)
                          - r_start (memory_region pf) + 1) |}
  /\ length (regions smem) = (if of_rpm_msg_ram pf then 2%nat else 1%nat).
Proof.
  unfold probe_map, qcom_smem_map_memory.
  destruct (kzalloc pf); cbn [negb];
    [|intros H; unfold ENOMEM in H; discriminate].
  destruct (of_parse_phandle (memory_region pf)); cbn [negb];
    [|destruct (of_rpm_msg_ram pf); intros H; unfold EINVAL in H;
      discriminate].
  destruct (Z.eqb_spec (of_address_to_resource (memory_region pf)) 0)
    as [Hrc|Hrc]; cbn [negb].
  2: { destruct (of_rpm_msg_ram pf); cbn [negb].
       all: destruct (Z.eqb_spec (of_address_to_resource (memory_region pf))
                                 0); [contradiction|].
       all: cbn [negb]; intros H; injection H as H _; contradiction. }
  destruct (Z.eqb_spec (devm_ioremap_wc (memory_region pf)) 0) as [Hvb|Hvb].
  { destruct (of_rpm_msg_ram pf); cbn [negb Z.eqb Z.opp ENOMEM];
      intros H; discriminate. }
  cbn [negb Z.eqb].
  destruct (of_rpm_msg_ram pf).
  - destruct (of_parse_phandle (rpm_msg_ram pf)); cbn [negb];
      [|intros H; unfold EINVAL in H; discriminate].
    destruct (Z.eqb_spec (of_address_to_resource (rpm_msg_ram pf)) 0)
      as [Hrc1|Hrc1]; cbn [negb];
      [|intros H; injection H as H _; contradiction].
    destruct (Z.eqb_spec (devm_ioremap_wc (rpm_msg_ram pf)) 0);
      [intros H; unfold ENOMEM in H; discriminate|].
    intros H. injection H as <-. repeat split; auto.
  - intros H. injection H as <-. repeat split; auto.
Qed.

Lemma set_global_partition_code (smem : qcom_smem) (m : mem) :
  fst (qcom_smem_set_global_partition smem m) = 0
  \/ fst (qcom_smem_set_global_partition smem m) < 0.
Proof.
  unfold qcom_smem_set_global_partition.
  destruct (global_partition_entry smem);
    [right; cbn [fst]; unfold EINVAL; lia|].
  destruct (qcom_smem_get_ptable smem m) as [ptable|e] eqn:Hpt.
  - destruct (find_global_entry _ m ptable 0);
      [|right; cbn [fst]; unfold EINVAL; lia].
    destruct (qcom_smem_partition_header _ m _ _ _);
      [left; reflexivity | right; cbn [fst]; unfold EINVAL; lia].
  - right. cbn [fst].
    destruct (get_ptable_error smem m e Hpt) as [-> | ->];
      unfold ENOENT, EINVAL; lia.
Qed.

Lemma enumerate_partitions_code (smem : qcom_smem) (m : mem)
      (local_host : Z) :
  let rc := fst (qcom_smem_enumerate_partitions smem m local_host) in
  rc = 0 \/ rc = - ENOENT \/ rc = - EINVAL.
Proof.
  unfold qcom_smem_enumerate_partitions.
  destruct (qcom_smem_get_ptable smem m) as [ptable|e] eqn:Hpt.
  - destruct (enumerate_from_code
                m ptable local_host
                (Z.to_nat (ptable_num_entries m ptable)) 0 smem); auto.
  - cbn [fst]. destruct (get_ptable_error smem m e Hpt) as [-> | ->]; auto.
Qed.

(** The second half of [probe_heap]: the enumeration on a handle whose
    slots are empty. *)
Lemma probe_enumerate_ok (smem smem' : qcom_smem) (m : mem) (rc : Z) :
  ptable_entries smem = repeat None 13 ->
  qcom_smem_enumerate_partitions smem m SMEM_HOST_APPS = (rc, smem') ->
  (rc <? 0) && negb (rc =? - ENOENT) = false ->
  regions smem' = regions smem
  /\ item_count smem' = item_count smem
  /\ global_partition_entry smem' = global_partition_entry smem
  /\ length (ptable_entries smem') = 13%nat
  /\ forall h e, 0 <= h -> ptable_entries_at smem' h = Some e ->
       h < SMEM_HOST_COUNT
       /\ entry_involves m SMEM_HOST_APPS e
       /\ remote_host_of m SMEM_HOST_APPS e = h
       /\ header_agrees smem' m e.
Proof.
  intros Hempty Hrun Hpass.
  pose proof (enumerate_partitions_code smem m SMEM_HOST_APPS) as Hcode.
  rewrite Hrun in Hcode. cbn [fst] in Hcode.
  destruct Hcode as [-> | [-> | ->]].
  - destruct (enumerate_partitions_result smem smem' m SMEM_HOST_APPS
                                          Hempty Hrun)
      as (ptable & _ & H1 & H2 & H3 & H4 & Hslots).
    split; [exact H1|]. split; [exact H2|]. split; [exact H3|].
    split; [exact H4|].
    intros h e Hh Hs. destruct (Hslots h e Hh) as [Hiff Hval].
    destruct (proj1 Hiff Hs) as (k & _ & _ & Hi & Hr).
    destruct (Hval Hs) as [Hc Ha]. auto.
  - rewrite (enumerate_partitions_enoent smem smem' m SMEM_HOST_APPS _
                                         Hrun eq_refl).
    split; [reflexivity|]. split; [reflexivity|]. split; [reflexivity|].
    split; [rewrite Hempty; reflexivity|].
    intros h e Hh Hs.
    rewrite (ptable_entries_at_empty smem 13 h Hempty) in Hs. discriminate.
  - vm_compute in Hpass. discriminate.
Qed.

(** The handle after the reads of a probe. *)
Lemma probe_heap_ok (smem smem' : qcom_smem) (m : mem) :
  ptable_entries smem = repeat None 13 ->
  global_partition_entry smem = None ->
  probe_heap smem m = (0, smem') ->
  regions smem' = regions smem /\ probed_handle m smem'.
Proof.
  intros Hempty Hglob. unfold probe_heap.
  set (header := virt_base (region_at smem 0)).
  destruct (Z.eqb_spec (header_initialized m header) 1) as [Hinit|Hinit];
    cbn [negb orb]; [|intros H; unfold EINVAL in H; discriminate].
  destruct (Z.eqb_spec (header_reserved m header) 0) as [Hres|Hres];
    cbn [negb]; [|intros H; unfold EINVAL in H; discriminate].
  unfold qcom_smem_get_sbl_version. fold header.
  rewrite u32_int_of_unsigned by apply le32_range.
  set (major := Z.shiftr
                  (header_version m header SMEM_MASTER_SBL_VERSION_INDEX) 16).
  assert (Hfinish : forall smem1,
             regions smem1 = regions smem ->
             ptable_entries smem1 = repeat None 13 ->
             0 <= item_count smem1 < two16 ->
             (major = SMEM_GLOBAL_HEAP_VERSION
              /\ global_partition_entry smem1 = None
              /\ item_count smem1 = SMEM_ITEM_COUNT)
             \/ (major = SMEM_GLOBAL_PART_VERSION
                 /\ item_count smem1 = qcom_smem_get_item_count smem1 m
                 /\ exists e, global_partition_entry smem1 = Some e
                              /\ entry_is_global m e
                              /\ header_agrees smem1 m e) ->
             (let (rc, smem'0) :=
                qcom_smem_enumerate_partitions smem1 m SMEM_HOST_APPS in
              if (rc <? 0) && negb (rc =? - ENOENT) then (rc, smem'0)
              else (0, smem'0)) = (0, smem') ->
             regions smem' = regions smem /\ probed_handle m smem').
  { intros smem1 Hreg1 Hempty1 Hcount Hver.
    destruct (qcom_smem_enumerate_partitions smem1 m SMEM_HOST_APPS)
      as [rc smem2] eqn:Henum.
    destruct ((rc <? 0) && negb (rc =? - ENOENT)) eqn:Hpass.
    { intros H. injection H as -> _. vm_compute in Hpass. discriminate. }
    intros H. injection H as ->.
    destruct (probe_enumerate_ok smem1 smem' m rc Hempty1 Henum Hpass)
      as (H1 & H2 & H3 & H4 & Hslots).
    split; [congruence|].
    assert (Hhdr : virt_base (region_at smem' 0) = header).
    { unfold header, region_at. rewrite H1, Hreg1. reflexivity. }
    unfold probed_handle. rewrite Hhdr. fold major.
    split; [exact Hinit|]. split; [exact Hres|].
    split.
    { destruct Hver as [(Hv & Hg & Hc)|(Hv & Hc & e & Hg & He & Ha)].
      - left. repeat split; congruence.
      - right. split; [exact Hv|]. split.
        + rewrite H2, Hc. symmetry. apply get_item_count_regions, H1.
        + exists e. split; [congruence|]. split; [exact He|].
          apply (header_agrees_regions smem1); assumption. }
    split; [rewrite H2; exact Hcount|].
    split; [exact H4 | exact Hslots]. }
  destruct (Z.eqb_spec major SMEM_GLOBAL_PART_VERSION) as [Hv12|Hv12].
  - destruct (qcom_smem_set_global_partition smem m) as [rc1 smem1] eqn:Hset.
    pose proof (set_global_partition_code smem m) as Hcode.
    rewrite Hset in Hcode. cbn [fst] in Hcode.
    destruct (Z.ltb_spec rc1 0) as [Hneg|Hpos].
    { destruct (Z.ltb_spec rc1 0) as [_|Hc]; [|lia].
      intros Hx. injection Hx as Hx _. lia. }
    assert (rc1 = 0) by lia. subst rc1.
    destruct (set_global_partition_result smem smem1 m Hset)
      as (_ & ptable & k & _ & _ & Hg & Hisg & _ & Hagree & He & _ & Hr).
    cbn [Z.ltb Z.compare].
    apply Hfinish; cbn [set_item_count regions ptable_entries item_count
                        global_partition_entry].
    + exact Hr.
    + rewrite He. exact Hempty.
    + apply get_item_count_range.
    + right. split; [exact Hv12|]. split; [reflexivity|].
      exists (ptable_entry ptable k).
      split; [exact Hg|]. split; [exact Hisg|]. exact Hagree.
  - destruct (Z.eqb_spec major SMEM_GLOBAL_HEAP_VERSION) as [Hv11|Hv11].
    + cbn [Z.ltb Z.compare].
      apply Hfinish; cbn [set_item_count regions ptable_entries item_count
                          global_partition_entry].
      * reflexivity.
      * exact Hempty.
      * unfold SMEM_ITEM_COUNT. lia.
      * left. auto.
    + cbn [Z.ltb Z.compare Z.opp EINVAL]. intros H. discriminate.
Qed.

(** The three stages of the probe, run on a world. *)
Lemma qcom_smem_probe_run (pf : platform) (w : world) :
  qcom_smem_probe pf w =
  let (rc0, smem0) := probe_map pf in
  if negb (rc0 =? 0) then (rc0, w)
  else
    let w1 := {| __smem := __smem w; shared := shared w; hwlock := hwlock w;
                 trace := trace w ++ [EvAccess] |} in
    let (rc1, smem1) := probe_heap smem0 (shared w) in
    if negb (rc1 =? 0) then (rc1, w1)
    else if negb (probe_lock pf =? 0) then (probe_lock pf, w1)
    else (0, {| __smem := Some smem1; shared := shared w;
                hwlock := hwlock w; trace := trace w ++ [EvAccess] |}).
Proof.
  unfold qcom_smem_probe.
  destruct (probe_map pf) as [rc0 smem0].
  destruct (negb (rc0 =? 0)); [reflexivity|].
  unfold bind, smem_ro, smem_rw, ret, install, log.
  destruct (probe_heap smem0 (shared w)) as [rc1 smem1].
  cbn [__smem shared hwlock trace].
  destruct (negb (rc1 =? 0)); [reflexivity|].
  destruct (negb (probe_lock pf =? 0)); reflexivity.
Qed.

(** X15: what a successful probe installs.  When the probe returns 0 it
    has installed a handle whose first region is the mapping of the
    "memory-region" node (not NULL, with the low 32 bits of the physical
    start as its tag and the resource's size), with one region more when
    the node has "qcom,rpm-msg-ram"; the shared memory and the lock are
    untouched; and the handle satisfies [probed_handle]: initialized
    header, version 11 or 12 with the matching global partition and item
    count, an item count that fits 16 bits, and 13 slots that are empty
    or hold a validated table entry of their host. *)
Theorem probe_installs_probed_handle (pf : platform) (w : world) :
  let w' := snd (qcom_smem_probe pf w) in
  fst (qcom_smem_probe pf w) = 0 ->
  exists smem,
    __smem w' = Some smem
    /\ shared w' = shared w /\ hwlock w' = hwlock w
    /\ devm_ioremap_wc (memory_region pf) <> 0
    /\ region_at smem 0
       = {| aux_base := u32 (r_start (memory_region pf));
            virt_base := devm_ioremap_wc (memory_region pf);
            size := size_t (r_end (memory_region pf)
                            - r_start (memory_region pf) + 1) |}
    /\ length (regions smem) = (if of_rpm_msg_ram pf then 2%nat else 1%nat)
    /\ probed_handle (shared w) smem
    /\ 0 <= of_hwspin_lock_get_id pf
    /\ hwspin_lock_request_specific pf = true.
Proof.
  intros w'. unfold w'. rewrite qcom_smem_probe_run.
  destruct (probe_map pf) as [rc0 smem0] eqn:Hmap.
  destruct (Z.eqb_spec rc0 0) as [->|Hrc0]; cbn [negb];
    [|cbn [fst]; intros; contradiction].
  destruct (probe_map_ok pf smem0 Hmap) as (Hg & He & _ & Hvb & Hr0 & Hlen).
  destruct (probe_heap smem0 (shared w)) as [rc1 smem1] eqn:Hheap.
  destruct (Z.eqb_spec rc1 0) as [->|Hrc1]; cbn [negb];
    [|cbn [fst]; intros; contradiction].
  destruct (probe_heap_ok smem0 smem1 (shared w) He Hg Hheap) as [Hreg Hp].
  destruct (Z.eqb_spec (probe_lock pf) 0) as [Hlock|Hlock]; cbn [negb];
    [|cbn [fst]; intros; contradiction].
  intros _. exists smem1. cbn [snd __smem shared hwlock].
  split; [reflexivity|]. split; [reflexivity|]. split; [reflexivity|].
  split; [exact Hvb|].
  split; [unfold region_at in *; rewrite Hreg; exact Hr0|].
  split; [rewrite Hreg; exact Hlen|].
  split; [exact Hp|].
  unfold probe_lock in Hlock.
  destruct (Z.ltb_spec (of_hwspin_lock_get_id pf) 0); [lia|].
  destruct (hwspin_lock_request_specific pf); cbn [negb] in Hlock;
    [split; [lia | reflexivity] | unfold ENXIO in Hlock; discriminate].
Qed.

Lemma probe_installs_probed_handle_witness :
  exists smem,
    __smem (snd (qcom_smem_probe ex_platform (ex_world_unprobed ex_mem_v12)))
    = Some smem
    /\ probed_handle ex_mem_v12 smem.
Proof.
  destruct (probe_installs_probed_handle
              ex_platform (ex_world_unprobed ex_mem_v12)
              ltac:(by_computation))
    as (smem & Hs & _ & _ & _ & _ & _ & Hp & _).
  exists smem. split; [exact Hs | exact Hp].
Defined.

(** X16: a probe that fails installs nothing.  When the probe returns
    anything but 0, the handle (none, or the one of an earlier probe),
    the shared memory and the lock are what they were. *)
Theorem probe_failure_installs_nothing (pf : platform) (w : world) :
  let w' := snd (qcom_smem_probe pf w) in
  fst (qcom_smem_probe pf w) <> 0 ->
  __smem w' = __smem w /\ shared w' = shared w /\ hwlock w' = hwlock w.
Proof.
  intros w'. unfold w'. rewrite qcom_smem_probe_run.
  destruct (probe_map pf) as [rc0 smem0].
  destruct (negb (rc0 =? 0)); [auto|].
  destruct (probe_heap smem0 (shared w)) as [rc1 smem1].
  destruct (negb (rc1 =? 0)); [auto|].
  destruct (negb (probe_lock pf =? 0)); [auto|].
  cbn [fst]. intros H. contradiction.
Qed.

Lemma probe_failure_installs_nothing_witness :
  fst (qcom_smem_probe ex_platform (ex_world_of ex_mem)) = - EINVAL
  /\ __smem (snd (qcom_smem_probe ex_platform (ex_world_of ex_mem)))
     = Some ex_smem.
Proof.
  split; [by_computation|].
  apply (probe_failure_installs_nothing ex_platform (ex_world_of ex_mem)).
  by_computation.
Defined.

(** X17: the probe of a legacy system.  On a platform whose handle
    allocation, single mapping and lock requests succeed, with a header
    marked initialized whose boot loader version is 11 and no partition
    table at the end of the region, the probe returns 0 (the missing
    table is not an error) and installs a handle without partitions: 512
    items, and every host is routed to the global heap. *)
Theorem probe_legacy (pf : platform) (w : world) :
  let m := shared w in
  let np := memory_region pf in
  let header := devm_ioremap_wc np in
  let r0 := {| aux_base := u32 (r_start np); virt_base := header;
               size := size_t (r_end np - r_start np + 1) |} in
  kzalloc pf = true -> of_rpm_msg_ram pf = false ->
  of_parse_phandle np = true -> of_address_to_resource np = 0 ->
  header <> 0 ->
  0 <= of_hwspin_lock_get_id pf -> hwspin_lock_request_specific pf = true ->
  header_initialized m header = 1 -> header_reserved m header = 0 ->
  Z.shiftr (header_version m header SMEM_MASTER_SBL_VERSION_INDEX) 16
  = SMEM_GLOBAL_HEAP_VERSION ->
  magic_ok m (ptr_sub (ptr_add header (size r0)) SZ_4K) SMEM_PTABLE_MAGIC
  = false ->
  fst (qcom_smem_probe pf w) = 0
  /\ __smem (snd (qcom_smem_probe pf w))
     = Some {| global_partition_entry := None;
               ptable_entries := repeat None 13;
               item_count := SMEM_ITEM_COUNT;
               regions := [r0] |}
  /\ forall smem host,
       __smem (snd (qcom_smem_probe pf w)) = Some smem ->
       routed_entry smem host = None.
Proof.
  intros m np header r0 Hk Hrpm Hph Hres Hvb Hid Hreq Hinit Hrsv Hver Hmagic.
  assert (Hmap : probe_map pf
                 = (0, {| global_partition_entry := None;
                          ptable_entries := repeat None 13;
                          item_count := 0;
                          regions := [r0] |})).
  { unfold probe_map, qcom_smem_map_memory. fold np.
    rewrite Hk, Hrpm, Hph, Hres. cbn [negb Z.eqb].
    destruct (Z.eqb_spec (devm_ioremap_wc np) 0) as [Hc|_];
      [contradiction|].
    reflexivity. }
  assert (Hheap : probe_heap {| global_partition_entry := None;
                                ptable_entries := repeat None 13;
                                item_count := 0;
                                regions := [r0] |} m
                  = (0, {| global_partition_entry := None;
                           ptable_entries := repeat None 13;
                           item_count := SMEM_ITEM_COUNT;
                           regions := [r0] |})).
  { unfold probe_heap, qcom_smem_get_sbl_version, region_at.
    cbn [regions nth virt_base r0].
    rewrite Hinit, Hrsv. cbn [Z.eqb negb orb Pos.eqb].
    rewrite u32_int_of_unsigned by apply le32_range.
    rewrite Hver. cbn [SMEM_GLOBAL_HEAP_VERSION SMEM_GLOBAL_PART_VERSION
                       Z.eqb Pos.eqb Z.ltb Z.compare].
    unfold qcom_smem_enumerate_partitions, qcom_smem_get_ptable, region_at.
    cbn [set_item_count regions nth virt_base].
    fold r0. cbn [virt_base r0].
    rewrite Hmagic. cbn [negb].
    reflexivity. }
  assert (Hlock : probe_lock pf = 0).
  { unfold probe_lock. destruct (Z.ltb_spec (of_hwspin_lock_get_id pf) 0);
      [lia|]. rewrite Hreq. reflexivity. }
  rewrite qcom_smem_probe_run, Hmap. cbn [Z.eqb negb]. fold m.
  rewrite Hheap. cbn [Z.eqb negb]. rewrite Hlock. cbn [Z.eqb negb fst snd
                                                        __smem].
  split; [reflexivity|]. split; [reflexivity|].
  intros smem host H. injection H as <-.
  unfold routed_entry. cbn [global_partition_entry].
  destruct (host <? SMEM_HOST_COUNT); [|reflexivity].
  rewrite (ptable_entries_at_empty _ 13); reflexivity.
Qed.

Lemma probe_legacy_witness :
  fst (qcom_smem_probe ex_platform (ex_world_unprobed ex_mem_v11)) = 0
  /\ __smem (snd (qcom_smem_probe ex_platform (ex_world_unprobed ex_mem_v11)))
     = Some ex_smem_legacy.
Proof.
  pose proof (probe_legacy
                ex_platform (ex_world_unprobed ex_mem_v11)
                eq_refl eq_refl eq_refl eq_refl
                ltac:(by_computation) ltac:(by_computation) eq_refl
                ltac:(by_computation) ltac:(by_computation)
                ltac:(by_computation) ltac:(by_computation))
    as (H1 & H2 & _).
  split; [exact H1|]. rewrite H2. by_computation.
Defined.

(** X18: without a handle nothing is touched.  Removing the device
    clears the handle and returns 0; from then on (as before the first
    probe) allocation, lookup and the free-space query return
    -EPROBE_DEFER and leave the lock, the shared memory and the record of
    accesses as they are. *)
Theorem removed_handle_defers (w : world) (host item len : Z) :
  let w' := snd (qcom_smem_remove w) in
  __smem w <> None ->
  fst (qcom_smem_remove w) = Some 0
  /\ __smem w' = None /\ shared w' = shared w /\ hwlock w' = hwlock w
  /\ qcom_smem_alloc host item len w' = (- EPROBE_DEFER, w')
  /\ qcom_smem_get host item w' = (Err EPROBE_DEFER, w')
  /\ qcom_smem_get_free_space host w' = (- EPROBE_DEFER, w').
Proof.
  intros w' Hs. unfold w', qcom_smem_remove.
  destruct (__smem w) as [smem|]; [|contradiction].
  unfold bind, install, ret, qcom_smem_alloc, qcom_smem_get,
    qcom_smem_get_free_space.
  cbn [fst snd __smem shared hwlock]. repeat split; reflexivity.
Qed.

Lemma removed_handle_defers_witness :
  fst (qcom_smem_alloc 5 10 100 (snd (qcom_smem_remove ex_world)))
  = - EPROBE_DEFER.
Proof.
  destruct (removed_handle_defers ex_world 5 10 100 ltac:(discriminate))
    as (_ & _ & _ & _ & Ha & _).
  rewrite Ha. reflexivity.
Defined.

(** ** The lock on the error paths *)

(** X19: a lock that cannot be obtained.  With a handle, an accepted
    item and the hardware lock held elsewhere for longer than the
    timeout, allocation and lookup return -ETIMEDOUT and leave the shared
    memory, the handle and the record of accesses exactly as they
    were. *)
Theorem lock_timeout_touches_nothing (w : world) (smem : qcom_smem)
        (host item len : Z) :
  __smem w = Some smem -> hwlock w <> LockFree ->
  SMEM_ITEM_LAST_FIXED <= item < item_count smem ->
  qcom_smem_alloc host item len w = (- ETIMEDOUT, w)
  /\ qcom_smem_get host item w = (Err ETIMEDOUT, w).
Proof.
  intros Hs Hl Hi. unfold qcom_smem_alloc, qcom_smem_get. rewrite Hs.
  destruct (Z.ltb_spec item SMEM_ITEM_LAST_FIXED); [lia|].
  destruct (Z.leb_spec (item_count smem) item); [lia|].
  unfold bind, hwspin_lock_timeout_irqsave, ret.
  destruct (hwlock w); [contradiction| |]; split; reflexivity.
Qed.

Lemma lock_timeout_touches_nothing_witness :
  let w := {| __smem := Some ex_smem; shared := ex_mem_boot;
              hwlock := LockRemote; trace := [] |} in
  fst (qcom_smem_alloc 5 10 100 w) = - ETIMEDOUT
  /\ fst (qcom_smem_get 5 10 w) = Err ETIMEDOUT.
Proof.
  intros w.
  destruct (lock_timeout_touches_nothing w ex_smem 5 10 100 eq_refl
              ltac:(discriminate) ltac:(by_computation)) as [Ha Hg].
  split; [rewrite Ha | rewrite Hg]; reflexivity.
Defined.

(** X20: no entry point returns with the lock held.  Whatever the
    handle, the item, the routed operation and its result, the state of
    the hardware lock after an allocation, a lookup or a free-space query
    is the state before it: a lock that was taken has been released on
    every path, also on those that return an error. *)
Theorem lock_state_restored (w : world) (host item len : Z) :
  hwlock (snd (qcom_smem_alloc host item len w)) = hwlock w
  /\ hwlock (snd (qcom_smem_get host item w)) = hwlock w
  /\ hwlock (snd (qcom_smem_get_free_space host w)) = hwlock w.
Proof.
  split; [|split].
  - unfold qcom_smem_alloc.
    destruct (__smem w) as [smem|]; [|reflexivity].
    destruct (item <? SMEM_ITEM_LAST_FIXED); [reflexivity|].
    destruct (item_count smem <=? item); [reflexivity|].
    unfold bind, hwspin_lock_timeout_irqsave.
    destruct (hwlock w) eqn:Hl; cbn [negb Z.eqb Z.opp ETIMEDOUT ret snd];
      try exact Hl.
    destruct (routed_entry smem host) as [entry|]; unfold smem_rw, log;
      cbn [shared __smem hwlock trace].
    + destruct (qcom_smem_alloc_private smem entry item len (shared w)).
      reflexivity.
    + destruct (qcom_smem_alloc_global smem item len (shared w)).
      reflexivity.
  - unfold qcom_smem_get.
    destruct (__smem w) as [smem|]; [|reflexivity].
    destruct (item_count smem <=? item); [reflexivity|].
    unfold bind, hwspin_lock_timeout_irqsave.
    destruct (hwlock w) eqn:Hl; cbn [negb Z.eqb Z.opp ETIMEDOUT ret snd];
      try exact Hl.
    destruct (routed_entry smem host) as [entry|]; reflexivity.
  - unfold qcom_smem_get_free_space.
    destruct (__smem w) as [smem|]; [|reflexivity].
    destruct (routed_entry smem host) as [entry|]; reflexivity.
Qed.

(** ** Physical addresses, in general *)

Lemma virt_to_phys_regions_outcome (rs : list smem_region) (p : Z) :
  (exists pre r post,
      rs = pre ++ r :: post
      /\ (forall a, In a pre ->
                    p < virt_base a \/ ptr_add (virt_base a) (size a) <= p)
      /\ virt_base r <= p < ptr_add (virt_base r) (size r)
      /\ virt_to_phys_regions rs p = size_t (aux_base r + (p - virt_base r)))
  \/ ((forall a, In a rs ->
                 p < virt_base a \/ ptr_add (virt_base a) (size a) <= p)
      /\ virt_to_phys_regions rs p = 0).
Proof.
  induction rs as [|r rs IH]; cbn [virt_to_phys_regions].
  - right. split; [intros a [] | reflexivity].
  - assert (Hskip : p < virt_base r \/ ptr_add (virt_base r) (size r) <= p ->
             (exists pre r0 post,
                 r :: rs = pre ++ r0 :: post
                 /\ (forall a, In a pre ->
                       p < virt_base a
                       \/ ptr_add (virt_base a) (size a) <= p)
                 /\ virt_base r0 <= p < ptr_add (virt_base r0) (size r0)
                 /\ virt_to_phys_regions rs p
                    = size_t (aux_base r0 + (p - virt_base r0)))
             \/ ((forall a, In a (r :: rs) ->
                    p < virt_base a \/ ptr_add (virt_base a) (size a) <= p)
                 /\ virt_to_phys_regions rs p = 0)).
    { intros Hout.
      destruct IH as [(pre & r0 & post & -> & Hpre & Hin & Hres)|[Hall Hres]].
      - left. exists (r :: pre), r0, post.
        split; [reflexivity|]. split; [|split; assumption].
        intros a [<-|Ha]; [exact Hout | apply Hpre, Ha].
      - right. split; [|exact Hres].
        intros a [<-|Ha]; [exact Hout | apply Hall, Ha]. }
    destruct (Z.ltb_spec p (virt_base r)) as [Hlo|Hlo];
      [apply Hskip; left; exact Hlo|].
    destruct (Z.ltb_spec p (ptr_add (virt_base r) (size r))) as [Hhi|Hhi];
      [|apply Hskip; right; exact Hhi].
    left. exists [], r, rs. split; [reflexivity|].
    split; [intros a []|]. split; [lia | reflexivity].
Qed.

(** X21: what the conversion to a physical address returns.  The result
    is decided by the first region that contains the pointer (its base is
    at or below the pointer and the pointer is below base plus size,
    computed in 64 bits): the region's tag plus the pointer's offset into
    it; when no region contains the pointer the result is 0. *)
Theorem virt_to_phys_outcome (smem : qcom_smem) (p : Z) :
  (exists pre r post,
      regions smem = pre ++ r :: post
      /\ (forall a, In a pre ->
                    p < virt_base a \/ ptr_add (virt_base a) (size a) <= p)
      /\ virt_base r <= p < ptr_add (virt_base r) (size r)
      /\ qcom_smem_virt_to_phys smem p
         = size_t (aux_base r + (p - virt_base r)))
  \/ ((forall a, In a (regions smem) ->
                 p < virt_base a \/ ptr_add (virt_base a) (size a) <= p)
      /\ qcom_smem_virt_to_phys smem p = 0).
Proof.
  unfold qcom_smem_virt_to_phys. apply virt_to_phys_regions_outcome.
Qed.

(** X22: physical addresses after a probe.  For the handle a successful
    probe installed, a pointer into the mapping of the first region
    converts to the low 32 bits of the physical start of the
    "memory-region" resource plus the pointer's offset, which is the
    physical address of the byte when that start is below 4 GiB. *)
Theorem probe_virt_to_phys (pf : platform) (w : world) (smem : qcom_smem)
        (p : Z) :
  let np := memory_region pf in
  let base := devm_ioremap_wc np in
  fst (qcom_smem_probe pf w) = 0 ->
  __smem (snd (qcom_smem_probe pf w)) = Some smem ->
  base <= p < ptr_add base (size_t (r_end np - r_start np + 1)) ->
  qcom_smem_virt_to_phys smem p = size_t (u32 (r_start np) + (p - base))
  /\ (0 <= r_start np < two32 -> p - base + r_start np < two64 ->
      qcom_smem_virt_to_phys smem p = r_start np + (p - base)).
Proof.
  intros np base. rewrite qcom_smem_probe_run.
  destruct (probe_map pf) as [rc0 smem0] eqn:Hmap.
  destruct (Z.eqb_spec rc0 0) as [->|Hrc0]; cbn [negb];
    [|intros H; exfalso; apply Hrc0; exact H].
  destruct (probe_map_ok pf smem0 Hmap) as (Hg & He & _ & _ & Hr0 & Hlen).
  destruct (probe_heap smem0 (shared w)) as [rc1 smem1] eqn:Hheap.
  destruct (Z.eqb_spec rc1 0) as [->|Hrc1]; cbn [negb];
    [|intros H; exfalso; apply Hrc1; exact H].
  destruct (probe_heap_ok smem0 smem1 (shared w) He Hg Hheap) as [Hreg _].
  destruct (Z.eqb_spec (probe_lock pf) 0) as [Hlock|Hlock]; cbn [negb];
    [|intros H; exfalso; apply Hlock; exact H].
  cbn [fst snd __smem].
  intros _ Hs Hp. injection Hs as <-.
  fold np in Hr0. fold base in Hr0.
  assert (Hregs : exists rest,
             regions smem1
             = {| aux_base := u32 (r_start np); virt_base := base;
                  size := size_t (r_end np - r_start np + 1) |} :: rest).
  { rewrite Hreg. unfold region_at in Hr0.
    destruct (regions smem0) as [|r rest];
      [destruct (of_rpm_msg_ram pf); discriminate|].
    cbn [nth] in Hr0. subst r. exists rest. reflexivity. }
  destruct Hregs as [rest Hregs].
  assert (Hres : qcom_smem_virt_to_phys smem1 p
                 = size_t (u32 (r_start np) + (p - base))).
  { unfold qcom_smem_virt_to_phys. rewrite Hregs.
    cbn [virt_to_phys_regions virt_base aux_base size].
    destruct (Z.ltb_spec p base); [lia|].
    destruct (Z.ltb_spec
                p (ptr_add base (size_t (r_end np - r_start np + 1))));
      [reflexivity | lia]. }
  split; [exact Hres|].
  intros Hlow Hfit. rewrite Hres. unfold u32, size_t.
  rewrite (Z.mod_small (r_start np)) by lia.
  rewrite Z.mod_small by lia. reflexivity.
Qed.

Lemma probe_virt_to_phys_witness :
  qcom_smem_virt_to_phys ex_smem_v12 (ex_phdr + 48)
  = 2248146944 + 4096 + 48.
Proof.
  destruct (probe_virt_to_phys
              ex_platform (ex_world_unprobed ex_mem_v12) ex_smem_v12
              (ex_phdr + 48)
              ltac:(by_computation) ltac:(by_computation)
              ltac:(by_computation)) as [H _].
  vm_compute in H. vm_compute. exact H.
Defined.

(** ** The outcomes on the concrete system *)

Lemma get_global_outcome_witness :
  let m := snd (qcom_smem_alloc_global ex_smem_legacy 10 100
                  (shared ex_world_legacy)) in
  ge_allocated m (header_toc ex_base 10) <> 0
  /\ exists area,
       In area (regions ex_smem_legacy)
       /\ 104 <= size area.
Proof.
  intros m.
  pose proof (get_global_outcome ex_smem_legacy m 10) as H.
  assert (E : qcom_smem_get_global ex_smem_legacy 10 m
              = Ok (ex_base + 8400, 104)) by by_computation.
  rewrite E in H.
  destruct H as (Ha & pre & area & post & Hregs & _ & _ & _ & Hsz & Hin).
  split; [exact Ha|].
  exists area. split.
  - rewrite Hregs. apply in_or_app. right. left. reflexivity.
  - pose proof (le32_range m (header_toc
                                (virt_base (region_at ex_smem_legacy 0)) 10
                              + 4)) as Ho.
    fold (ge_offset m (header_toc
                         (virt_base (region_at ex_smem_legacy 0)) 10)) in Ho.
    lia.
Defined.

Lemma virt_to_phys_outcome_witness :
  qcom_smem_virt_to_phys ex_smem 5 = 0.
Proof.
  destruct (virt_to_phys_outcome ex_smem 5)
    as [(pre & r & post & Hregs & _ & Hin & _) | [_ Hres]];
    [exfalso | exact Hres].
  unfold ex_smem in Hregs. cbn [regions] in Hregs.
  destruct pre as [|a pre]; cbn [app] in Hregs.
  - injection Hregs as <- _. destruct Hin as [Hlo _].
    vm_compute in Hlo. apply Hlo. reflexivity.
  - injection Hregs as _ Hnil. destruct pre; discriminate Hnil.
Defined.

(** * Entries that the walks come to

    The properties of this part are stated over the contents of the
    shared memory: which entries a walk comes to ([uncached_visit],
    [cached_visit]), their canary, item and sizes, and the offsets of the
    partition header. *)










(** ** Lookup of the reserved items *)



(** ** The space check of a private allocation *)

(** C4 (code bug): the space check is made from the cursor of the walk,
    not from the forward free pointer.  On the empty partition of the
    concrete system, [qcom_smem_alloc(5, 10, 0)] returns 0 and leaves the
    forward free offset at 48 and the backward one at 256.  A request of
    208 bytes for item 11 needs 16 + 208 = 224 bytes, and 48 + 224
    passes 256, so the allocation has to fail for lack of space; it
    returns 0: the walk does not enter the last entry, which has no
    payload, and leaves its cursor at offset 32, from where 224 bytes
    fit.  The new header is written at offset 32, over the entry of item
    10, not at the free pointer, and the forward free offset becomes 272,
    past the backward one and past the partition; from then on every
    lookup and every allocation in the partition fails with [EINVAL]. *)
Theorem alloc_space_check_from_cursor :
  let w1 := snd (qcom_smem_alloc 5 10 0 ex_world) in
  let w2 := snd (qcom_smem_alloc 5 11 208 w1) in
  let required := SIZEOF_PRIVATE_ENTRY + round_up8 208 in
  fst (qcom_smem_alloc 5 10 0 ex_world) = 0
  /\ phdr_offset_free_uncached (shared w1) ex_phdr = 48
  /\ phdr_offset_free_cached (shared w1) ex_phdr = 256
  /\ pe_item (shared w1) (ex_phdr + 32) = 10
  /\ uncached_walk (shared w1) 11 (phdr_to_first_uncached_entry ex_phdr)
                   (phdr_to_last_uncached_entry (shared w1) ex_phdr)
     = WDone (ex_phdr + 32)
  /\ phdr_offset_free_cached (shared w1) ex_phdr
     < phdr_offset_free_uncached (shared w1) ex_phdr + required
  /\ fst (qcom_smem_alloc 5 11 208 w1) = 0
  /\ pe_item (shared w2) (ex_phdr + 32) = 11
  /\ phdr_offset_free_uncached (shared w2) ex_phdr = 272
  /\ phdr_offset_free_cached (shared w2) ex_phdr = 256
  /\ pte_size (shared w2) ex_entry = 256
  /\ fst (qcom_smem_get 5 11 w2) = Err EINVAL
  /\ fst (qcom_smem_get 5 10 w2) = Err EINVAL
  /\ fst (qcom_smem_alloc 5 12 8 w2) = - EINVAL.
Proof. vm_compute. repeat split; reflexivity. Qed.

(** ** Allocating twice, and what a failed allocation leaves *)



